(** * flo: the Stack Overflow response interpreter and document formatter

    A shallow embedding of [pkg/mcp/parse.go] (deserialisation, selection of
    the best question, Markdown formatting) and of [ExtractQuestionID] from
    the client file of the same package, together with the properties the
    specification states about them.

    Conventions.
    - Go's [int] is the 64-bit two's-complement integer of the usual targets;
      it is a [Z] in the range [min_int .. max_int] and the only arithmetic
      that can leave the range ([-n]) is wrapped with [int_wrap].
    - A Go [string] is a sequence of bytes: [string] (a list of 8-bit
      [ascii]).  Literals of the source that hold non-ASCII characters are
      the UTF-8 bytes of this file.
    - A nil pointer argument is [None]; a pointer into [resp.Items] is the
      index of the item.
    - Library calls the code makes ([sort.Slice], [regexp], [encoding/json],
      [fmt.Sprintf "%d"]) are modelled after the Go standard library. *)

From Stdlib Require Import ZArith NArith Ascii String DecimalString Decimal.
From stdpp Require Import base tactics option list numbers strings gmap.

Set Warnings "-register-all".
Local Open Scope Z_scope.

(** ** Go's [int] *)

Module GoInt.

Definition min_int : Z := - 2 ^ 63.
Definition max_int : Z := 2 ^ 63 - 1.

Definition in_range (z : Z) : Prop := min_int <= z <= max_int.

(** Two's-complement wrap-around of a mathematical integer into [int]. *)
Definition int_wrap (z : Z) : Z := (z + 2 ^ 63) mod 2 ^ 64 - 2 ^ 63.

(** Unary minus of the language: [-n] on [int]. *)
Definition int_neg (n : Z) : Z := int_wrap (- n).

End GoInt.
Export GoInt.

(** ** [fmt.Sprintf("%d", n)] : the decimal rendering of an integer *)

Definition Sprintf_d (n : Z) : string := NilZero.string_of_int (Z.to_int n).

(** ** String helpers of the [strings] package and of slicing *)

Definition len (s : string) : nat := String.length s.

(** [s[:n]] *)
Fixpoint str_take (n : nat) (s : string) : string :=
  match n, s with
  | S n', String c s' => String c (str_take n' s')
  | _, _ => EmptyString
  end.

(** [s[n:]] *)
Fixpoint str_drop (n : nat) (s : string) : string :=
  match n, s with
  | S n', String _ s' => str_drop n' s'
  | _, _ => s
  end.

(** [strings.Join(parts, sep)] *)
Fixpoint Join (parts : list string) (sep : string) : string :=
  match parts with
  | [] => ""
  | [p] => p
  | p :: rest => p +:+ sep +:+ Join rest sep
  end.

(** ** [formatNumber] *)

(** The loop of [formatNumber]:
    [for len(s) > 3 { parts = prepend(s[len(s)-3:], parts); s = s[:len(s)-3] }]
    followed by [parts = prepend(s, parts)].  The counter bounds the number
    of iterations; [len s] is always enough. *)
Fixpoint group_loop (n : nat) (s : string) (parts : list string) : list string :=
  match n with
  | O => s :: parts
  | S n' =>
      if (3 <? len s)%nat
      then group_loop n' (str_take (len s - 3) s) (str_drop (len s - 3) s :: parts)
      else s :: parts
  end.

(** [formatNumber n].  The function calls itself on [-n] when [n < 0]; the
    fuel counts the nested calls, and [None] means the recursion did not
    come to an end within the fuel. *)
Fixpoint formatNumber (fuel : nat) (n : Z) : option string :=
  match fuel with
  | O => None
  | S fuel' =>
      if n <? 0 then
        match formatNumber fuel' (int_neg n) with
        | Some r => Some ("-" +:+ r)
        | None => None
        end
      else
        let s := Sprintf_d n in
        if (len s <=? 3)%nat then Some s
        else Some (Join (group_loop (len s) s []) ",")
  end.

(** ** [sort.Slice] of the Go standard library

    [sort.Slice(x, less)] sorts the slice [x] in place with the
    pattern-defeating quicksort of [sort/zsortfunc.go].  The library works
    on the pair [lessSwap{less, swap}]: [Less i j] compares the elements
    that are at the indices [i] and [j] at that moment, [Swap i j]
    exchanges them.  The slice under sort is threaded through as a list.
    The sort is not stable. *)

Module Sort.
Section Pdqsort.
Context {A : Type}.
Variable less : A -> A -> bool.

Local Open Scope nat_scope.

(** The closure handed to [sort.Slice] reads the slice at both indices.
    The library only uses indices inside the slice; outside it the model
    answers [false] and leaves the slice as it is. *)
Definition Less (data : list A) (i j : nat) : bool :=
  match data !! i, data !! j with
  | Some x, Some y => less x y
  | _, _ => false
  end.

Definition Swap (data : list A) (i j : nat) : list A :=
  match data !! i, data !! j with
  | Some x, Some y => <[i:=y]> (<[j:=x]> data)
  | _, _ => data
  end.

(** [insertionSort_func]:
    [for i := a+1; i < b; i++ { for j := i; j > a && Less(j, j-1); j-- { Swap(j, j-1) } }] *)
Fixpoint insertion_inner (data : list A) (a j : nat) : list A :=
  match j with
  | O => data
  | S j' =>
      if (a <? j) && Less data j j'
      then insertion_inner (Swap data j j') a j'
      else data
  end.

Fixpoint insertion_outer (n : nat) (data : list A) (a i : nat) : list A :=
  match n with
  | O => data
  | S n' => insertion_outer n' (insertion_inner data a i) a (S i)
  end.

Definition insertionSort_func (data : list A) (a b : nat) : list A :=
  insertion_outer (b - (a + 1)) data a (a + 1).

(** [siftDown_func]: restores the heap property below [root] in
    [data[first+lo : first+hi]].  Every round moves [root] to a child, so
    [hi] rounds are enough. *)
Fixpoint siftDown_loop (n : nat) (data : list A) (root hi first : nat) : list A :=
  match n with
  | O => data
  | S n' =>
      let child := 2 * root + 1 in
      if hi <=? child then data
      else
        let child :=
          if (child + 1 <? hi) && Less data (first + child) (first + child + 1)
          then child + 1 else child in
        if negb (Less data (first + root) (first + child)) then data
        else siftDown_loop n' (Swap data (first + root) (first + child)) child hi first
  end.

Definition siftDown_func (data : list A) (lo hi first : nat) : list A :=
  siftDown_loop hi data lo hi first.

(** [for i := (hi - 1) / 2; i >= 0; i-- { siftDown(data, i, hi, first) }] *)
Fixpoint heap_build (data : list A) (i hi first : nat) : list A :=
  let data := siftDown_func data i hi first in
  match i with
  | O => data
  | S i' => heap_build data i' hi first
  end.

(** [for i := hi - 1; i >= 0; i-- { Swap(first, first+i); siftDown(data, lo, i, first) }] *)
Fixpoint heap_pop (data : list A) (i first : nat) : list A :=
  let data := siftDown_func (Swap data first (first + i)) 0 i first in
  match i with
  | O => data
  | S i' => heap_pop data i' first
  end.

Definition heapSort_func (data : list A) (a b : nat) : list A :=
  let first := a in
  let hi := b - a in
  let data := heap_build data ((hi - 1) / 2) hi first in
  heap_pop data (hi - 1) first.

(** [xorshift.Next] on [uint64]. *)
Definition xorshift_Next (r : N) : N :=
  let m := (2 ^ 64)%N in
  let r := N.lxor r (N.shiftl r 13 mod m) in
  let r := N.lxor r (N.shiftr r 7) in
  let r := N.lxor r (N.shiftl r 17 mod m) in
  r.

(** [bits.Len]: the number of bits needed to write the argument. *)
Definition bits_Len (n : nat) : nat :=
  match N.of_nat n with
  | N0 => 0
  | Npos p => Pos.to_nat (Pos.size p)
  end.

Definition nextPowerOfTwo (length : nat) : N :=
  N.shiftl 1 (N.of_nat (bits_Len length)) mod 2 ^ 64.

(** [breakPatterns_func]: three swaps around the middle with pseudo-random
    partners. *)
Fixpoint breakPatterns_loop (n : nat) (data : list A) (random modulus : N)
    (a length idx i : nat) : list A :=
  match n with
  | O => data
  | S n' =>
      let random := xorshift_Next random in
      let other := N.to_nat (N.land random (modulus - 1)) in
      let other := if length <=? other then other - length else other in
      breakPatterns_loop n' (Swap data (idx - 1 + i) (a + other))
        random modulus a length idx (S i)
  end.

Definition breakPatterns_func (data : list A) (a b : nat) : list A :=
  let length := b - a in
  if 8 <=? length then
    let random := N.of_nat length in
    let modulus := nextPowerOfTwo length in
    let idx := a + (length / 4) * 2 - 1 in
    breakPatterns_loop 3 data random modulus a length idx 0
  else data.

Inductive sortedHint := unknownHint | increasingHint | decreasingHint.

(** [order2_func], [median_func], [medianAdjacent_func]: they order
    indices, not elements, and count the exchanges in [swaps]. *)
Definition order2_func (data : list A) (a b swaps : nat) : nat * nat * nat :=
  if Less data b a then (b, a, S swaps) else (a, b, swaps).

Definition median_func (data : list A) (a b c swaps : nat) : nat * nat :=
  let '(a, b, swaps) := order2_func data a b swaps in
  let '(b, c, swaps) := order2_func data b c swaps in
  let '(a, b, swaps) := order2_func data a b swaps in
  (b, swaps).

Definition medianAdjacent_func (data : list A) (a swaps : nat) : nat * nat :=
  median_func data (a - 1) a (a + 1) swaps.

Definition choosePivot_func (data : list A) (a b : nat) : nat * sortedHint :=
  let shortestNinther := 50 in
  let maxSwaps := 4 * 3 in
  let l := b - a in
  let swaps := 0 in
  let i := a + l / 4 * 1 in
  let j := a + l / 4 * 2 in
  let k := a + l / 4 * 3 in
  let '(j, swaps) :=
    if 8 <=? l then
      let '(i, j, k, swaps) :=
        if shortestNinther <=? l then
          let '(i, swaps) := medianAdjacent_func data i swaps in
          let '(j, swaps) := medianAdjacent_func data j swaps in
          let '(k, swaps) := medianAdjacent_func data k swaps in
          (i, j, k, swaps)
        else (i, j, k, swaps) in
      median_func data i j k swaps
    else (j, swaps) in
  if swaps =? 0 then (j, increasingHint)
  else if swaps =? maxSwaps then (j, decreasingHint)
  else (j, unknownHint).

(** [reverseRange_func]: [i := a; j := b-1; for i < j { Swap(i, j); i++; j-- }] *)
Fixpoint reverse_loop (n : nat) (data : list A) (i j : nat) : list A :=
  match n with
  | O => data
  | S n' => if i <? j then reverse_loop n' (Swap data i j) (S i) (j - 1) else data
  end.

Definition reverseRange_func (data : list A) (a b : nat) : list A :=
  reverse_loop (b - a) data a (b - 1).

(** The two scans that [partition_func] repeats:
    [for i <= j && Less(i, a) { i++ }] and [for i <= j && !Less(j, a) { j-- }]. *)
Fixpoint scan_up (n : nat) (data : list A) (a i j : nat) : nat :=
  match n with
  | O => i
  | S n' => if (i <=? j) && Less data i a then scan_up n' data a (S i) j else i
  end.

(** [j] may step below [a + 1]: [j = a] is the least value the loop
    leaves, since then [i <= j] fails. *)
Fixpoint scan_down (n : nat) (data : list A) (a i j : nat) : nat :=
  match n with
  | O => j
  | S n' => if (i <=? j) && negb (Less data j a) then scan_down n' data a i (j - 1) else j
  end.

Fixpoint partition_loop (n : nat) (data : list A) (a i j : nat) : list A * nat :=
  match n with
  | O => (data, j)
  | S n' =>
      let i := scan_up (S j - i) data a i j in
      let j := scan_down (S j - i) data a i j in
      if j <? i then (data, j)
      else partition_loop n' (Swap data i j) a (S i) (j - 1)
  end.

(** [partition_func]: returns the slice, the new index of the pivot and
    whether the range was already partitioned. *)
Definition partition_func (data : list A) (a b pivot : nat) : list A * nat * bool :=
  let data := Swap data a pivot in
  let i := a + 1 in
  let j := b - 1 in
  let i := scan_up (S j - i) data a i j in
  let j := scan_down (S j - i) data a i j in
  if j <? i then (Swap data j a, j, true)
  else
    let data := Swap data i j in
    let '(data, j) := partition_loop (b - a) data a (S i) (j - 1) in
    (Swap data j a, j, false).

(** [partitionEqual_func] and its scans
    [for i <= j && !Less(a, i) { i++ }], [for i <= j && Less(a, j) { j-- }]. *)
Fixpoint scan_up_eq (n : nat) (data : list A) (a i j : nat) : nat :=
  match n with
  | O => i
  | S n' => if (i <=? j) && negb (Less data a i) then scan_up_eq n' data a (S i) j else i
  end.

Fixpoint scan_down_eq (n : nat) (data : list A) (a i j : nat) : nat :=
  match n with
  | O => j
  | S n' => if (i <=? j) && Less data a j then scan_down_eq n' data a i (j - 1) else j
  end.

Fixpoint partitionEqual_loop (n : nat) (data : list A) (a i j : nat) : list A * nat :=
  match n with
  | O => (data, i)
  | S n' =>
      let i := scan_up_eq (S j - i) data a i j in
      let j := scan_down_eq (S j - i) data a i j in
      if j <? i then (data, i)
      else partitionEqual_loop n' (Swap data i j) a (S i) (j - 1)
  end.

Definition partitionEqual_func (data : list A) (a b pivot : nat) : list A * nat :=
  let data := Swap data a pivot in
  partitionEqual_loop (S (b - a)) data a (a + 1) (b - 1).

(** [partialInsertionSort_func]. *)
Fixpoint sorted_prefix_scan (n : nat) (data : list A) (i b : nat) : nat :=
  match n with
  | O => i
  | S n' =>
      if (i <? b) && negb (Less data i (i - 1))
      then sorted_prefix_scan n' data (S i) b else i
  end.

(** [for j := i - 1; j >= 1; j-- { if !Less(j, j-1) { break }; Swap(j, j-1) }] *)
Fixpoint shift_left (data : list A) (j : nat) : list A :=
  match j with
  | O => data
  | S j' => if negb (Less data j j') then data else shift_left (Swap data j j') j'
  end.

(** [for j := i + 1; j < b; j++ { if !Less(j, j-1) { break }; Swap(j, j-1) }] *)
Fixpoint shift_right (n : nat) (data : list A) (j : nat) : list A :=
  match n with
  | O => data
  | S n' =>
      if negb (Less data j (j - 1)) then data
      else shift_right n' (Swap data j (j - 1)) (S j)
  end.

Fixpoint partialInsertionSort_loop (steps : nat) (data : list A) (a b i : nat)
    : list A * bool :=
  match steps with
  | O => (data, false)
  | S steps' =>
      let i := sorted_prefix_scan (b - i) data i b in
      if i =? b then (data, true)
      else if b - a <? 50 then (data, false)
      else
        let data := Swap data i (i - 1) in
        let data := if 2 <=? i - a then shift_left data (i - 1) else data in
        let data := if 2 <=? b - i then shift_right (b - (i + 1)) data (i + 1) else data in
        partialInsertionSort_loop steps' data a b i
  end.

Definition partialInsertionSort_func (data : list A) (a b : nat) : list A * bool :=
  partialInsertionSort_loop 5 data a b (a + 1).

(** [pdqsort_func].  One unit of fuel is spent by every round of the
    [for] loop and by every nested call; both work on a strictly shorter
    range, so [b - a + 1] units are enough.  [wasBalanced] and
    [wasPartitioned] are the locals of the loop: a nested call starts with
    both [true], the next round of the loop carries the updated values. *)
Fixpoint pdqsort_func (fuel : nat) (data : list A) (a b limit : nat)
    (wasBalanced wasPartitioned : bool) : list A :=
  match fuel with
  | O => data
  | S fuel' =>
      let length := b - a in
      if length <=? 12 then insertionSort_func data a b
      else if limit =? 0 then heapSort_func data a b
      else
        let '(data, limit) :=
          if negb wasBalanced then (breakPatterns_func data a b, limit - 1)
          else (data, limit) in
        let '(pivot, hint) := choosePivot_func data a b in
        let '(data, pivot, hint) :=
          match hint with
          | decreasingHint =>
              (reverseRange_func data a b, (b - 1) - (pivot - a), increasingHint)
          | _ => (data, pivot, hint)
          end in
        let '(data, sorted) :=
          match wasBalanced && wasPartitioned, hint with
          | true, increasingHint => partialInsertionSort_func data a b
          | _, _ => (data, false)
          end in
        if sorted then data
        else if (0 <? a) && negb (Less data (a - 1) pivot) then
          let '(data, mid) := partitionEqual_func data a b pivot in
          pdqsort_func fuel' data mid b limit wasBalanced wasPartitioned
        else
          let '(data, mid, alreadyPartitioned) := partition_func data a b pivot in
          let wasPartitioned := alreadyPartitioned in
          let leftLen := mid - a in
          let rightLen := b - mid in
          let balanceThreshold := length / 8 in
          if leftLen <? rightLen then
            let wasBalanced := balanceThreshold <=? leftLen in
            let data := pdqsort_func fuel' data a mid limit true true in
            pdqsort_func fuel' data (mid + 1) b limit wasBalanced wasPartitioned
          else
            let wasBalanced := balanceThreshold <=? rightLen in
            let data := pdqsort_func fuel' data (mid + 1) b limit true true in
            pdqsort_func fuel' data a mid limit wasBalanced wasPartitioned
  end.

(** [sort.Slice(x, less)]:
    [length := len(x); limit := bits.Len(uint(length)); pdqsort_func(..., 0, length, limit)]. *)
Definition Slice (x : list A) : list A :=
  let length := List.length x in
  pdqsort_func (S length) x 0 length (bits_Len length) true true.

(** *** What the sort is expected to establish *)

(** [within a b d d']: [d'] is a rearrangement of [d] that leaves every
    index outside [a, b) alone. *)
Definition within (a b : nat) (d d' : list A) : Prop :=
  d' ≡ₚ d /\ forall k, k < a \/ b <= k -> d' !! k = d !! k.

(** [sorted_range d a b]: no element of [d[a:b]] is less than one before it. *)
Definition sorted_range (d : list A) (a b : nat) : Prop :=
  forall i j x y, a <= i -> i < j -> j < b ->
    d !! i = Some x -> d !! j = Some y -> less y x = false.

(** The same for neighbours only. *)
Definition sorted_adj (d : list A) (a b : nat) : Prop :=
  forall i x y, a <= i -> S i < b ->
    d !! i = Some x -> d !! S i = Some y -> less y x = false.

(** The comparison is a strict weak order. *)
Record StrictWeakOrder : Prop := {
  less_irrefl : forall x, less x x = false;
  less_trans : forall x y z, less x y = true -> less y z = true -> less x z = true;
  less_negtrans : forall x y z, less x y = false -> less y z = false -> less x z = false
}.

(** *** Loop invariants *)

(** The inner loop of the insertion sort carries the element at [j]
    downwards: the range [a .. m] is ordered as long as [j] is left out,
    and nothing above [j] is less than the element at [j]. *)
Definition sorted_except (d : list A) (a m j : nat) : Prop :=
  forall i1 i2 x y, a <= i1 -> i1 < i2 -> i2 <= m -> i1 <> j -> i2 <> j ->
    d !! i1 = Some x -> d !! i2 = Some y -> less y x = false.

Definition above (d : list A) (j m : nat) : Prop :=
  forall i y e, j < i -> i <= m -> d !! i = Some y -> d !! j = Some e ->
    less y e = false.

(** The partition loops: below [i] everything belongs to the left part
    ([lo] holds), above [j] everything to the right part. *)
Definition part_inv (lo : A -> bool) (d : list A) (a b i j : nat) : Prop :=
  a < i /\ i <= S j /\ j < b /\
  (forall k x, a < k -> k < i -> d !! k = Some x -> lo x = true) /\
  (forall k x, j < k -> k < b -> d !! k = Some x -> lo x = false).

(** In a nested range of [pdqsort_func] the element just before the
    range is not greater than any element of the range. *)
Definition lower_bound (d : list A) (a b : nat) : Prop :=
  forall k x y, 0 < a -> a <= k -> k < b ->
    d !! k = Some x -> d !! (a - 1) = Some y -> less x y = false.

(** The heap of [heapSort_func] lives in [data[first : first+hi]];
    the children of the node [r] are the nodes [2r+1] and [2r+2]. *)
Definition child_of (r c : nat) : Prop := c = 2 * r + 1 \/ c = 2 * r + 2.

(** The element at [i] is not less than the element at [j]. *)
Definition not_below (d : list A) (i j : nat) : Prop :=
  forall x y, d !! i = Some x -> d !! j = Some y -> less x y = false.

Definition heap (d : list A) (first lo hi : nat) : Prop :=
  forall r c, lo <= r -> c < hi -> child_of r c ->
    not_below d (first + r) (first + c).

(** The heap property with the node [root] still to be sifted down: it
    holds at every other node, and the parent of [root] dominates the
    children of [root]. *)
Definition heap_except (d : list A) (first lo hi root : nat) : Prop :=
  (forall r c, lo <= r -> c < hi -> child_of r c -> r <> root ->
     not_below d (first + r) (first + c)) /\
  (forall g c, lo <= g -> c < hi -> child_of g root -> child_of root c ->
     not_below d (first + g) (first + c)).

(** While the heap is emptied, everything already popped is ordered and
    not less than anything left in the heap. *)
Definition popped_above (d : list A) (first i hi : nat) : Prop :=
  forall k m x y, k < i -> i <= m -> m < hi ->
    d !! (first + k) = Some x -> d !! (first + m) = Some y -> less y x = false.

(** *** Ties *)

(** [less] with its ties broken by the place [idx] an element had in the
    input: what a stable sort orders by. *)
Definition stable_less (idx : A -> nat) (x y : A) : bool :=
  less x y || (negb (less y x) && (idx x <? idx y)).

(** The elements of [d] stand in the order of their [idx]. *)
Definition increasing (idx : A -> nat) (d : list A) : Prop :=
  forall i j x y, i < j -> d !! i = Some x -> d !! j = Some y -> idx x < idx y.

End Pdqsort.
End Sort.

(** ** JSON values ([encoding/json]) *)

Inductive json : Type :=
  | JNull
  | JBool (b : bool)
  | JNumber (literal : string)
  | JString (s : string)
  | JArray (elems : list json)
  | JObject (members : list (string * json)).

(** ** The structs of [parse.go]

    A slice is a list; the nil slice and the empty slice are both [[]]
    (the code only takes [len] of them and ranges over them). *)

Module OwnerData.
Record t := mk { DisplayName : string; Link : string }.
Definition zero : t := mk "" "".
End OwnerData.
Abbreviation OwnerData := OwnerData.t.

Module AnswerData.
Record t := mk {
  Owner : OwnerData;
  IsAccepted : bool;
  LastActivityDate : Z;
  AnswerID : Z;
  Score : Z;
  BodyMarkdown : string;
  Link : string;
  Title : string
}.
Definition zero : t := mk OwnerData.zero false 0 0 0 "" "" "".
End AnswerData.
Abbreviation AnswerData := AnswerData.t.

Module QuestionData.
Record t := mk {
  Tags : list string;
  Owner : OwnerData;
  IsAnswered : bool;
  ViewCount : Z;
  AnswerCount : Z;
  Score : Z;
  AcceptedAnswerID : Z;
  CreationDate : Z;
  LastActivityDate : Z;
  QuestionID : Z;
  BodyMarkdown : string;
  Link : string;
  Title : string;
  Answers : list AnswerData
}.
Definition zero : t := mk [] OwnerData.zero false 0 0 0 0 0 0 0 "" "" "" [].
End QuestionData.
Abbreviation QuestionData := QuestionData.t.

Module SOItem.
Record t := mk {
  Site : string;
  Type_ : string;
  ID : string;
  Data : QuestionData
}.
Definition zero : t := mk "" "" "" QuestionData.zero.
End SOItem.
Abbreviation SOItem := SOItem.t.

Module SOResponse.
Record t := mk {
  Items : list SOItem;
  Errors : list json
}.
Definition zero : t := mk [] [].
End SOResponse.
Abbreviation SOResponse := SOResponse.t.

(** A [*QuestionData] that points into [resp.Items]: the index of the
    item whose [Data] it addresses, with the value found there.  Two
    pointers are the same pointer when the indices agree. *)
Definition QuestionPtr : Type := nat * QuestionData.

Definition ptr_index (p : QuestionPtr) : nat := fst p.
Definition deref (p : QuestionPtr) : QuestionData := snd p.

Definition string_eqb (s1 s2 : string) : bool := bool_decide (s1 = s2).

(** ** [BestQuestion] *)

Section BestQuestion.

(** [strings.ToLower]. *)
Variable ToLower : string -> string.

(** [for i := range resp.Items { item := &resp.Items[i]; if item.Type != "" &&
    item.Type != "Question" { continue }; questions = append(questions, &item.Data) }] *)
Definition is_question (item : SOItem) : bool :=
  negb (negb (string_eqb (SOItem.Type_ item) "") &&
        negb (string_eqb (SOItem.Type_ item) "Question")).

Fixpoint collect_questions (i : nat) (items : list SOItem) : list QuestionPtr :=
  match items with
  | [] => []
  | item :: rest =>
      if is_question item
      then (i, SOItem.Data item) :: collect_questions (S i) rest
      else collect_questions (S i) rest
  end.

(** [hintSet[strings.ToLower(h)] = true] for every hint. *)
Definition make_hintSet (tagHints : list string) : gmap string bool :=
  foldl (fun m h => <[ToLower h := true]> m) ∅ tagHints.

(** [hintSet[k]]: a missing key reads as [false]. *)
Definition hintSet_get (hintSet : gmap string bool) (k : string) : bool :=
  default false (hintSet !! k).

(** The inner loop over [q.Tags] with its [break]: does some tag hit? *)
Definition tags_match (hintSet : gmap string bool) (tags : list string) : bool :=
  existsb (fun t => hintSet_get hintSet (ToLower t)) tags.

Definition matching_questions (hintSet : gmap string bool)
    (questions : list QuestionPtr) : list QuestionPtr :=
  List.filter (fun q => tags_match hintSet (QuestionData.Tags (deref q))) questions.

(** The comparison closure of the sort: score descending, then view count
    descending. *)
Definition question_less (qi qj : QuestionPtr) : bool :=
  if negb (QuestionData.Score (deref qi) =? QuestionData.Score (deref qj))
  then QuestionData.Score (deref qi) >? QuestionData.Score (deref qj)
  else QuestionData.ViewCount (deref qi) >? QuestionData.ViewCount (deref qj).

Definition BestQuestion (resp : option SOResponse) (tagHints : list string)
    : option QuestionPtr :=
  match resp with
  | None => None
  | Some resp =>
      if (List.length (SOResponse.Items resp) =? 0)%nat then None
      else
        let questions := collect_questions 0 (SOResponse.Items resp) in
        if (List.length questions =? 0)%nat then None
        else
          let questions :=
            if (0 <? List.length tagHints)%nat then
              let hintSet := make_hintSet tagHints in
              let matching := matching_questions hintSet questions in
              if (0 <? List.length matching)%nat then matching else questions
            else questions in
          let questions := Sort.Slice question_less questions in
          questions !! 0%nat
  end.

End BestQuestion.

(** The ASCII path of [strings.ToLower] (the one the library takes when
    every byte is below [utf8.RuneSelf]): ['A'..'Z'] are shifted to
    ['a'..'z'], every other byte is kept. *)
Definition lower_byte (c : ascii) : ascii :=
  let n := nat_of_ascii c in
  if ((65 <=? n) && (n <=? 90))%nat then ascii_of_nat (n + 32) else c.

Fixpoint ToLower_ascii (s : string) : string :=
  match s with
  | EmptyString => EmptyString
  | String c s' => String (lower_byte c) (ToLower_ascii s')
  end.

(** ** Vocabulary of the specification for [BestQuestion] *)

(** An item is question-typed when its type is unset or the question marker. *)
Definition question_typed (item : SOItem) : Prop :=
  SOItem.Type_ item = "" \/ SOItem.Type_ item = "Question".

(** [q'] does not rank above [q]: lower score, or the same score and no
    more views. *)
Definition ranks_no_higher (q' q : QuestionData) : Prop :=
  QuestionData.Score q' < QuestionData.Score q \/
  (QuestionData.Score q' = QuestionData.Score q /\
   QuestionData.ViewCount q' <= QuestionData.ViewCount q).

(** Same score and same view count. *)
Definition same_rank (q' q : QuestionData) : Prop :=
  QuestionData.Score q' = QuestionData.Score q /\
  QuestionData.ViewCount q' = QuestionData.ViewCount q.

(** Some tag of the item is, up to case, one of the hints. *)
Definition tags_intersect (ToLower : string -> string)
    (tagHints : list string) (item : SOItem) : Prop :=
  exists t h, t ∈ QuestionData.Tags (SOItem.Data item) /\ h ∈ tagHints /\
              ToLower t = ToLower h.

(** The candidates among which [BestQuestion] chooses: the question-typed
    items, narrowed to those whose tags meet the hints when there is a
    hint and at least one such item. *)
Definition candidate (ToLower : string -> string) (resp : SOResponse)
    (tagHints : list string) (item : SOItem) : Prop :=
  item ∈ SOResponse.Items resp /\ question_typed item /\
  ((exists item', item' ∈ SOResponse.Items resp /\ question_typed item' /\
                  tags_intersect ToLower tagHints item') ->
   tags_intersect ToLower tagHints item).

(** The stable selection the specification describes: no candidate of the
    same rank as the result stands before it in the envelope. *)
Definition stable_selection (ToLower : string -> string) (resp : SOResponse)
    (tagHints : list string) : Prop :=
  forall p, BestQuestion ToLower (Some resp) tagHints = Some p ->
    forall j item, (j < ptr_index p)%nat ->
      SOResponse.Items resp !! j = Some item ->
      candidate ToLower resp tagHints item ->
      ~ same_rank (SOItem.Data item) (deref p).

(** The slice [questions] as it stands when [sort.Slice] is called. *)
Definition chosen_questions (ToLower : string -> string) (resp : SOResponse)
    (tagHints : list string) : list QuestionPtr :=
  let questions := collect_questions 0 (SOResponse.Items resp) in
  if (0 <? List.length tagHints)%nat then
    let matching := matching_questions ToLower (make_hintSet ToLower tagHints) questions in
    if (0 <? List.length matching)%nat then matching else questions
  else questions.

(** ** Sample envelopes *)

(** A question item with the given id and score; every other field has
    its zero value. *)
Definition sample_question (id score : Z) : SOItem :=
  SOItem.mk "Stack Overflow" "Question" ""
    (QuestionData.mk [] OwnerData.zero false 0 0 score 0 0 0 id "" "" "" []).

(** Thirteen questions; those at the indices 0, 3 and 6 share the best
    score (and the view count). *)
Definition thirteen_questions : SOResponse :=
  SOResponse.mk
    [ sample_question 100 1; sample_question 101 0; sample_question 102 0;
      sample_question 103 1; sample_question 104 0; sample_question 105 0;
      sample_question 106 1; sample_question 107 0; sample_question 108 0;
      sample_question 109 0; sample_question 110 0; sample_question 111 0;
      sample_question 112 0 ]
    [].

(** ** [FormatQuestionMarkdown] *)

(** The line feed of the [\n] escapes. *)
Definition nl : string := String (ascii_of_nat 10) EmptyString.

(** The memory: the address of a backing array mapped to its elements. *)
Abbreviation Store := (gmap nat (list AnswerData)).

Section Format.

(** [decodeHTML], that is [html.UnescapeString]. *)
Variable decodeHTML : string -> string.

(** [time.Unix(sec, 0).Format("Jan 2, 2006")]. *)
Variable formatDate : Z -> string.

(** The comparison closure of the sort of the answers: accepted first,
    then score descending. *)
Definition answer_less (ai aj : AnswerData) : bool :=
  if negb (Bool.eqb (AnswerData.IsAccepted ai) (AnswerData.IsAccepted aj))
  then AnswerData.IsAccepted ai
  else AnswerData.Score ai >? AnswerData.Score aj.

(** [shown := maxAnswers; if shown <= 0 || shown > len(answers) { shown = len(answers) }] *)
Definition shown_count (maxAnswers : Z) (n : nat) : Z :=
  if (maxAnswers <=? 0) || (maxAnswers >? Z.of_nat n) then Z.of_nat n else maxAnswers.

(** One round of the loop over the answers shown. *)
Definition answer_block (i : Z) (shown : Z) (a : AnswerData) : string :=
  let label := "### Answer " +:+ Sprintf_d (i + 1) in
  let label := if AnswerData.IsAccepted a then label +:+ "  ✅ Accepted" else label in
  let label :=
    if AnswerData.Score a >? 0
    then label +:+ "  (Score: " +:+ Sprintf_d (AnswerData.Score a) +:+ ")"
    else label in
  (label +:+ nl +:+ nl) +:+
  (if negb (string_eqb (OwnerData.DisplayName (AnswerData.Owner a)) "")
   then "By **" +:+ decodeHTML (OwnerData.DisplayName (AnswerData.Owner a)) +:+ "**"
        +:+ nl +:+ nl
   else "") +:+
  (decodeHTML (AnswerData.BodyMarkdown a) +:+ nl +:+ nl) +:+
  (if i <? shown - 1 then "---" +:+ nl +:+ nl else "").

(** [for i := 0; i < shown; i++ { a := answers[i]; ... }]: [n] rounds are
    left to run, the next one is round [i]. *)
Fixpoint answers_loop (n : nat) (i : nat) (shown : Z) (answers : list AnswerData)
    : string :=
  match n with
  | O => ""
  | S n' =>
      match answers !! i with
      | Some a =>
          answer_block (Z.of_nat i) shown a +:+ answers_loop n' (S i) shown answers
      | None => ""
      end
  end.

(** The answers section, for the sorted copy [answers] of [q.Answers]. *)
Definition answers_section (answers : list AnswerData) (maxAnswers : Z) : string :=
  let shown := shown_count maxAnswers (length answers) in
  ("---" +:+ nl +:+ nl) +:+
  ("## Top " +:+ Sprintf_d shown +:+ " Answer(s)" +:+ nl +:+ nl) +:+
  answers_loop (Z.to_nat shown) 0 shown answers +:+
  (if Z.of_nat (length answers) >? shown
   then nl +:+ "*(" +:+ Sprintf_d (Z.of_nat (length answers) - shown)
        +:+ " more answers on Stack Overflow)*" +:+ nl
   else "").

(** The call-to-action written when no answer is embedded. *)
Definition answers_elsewhere (q : QuestionData) : string :=
  let answerWord := if QuestionData.AnswerCount q =? 1 then "answer" else "answers" in
  ("---" +:+ nl +:+ nl) +:+
  ("📝 **" +:+ Sprintf_d (QuestionData.AnswerCount q) +:+ " " +:+ answerWord
   +:+ "** available on Stack Overflow:" +:+ nl) +:+
  (QuestionData.Link q +:+ nl).

(** Everything written before the answers; [views] is what
    [formatNumber(q.ViewCount)] returned. *)
Definition question_section (q : QuestionData) (views : string) : string :=
  let title := decodeHTML (QuestionData.Title q) in
  let meta :=
    "Score: **" +:+ Sprintf_d (QuestionData.Score q) +:+ "**  |  Views: **"
    +:+ views +:+ "**  |  Answers: **" +:+ Sprintf_d (QuestionData.AnswerCount q)
    +:+ "**" in
  let meta := if QuestionData.IsAnswered q then meta +:+ "  |  ✅ Answered" else meta in
  ("# " +:+ title +:+ nl +:+ nl) +:+
  (meta +:+ nl +:+ nl) +:+
  (if (0 <? length (QuestionData.Tags q))%nat
   then Join (map (fun t => "`" +:+ t +:+ "`") (QuestionData.Tags q)) "  "
        +:+ nl +:+ nl
   else "") +:+
  (if negb (string_eqb (OwnerData.DisplayName (QuestionData.Owner q)) "")
   then
     let dateStr :=
       if QuestionData.CreationDate q >? 0
       then formatDate (QuestionData.CreationDate q) else "" in
     ("Asked by **" +:+ decodeHTML (OwnerData.DisplayName (QuestionData.Owner q))
      +:+ "**") +:+
     (if negb (string_eqb dateStr "") then " on " +:+ dateStr else "") +:+
     (nl +:+ nl)
   else "") +:+
  ("---" +:+ nl +:+ nl) +:+
  (decodeHTML (QuestionData.BodyMarkdown q) +:+ nl +:+ nl) +:+
  (if negb (string_eqb (QuestionData.Link q) "")
   then "🔗 " +:+ QuestionData.Link q +:+ nl +:+ nl
   else "").

(** *** The memory the function works on

    [q.Answers] is a slice: a view of a backing array that the caller
    shares.  The store maps the address of a backing array to its
    elements; a payload in memory is its fields together with the address
    its [Answers] slice points to. *)

Record QuestionRef := mkQuestionRef {
  fields : QuestionData;
  answers_at : nat
}.

(** The elements of the slice at [addr]. *)
Definition load_slice (st : Store) (addr : nat) : list AnswerData :=
  default [] (st !! addr).

(** The payload as read through the pointer: the slice contents come from
    the store. *)
Definition load (st : Store) (r : QuestionRef) : QuestionData :=
  let f := fields r in
  QuestionData.mk (QuestionData.Tags f) (QuestionData.Owner f)
    (QuestionData.IsAnswered f) (QuestionData.ViewCount f)
    (QuestionData.AnswerCount f) (QuestionData.Score f)
    (QuestionData.AcceptedAnswerID f) (QuestionData.CreationDate f)
    (QuestionData.LastActivityDate f) (QuestionData.QuestionID f)
    (QuestionData.BodyMarkdown f) (QuestionData.Link f) (QuestionData.Title f)
    (load_slice st (answers_at r)).

(** A small state monad over the store. *)
Definition Mem (T : Type) : Type := Store -> T * Store.

Definition ret {T} (x : T) : Mem T := fun st => (x, st).
Definition bind {T U} (m : Mem T) (k : T -> Mem U) : Mem U :=
  fun st => let '(x, st') := m st in k x st'.

(** [make([]AnswerData, n)]: a fresh backing array of [n] zero values. *)
Definition make (n : nat) : Mem nat :=
  fun st =>
    let addr := fresh (dom st) in
    (addr, <[addr := replicate n AnswerData.zero]> st).

(** [copy(dst, src)]: the first [min(len(dst), len(src))] elements. *)
Definition copy (dst src : nat) : Mem unit :=
  fun st =>
    let d := load_slice st dst in
    let s := load_slice st src in
    let n := Nat.min (length d) (length s) in
    (tt, <[dst := take n s ++ drop n d]> st).

(** [sort.Slice(x, less)] sorts the backing array of [x] in place. *)
Definition sort_Slice (addr : nat) (less : AnswerData -> AnswerData -> bool)
    : Mem unit :=
  fun st => (tt, <[addr := Sort.Slice less (load_slice st addr)]> st).

Definition read_slice (addr : nat) : Mem (list AnswerData) :=
  fun st => (load_slice st addr, st).

(** The block that ranks the answers:
    [answers := make([]AnswerData, len(q.Answers)); copy(answers, q.Answers);
    sort.Slice(answers, ...)]; the loop then reads [answers]. *)
Definition sorted_copy (src : nat) : Mem (list AnswerData) :=
  bind (read_slice src) (fun q_answers =>
  bind (make (length q_answers)) (fun answers =>
  bind (copy answers src) (fun _ =>
  bind (sort_Slice answers answer_less) (fun _ =>
  read_slice answers)))).

(** [FormatQuestionMarkdown(q, maxAnswers)] on the memory.  The result is
    [None] when the call of [formatNumber] does not return within the fuel. *)
Definition FormatQuestionMarkdown_mem (fuel : nat) (q : option QuestionRef)
    (maxAnswers : Z) : Mem (option string) :=
  match q with
  | None => ret (Some "")
  | Some r =>
      fun st =>
        let qd := load st r in
        match formatNumber fuel (QuestionData.ViewCount qd) with
        | None => (None, st)
        | Some views =>
            let b := question_section qd views in
            if (0 <? length (QuestionData.Answers qd))%nat then
              bind (sorted_copy (answers_at r)) (fun sorted =>
              ret (Some (b +:+ answers_section sorted maxAnswers))) st
            else if (QuestionData.AnswerCount qd >? 0)
                    && negb (string_eqb (QuestionData.Link qd) "") then
              (Some (b +:+ answers_elsewhere qd), st)
            else (Some b, st)
        end
  end.

(** [FormatQuestionMarkdown] as a function of the payload alone: the text
    it returns. *)
Definition FormatQuestionMarkdown (fuel : nat) (q : option QuestionData)
    (maxAnswers : Z) : option string :=
  match q with
  | None => Some ""
  | Some q =>
      match formatNumber fuel (QuestionData.ViewCount q) with
      | None => None
      | Some views =>
          let b := question_section q views in
          if (0 <? length (QuestionData.Answers q))%nat then
            let answers := Sort.Slice answer_less (QuestionData.Answers q) in
            Some (b +:+ answers_section answers maxAnswers)
          else if (QuestionData.AnswerCount q >? 0)
                  && negb (string_eqb (QuestionData.Link q) "") then
            Some (b +:+ answers_elsewhere q)
          else Some b
      end
  end.

End Format.

(** The rounds of the loop, written over the answers shown: the blocks of
    the given answers in their order, numbered from [i]. *)
Fixpoint answer_blocks (decodeHTML : string -> string) (i : nat) (shown : Z)
    (answers : list AnswerData) : string :=
  match answers with
  | [] => ""
  | a :: rest =>
      answer_block decodeHTML (Z.of_nat i) shown a
      +:+ answer_blocks decodeHTML (S i) shown rest
  end.

(** The note that closes the answers section when answers are left out. *)
Definition omitted_note (omitted : Z) : string :=
  nl +:+ "*(" +:+ Sprintf_d omitted +:+ " more answers on Stack Overflow)*" +:+ nl.

(** The heading of the answers section. *)
Definition answers_heading (shown : Z) : string :=
  ("---" +:+ nl +:+ nl) +:+
  ("## Top " +:+ Sprintf_d shown +:+ " Answer(s)" +:+ nl +:+ nl).

(** The order the specification asks of the answers shown. *)
Definition accepted_first_then_score (answers : list AnswerData) : Prop :=
  forall i j a a', (i < j)%nat -> answers !! i = Some a -> answers !! j = Some a' ->
    (AnswerData.IsAccepted a' = true -> AnswerData.IsAccepted a = true) /\
    (AnswerData.IsAccepted a = AnswerData.IsAccepted a' ->
     AnswerData.Score a' <= AnswerData.Score a).

(** An answer with the given acceptance and score, every other field zero. *)
Definition sample_answer (id : Z) (accepted : bool) (score : Z) : AnswerData :=
  AnswerData.mk OwnerData.zero accepted 0 id score "" "" "".

Definition sample_with_answers (answers : list AnswerData) : QuestionData :=
  QuestionData.mk [] OwnerData.zero true 0 (Z.of_nat (length answers)) 0 0 0 0 1
    "" "" "" answers.

(** ** Vocabulary of the specification for [formatNumber] *)

Definition str_concat (parts : list string) : string :=
  foldr String.append "" parts.

(** [first :: chunks] cuts [digits] in groups of three counted from the
    least-significant end: the groups put together give [digits], every
    group but the first has three digits and the first has one to three. *)
Definition groups_of_three (digits : string) (first : string) (chunks : list string)
    : Prop :=
  first +:+ str_concat chunks = digits /\
  (forall c, c ∈ chunks -> len c = 3%nat) /\
  (1 <= len first <= 3)%nat.

(** ** [regexp]: the patterns of [ExtractQuestionID]

    The patterns only need literals, byte classes, sequence, choice, the
    greedy [?] and the greedy repetition [{min,}] of a class (which gives
    [*] and [+]), and one capturing group.  The matcher backtracks in the
    order of preference of the library (leftmost match; within it the
    first choice and the longest repetition first).  It works on bytes:
    every pattern here is made of ASCII bytes and of whole UTF-8
    sequences, so that byte positions and rune positions of a match agree. *)

Module Regexp.

Inductive regex : Type :=
  | RLit (bytes : list ascii)
  | RClass (p : ascii -> bool)
  | RSeq (r1 r2 : regex)
  | RAlt (r1 r2 : regex)
  | ROpt (r : regex)
  | RRepeat (min : nat) (p : ascii -> bool)
  | RGroup (r : regex).

(** [bytes] is a prefix of [s]: what is left of [s] after it. *)
Fixpoint strip_prefix (bytes s : list ascii) : option (list ascii) :=
  match bytes, s with
  | [], _ => Some s
  | b :: bytes', c :: s' => if bool_decide (b = c) then strip_prefix bytes' s' else None
  | _ :: _, [] => None
  end.

(** Greedy repetition of a class: [count] bytes are taken so far; one more
    is tried first, then stopping here when [min] are taken. *)
Fixpoint rep_greedy {T} (p : ascii -> bool) (min count : nat) (s : list ascii)
    (k : list ascii -> option T) : option T :=
  let stop := if (min <=? count)%nat then k s else None in
  match s with
  | c :: s' =>
      if p c then
        match rep_greedy p min (S count) s' k with
        | Some r => Some r
        | None => stop
        end
      else stop
  | [] => stop
  end.

(** [rmatch r s cap k]: match [r] at the head of [s] and hand the rest of
    the input and the capture to [k]; [None] sends the matcher back to the
    choice made last. *)
Fixpoint rmatch {T} (r : regex) (s : list ascii) (cap : option (list ascii))
    (k : list ascii -> option (list ascii) -> option T) : option T :=
  match r with
  | RLit bytes =>
      match strip_prefix bytes s with
      | Some rest => k rest cap
      | None => None
      end
  | RClass p =>
      match s with
      | c :: rest => if p c then k rest cap else None
      | [] => None
      end
  | RSeq r1 r2 => rmatch r1 s cap (fun rest cap' => rmatch r2 rest cap' k)
  | RAlt r1 r2 =>
      match rmatch r1 s cap k with
      | Some res => Some res
      | None => rmatch r2 s cap k
      end
  | ROpt r1 =>
      match rmatch r1 s cap k with
      | Some res => Some res
      | None => k s cap
      end
  | RRepeat min p => rep_greedy p min 0 s (fun rest => k rest cap)
  | RGroup r1 =>
      rmatch r1 s cap
        (fun rest _ => k rest (Some (take (length s - length rest) s)))
  end.

(** The leftmost match: the whole match and the capture. *)
Fixpoint find_from (re : regex) (s : list ascii)
    : option (list ascii * option (list ascii)) :=
  match rmatch re s None
          (fun rest cap => Some (take (length s - length rest) s, cap)) with
  | Some m => Some m
  | None =>
      match s with
      | [] => None
      | _ :: s' => find_from re s'
      end
  end.

(** [re.FindStringSubmatch(text)]: nil when there is no match, else the
    whole match and the text of the group (empty when the group took no
    part in the match). *)
Definition FindStringSubmatch (re : regex) (text : string) : list string :=
  match find_from re (list_ascii_of_string text) with
  | Some (whole, cap) =>
      [string_of_list_ascii whole; string_of_list_ascii (default [] cap)]
  | None => []
  end.

(** Classes. *)
Definition is_digit (c : ascii) : bool :=
  let n := nat_of_ascii c in ((48 <=? n) && (n <=? 57))%nat.

(** [\s] is [[\t\n\f\r ]]. *)
Definition is_space (c : ascii) : bool :=
  let n := nat_of_ascii c in
  ((n =? 9) || (n =? 10) || (n =? 12) || (n =? 13) || (n =? 32))%nat.

Definition is_colon_or_space (c : ascii) : bool :=
  (nat_of_ascii c =? 58)%nat || is_space c.

(** A lower-case letter under [(?i)]: the letter, its capital, and the
    other members of its case-folding orbit ([U+017F] for [s], [U+212A]
    for [k]) as UTF-8. *)
Definition fold_letter (c : ascii) : regex :=
  let either := RClass (fun b => bool_decide (lower_byte b = c)) in
  if bool_decide (c = "s"%char)
  then RAlt either (RLit [ascii_of_nat 197; ascii_of_nat 191])
  else if bool_decide (c = "k"%char)
  then RAlt either (RLit [ascii_of_nat 226; ascii_of_nat 132; ascii_of_nat 170])
  else either.

(** [(?i)word] for a word of lower-case letters. *)
Fixpoint fold_word (w : list ascii) (rest : regex) : regex :=
  match w with
  | [] => rest
  | c :: w' => RSeq (fold_letter c) (fold_word w' rest)
  end.

Definition lit (s : string) : regex := RLit (list_ascii_of_string s).

End Regexp.

(** ** [ExtractQuestionID] *)

Import Regexp.

(** [SO_Q(\d+)] *)
Definition pattern_marker : regex :=
  RSeq (lit "SO_Q") (RGroup (RRepeat 1 is_digit)).

(** [/questions/(\d+)] *)
Definition pattern_questions_path : regex :=
  RSeq (lit "/questions/") (RGroup (RRepeat 1 is_digit)).

(** [stackoverflow\.com/q/(\d+)] *)
Definition pattern_short_url : regex :=
  RSeq (lit "stackoverflow.com/q/") (RGroup (RRepeat 1 is_digit)).

(** [(?i)question\s*(?:id)?[:\s]+(\d{5,})] *)
Definition pattern_labelled : regex :=
  fold_word (list_ascii_of_string "question")
    (RSeq (RRepeat 0 is_space)
       (RSeq (ROpt (fold_word (list_ascii_of_string "id") (RLit [])))
          (RSeq (RRepeat 1 is_colon_or_space)
             (RGroup (RRepeat 5 is_digit))))).

Definition patterns : list regex :=
  [pattern_marker; pattern_questions_path; pattern_short_url; pattern_labelled].

(** [for _, re := range patterns { if m := re.FindStringSubmatch(text);
    len(m) > 1 { return m[1] } }; return ""] *)
Fixpoint first_submatch (res : list regex) (text : string) : string :=
  match res with
  | [] => ""
  | re :: rest =>
      let m := FindStringSubmatch re text in
      if (1 <? length m)%nat then default "" (m !! 1%nat)
      else first_submatch rest text
  end.

Definition ExtractQuestionID (text : string) : string :=
  first_submatch patterns text.

(** ** Vocabulary of the specification for [ExtractQuestionID] *)

(** The pattern is a sequence that ends in the group [(\d{min,})]. *)
Inductive ends_with_digits (min : nat) : regex -> Prop :=
  | ends_group : ends_with_digits min (RGroup (RRepeat min is_digit))
  | ends_seq r1 r2 : ends_with_digits min r2 -> ends_with_digits min (RSeq r1 r2).

(** A non-empty run of decimal digits. *)
Definition digit_run (min : nat) (ds : string) : Prop :=
  (min <= len ds)%nat /\ Forall (fun c => is_digit c = true) (list_ascii_of_string ds).

(** The group of the first pattern of the list that matches; the empty
    string when none does. *)
Definition first_match_of (m1 m2 m3 m4 : list string) : string :=
  match m1, m2, m3, m4 with
  | [_; ds], _, _, _ => ds
  | _, [_; ds], _, _ => ds
  | _, _, [_; ds], _ => ds
  | _, _, _, [_; ds] => ds
  | _, _, _, _ => ""
  end.

(** ** [encoding/json]: the syntax of a JSON text

    [json.Unmarshal] first checks the whole text with the scanner of the
    library ([checkValid]) and decodes only a well-formed text.  The
    parser below accepts exactly the texts the scanner accepts and builds
    the value; object members are kept in their order, repeated keys
    included. *)

Module Json.

(** The outcome of a parsing step: a result with the rest of the input, a
    syntax error, or the fuel ran out. *)
Inductive presult (T : Type) : Type :=
  | POk (x : T) (rest : list ascii)
  | PErr
  | PFuel.
Arguments POk {T} x rest.
Arguments PErr {T}.
Arguments PFuel {T}.

(** The scanner gives up when more than this many arrays and objects are
    open. *)
Definition maxNestingDepth : N := 10000.

Definition byte_is (c : ascii) (x : string) : bool :=
  match x with
  | String y EmptyString => bool_decide (c = y)
  | _ => false
  end.

Definition is_quote (c : ascii) : bool := (nat_of_ascii c =? 34)%nat.
Definition is_backslash (c : ascii) : bool := (nat_of_ascii c =? 92)%nat.

Definition is_ws (c : ascii) : bool :=
  let n := nat_of_ascii c in ((n =? 32) || (n =? 9) || (n =? 13) || (n =? 10))%nat.

Fixpoint skip_ws (s : list ascii) : list ascii :=
  match s with
  | c :: s' => if is_ws c then skip_ws s' else s
  | [] => []
  end.

Definition hex_value (c : ascii) : option N :=
  let n := N_of_ascii c in
  if ((48 <=? n) && (n <=? 57))%N then Some (n - 48)%N
  else if ((97 <=? n) && (n <=? 102))%N then Some (n - 87)%N
  else if ((65 <=? n) && (n <=? 70))%N then Some (n - 55)%N
  else None.

Definition is_hex (c : ascii) : bool :=
  match hex_value c with Some _ => true | None => false end.

Definition is_simple_escape (c : ascii) : bool :=
  is_quote c || is_backslash c || byte_is c "/" || byte_is c "b" ||
  byte_is c "f" || byte_is c "n" || byte_is c "r" || byte_is c "t".

(** A string literal after its opening quote: the raw bytes up to the
    closing quote and what follows it.  Control bytes and malformed
    escapes are syntax errors. *)
Fixpoint scan_string (s : list ascii) : option (list ascii * list ascii) :=
  match s with
  | [] => None
  | c :: s1 =>
      if is_quote c then Some ([], s1)
      else if is_backslash c then
        match s1 with
        | e :: s2 =>
            if byte_is e "u" then
              match s2 with
              | h1 :: h2 :: h3 :: h4 :: s3 =>
                  if is_hex h1 && is_hex h2 && is_hex h3 && is_hex h4 then
                    match scan_string s3 with
                    | Some (raw, rest) =>
                        Some (c :: e :: h1 :: h2 :: h3 :: h4 :: raw, rest)
                    | None => None
                    end
                  else None
              | _ => None
              end
            else if is_simple_escape e then
              match scan_string s2 with
              | Some (raw, rest) => Some (c :: e :: raw, rest)
              | None => None
              end
            else None
        | [] => None
        end
      else if (nat_of_ascii c <? 32)%nat then None
      else
        match scan_string s1 with
        | Some (raw, rest) => Some (c :: raw, rest)
        | None => None
        end
  end.

Definition is_digit (c : ascii) : bool :=
  let n := nat_of_ascii c in ((48 <=? n) && (n <=? 57))%nat.

(** The longest run of digits at the head of the input. *)
Fixpoint scan_digits (s : list ascii) : list ascii * list ascii :=
  match s with
  | c :: s' =>
      if is_digit c then let '(ds, rest) := scan_digits s' in (c :: ds, rest)
      else ([], s)
  | [] => ([], [])
  end.

(** A number literal: an optional minus sign; a zero, or a digit from 1 to
    9 and any digits; optionally a point and digits; optionally an [e] or
    [E], an optional sign and digits. *)
Definition scan_number (s : list ascii) : option (list ascii * list ascii) :=
  let '(sign, s1) :=
    match s with
    | c :: s' => if byte_is c "-" then ([c], s') else ([], s)
    | [] => ([], s)
    end in
  match s1 with
  | [] => None
  | c :: s2 =>
      let int_part :=
        if byte_is c "0" then Some ([c], s2)
        else if is_digit c then let '(ds, rest) := scan_digits s2 in Some (c :: ds, rest)
        else None in
      match int_part with
      | None => None
      | Some (ip, s3) =>
          let frac :=
            match s3 with
            | d :: s4 =>
                if byte_is d "." then
                  match scan_digits s4 with
                  | ([], _) => None
                  | (ds, rest) => Some (d :: ds, rest)
                  end
                else Some ([], s3)
            | [] => Some ([], s3)
            end in
          match frac with
          | None => None
          | Some (fp, s5) =>
              let exp :=
                match s5 with
                | e :: s6 =>
                    if byte_is e "e" || byte_is e "E" then
                      let '(sg, s7) :=
                        match s6 with
                        | g :: s' =>
                            if byte_is g "+" || byte_is g "-" then ([g], s') else ([], s6)
                        | [] => ([], s6)
                        end in
                      match scan_digits s7 with
                      | ([], _) => None
                      | (ds, rest) => Some (e :: sg ++ ds, rest)
                      end
                    else Some ([], s5)
                | [] => Some ([], s5)
                end in
              match exp with
              | None => None
              | Some (ep, s8) => Some (sign ++ ip ++ fp ++ ep, s8)
              end
          end
      end
  end.

(** *** Unquoting a string literal *)

Definition byte_of_N (n : N) : ascii := ascii_of_N n.

(** [utf8.EncodeRune]. *)
Definition encode_rune (r : N) : list ascii :=
  if (r <? 128)%N then [byte_of_N r]
  else if (r <? 2048)%N then
    [byte_of_N (192 + r / 64); byte_of_N (128 + r mod 64)]
  else if (r <? 65536)%N then
    [byte_of_N (224 + r / 4096); byte_of_N (128 + (r / 64) mod 64);
     byte_of_N (128 + r mod 64)]
  else
    [byte_of_N (240 + r / 262144); byte_of_N (128 + (r / 4096) mod 64);
     byte_of_N (128 + (r / 64) mod 64); byte_of_N (128 + r mod 64)].

(** [unicode.ReplacementChar], [U+FFFD]. *)
Definition replacement : N := 65533.

(** [getu4]: the value of [\uXXXX] at the head of the input. *)
Definition getu4 (s : list ascii) : option N :=
  match s with
  | b :: u :: h1 :: h2 :: h3 :: h4 :: _ =>
      if is_backslash b && byte_is u "u" then
        match hex_value h1, hex_value h2, hex_value h3, hex_value h4 with
        | Some a, Some b, Some c, Some d => Some (((a * 16 + b) * 16 + c) * 16 + d)%N
        | _, _, _, _ => None
        end
      else None
  | _ => None
  end.

Definition in_range (lo hi : N) (c : ascii) : bool :=
  let n := N_of_ascii c in ((lo <=? n) && (n <=? hi))%N.

(** The length of the well-formed UTF-8 sequence at the head of the
    input, if there is one ([utf8.DecodeRune] answers [RuneError] with
    width 1 otherwise). *)
Definition utf8_width (s : list ascii) : option nat :=
  match s with
  | [] => None
  | c0 :: s1 =>
      let n0 := N_of_ascii c0 in
      if in_range 194 223 c0 then
        match s1 with
        | c1 :: _ => if in_range 128 191 c1 then Some 2%nat else None
        | _ => None
        end
      else if in_range 224 239 c0 then
        match s1 with
        | c1 :: c2 :: _ =>
            let lo := if (n0 =? 224)%N then 160%N else 128%N in
            let hi := if (n0 =? 237)%N then 159%N else 191%N in
            if in_range lo hi c1 && in_range 128 191 c2 then Some 3%nat else None
        | _ => None
        end
      else if in_range 240 244 c0 then
        match s1 with
        | c1 :: c2 :: c3 :: _ =>
            let lo := if (n0 =? 240)%N then 144%N else 128%N in
            let hi := if (n0 =? 244)%N then 143%N else 191%N in
            if in_range lo hi c1 && in_range 128 191 c2 && in_range 128 191 c3
            then Some 4%nat else None
        | _ => None
        end
      else None
  end.

Definition simple_escape (e : ascii) : ascii :=
  if byte_is e "b" then ascii_of_nat 8
  else if byte_is e "f" then ascii_of_nat 12
  else if byte_is e "n" then ascii_of_nat 10
  else if byte_is e "r" then ascii_of_nat 13
  else if byte_is e "t" then ascii_of_nat 9
  else e.

(** [unquote]: the value of a string literal from the raw bytes between
    its quotes.  Every round consumes a byte at least. *)
Fixpoint unquote_loop (fuel : nat) (s : list ascii) : list ascii :=
  match fuel with
  | O => []
  | S fuel' =>
      match s with
      | [] => []
      | c :: s1 =>
          if is_backslash c then
            match s1 with
            | e :: s2 =>
                if byte_is e "u" then
                  match getu4 s with
                  | Some r =>
                      let after := drop 6 s in
                      if ((55296 <=? r) && (r <? 57344))%N then
                        match getu4 after with
                        | Some r2 =>
                            if ((r <? 56320) && (56320 <=? r2) && (r2 <? 57344))%N then
                              encode_rune ((r - 55296) * 1024 + (r2 - 56320) + 65536)%N
                              ++ unquote_loop fuel' (drop 6 after)
                            else encode_rune replacement ++ unquote_loop fuel' after
                        | None => encode_rune replacement ++ unquote_loop fuel' after
                        end
                      else encode_rune r ++ unquote_loop fuel' after
                  | None => []
                  end
                else simple_escape e :: unquote_loop fuel' s2
            | [] => []
            end
          else if (N_of_ascii c <? 128)%N then c :: unquote_loop fuel' s1
          else
            match utf8_width s with
            | Some w => take w s ++ unquote_loop fuel' (drop w s)
            | None => encode_rune replacement ++ unquote_loop fuel' s1
            end
      end
  end.

Definition unquote (raw : list ascii) : string :=
  string_of_list_ascii (unquote_loop (length raw) raw).

(** *** Values *)

Definition literal_rest (word : string) (s : list ascii) : option (list ascii) :=
  Regexp.strip_prefix (list_ascii_of_string word) s.

(** [parse_value fuel depth s]: a value at the head of [s] (after white
    space), [depth] arrays and objects being open.  [parse_elements] reads
    the elements of an array after its bracket or a comma, [parse_members]
    the members of an object; [first] tells that nothing has been read yet,
    which is when the closing bracket may come at once. *)
Fixpoint parse_value (fuel : nat) (depth : N) (s : list ascii) : presult json :=
  match fuel with
  | O => PFuel
  | S fuel' =>
      match skip_ws s with
      | [] => PErr
      | c :: rest =>
          if byte_is c "{" then
            if (depth <? maxNestingDepth)%N
            then parse_members fuel' (depth + 1) true rest []
            else PErr
          else if byte_is c "[" then
            if (depth <? maxNestingDepth)%N
            then parse_elements fuel' (depth + 1) true rest []
            else PErr
          else if is_quote c then
            match scan_string rest with
            | Some (raw, rest') => POk (JString (unquote raw)) rest'
            | None => PErr
            end
          else if byte_is c "-" || is_digit c then
            match scan_number (c :: rest) with
            | Some (lit, rest') => POk (JNumber (string_of_list_ascii lit)) rest'
            | None => PErr
            end
          else if byte_is c "t" then
            match literal_rest "rue" rest with
            | Some rest' => POk (JBool true) rest'
            | None => PErr
            end
          else if byte_is c "f" then
            match literal_rest "alse" rest with
            | Some rest' => POk (JBool false) rest'
            | None => PErr
            end
          else if byte_is c "n" then
            match literal_rest "ull" rest with
            | Some rest' => POk JNull rest'
            | None => PErr
            end
          else PErr
      end
  end
with parse_elements (fuel : nat) (depth : N) (first : bool) (s : list ascii)
    (acc : list json) : presult json :=
  match fuel with
  | O => PFuel
  | S fuel' =>
      match skip_ws s with
      | [] => PErr
      | c :: rest =>
          if first && byte_is c "]" then POk (JArray (rev acc)) rest
          else
            match parse_value fuel' depth (c :: rest) with
            | POk v rest1 =>
                match skip_ws rest1 with
                | c' :: rest2 =>
                    if byte_is c' "," then parse_elements fuel' depth false rest2 (v :: acc)
                    else if byte_is c' "]" then POk (JArray (rev (v :: acc))) rest2
                    else PErr
                | [] => PErr
                end
            | PErr => PErr
            | PFuel => PFuel
            end
      end
  end
with parse_members (fuel : nat) (depth : N) (first : bool) (s : list ascii)
    (acc : list (string * json)) : presult json :=
  match fuel with
  | O => PFuel
  | S fuel' =>
      match skip_ws s with
      | [] => PErr
      | c :: rest =>
          if first && byte_is c "}" then POk (JObject (rev acc)) rest
          else if is_quote c then
            match scan_string rest with
            | Some (raw, rest1) =>
                match skip_ws rest1 with
                | c1 :: rest2 =>
                    if byte_is c1 ":" then
                      match parse_value fuel' depth rest2 with
                      | POk v rest3 =>
                          match skip_ws rest3 with
                          | c' :: rest4 =>
                              if byte_is c' ","
                              then parse_members fuel' depth false rest4
                                     ((unquote raw, v) :: acc)
                              else if byte_is c' "}"
                              then POk (JObject (rev ((unquote raw, v) :: acc))) rest4
                              else PErr
                          | [] => PErr
                          end
                      | PErr => PErr
                      | PFuel => PFuel
                      end
                    else PErr
                | [] => PErr
                end
            | None => PErr
            end
          else PErr
      end
  end.

(** [checkValid] and the reading of the value: one value, white space
    around it and nothing else. *)
Definition parse (text : string) : presult json :=
  let s := list_ascii_of_string text in
  match parse_value (2 * length s + 2) 0 s with
  | POk v rest =>
      match skip_ws rest with
      | [] => POk v []
      | _ :: _ => PErr
      end
  | PErr => PErr
  | PFuel => PFuel
  end.

End Json.

(** ** [encoding/json]: decoding a value into the structs

    A decoder gets the JSON value and the Go value stored so far and gives
    the new Go value; [None] is the [UnmarshalTypeError] the library
    reports when the JSON value does not fit the Go type.  ([Unmarshal]
    goes on decoding after such an error and reports it at the end;
    [ParseResponse] then drops the envelope, so that stopping at once gives
    the same answer.)  JSON [null] sets a slice or an [any] to nil and
    leaves a value of any other type as it is; a member whose key matches
    no field is skipped. *)

Module Decode.

(** [foldName]: the key with its ASCII letters in capitals and the two
    runes whose case-folding orbit holds an ASCII letter ([U+017F], long
    s, and [U+212A], the Kelvin sign) replaced by that letter. *)
Fixpoint fold_bytes (fuel : nat) (s : list ascii) : list ascii :=
  match fuel with
  | O => []
  | S fuel' =>
      match s with
      | [] => []
      | c :: s1 =>
          let n := nat_of_ascii c in
          if ((97 <=? n) && (n <=? 122))%nat
          then ascii_of_nat (n - 32) :: fold_bytes fuel' s1
          else
            match s with
            | c0 :: c1 :: s2 =>
                if ((nat_of_ascii c0 =? 197) && (nat_of_ascii c1 =? 191))%nat
                then "S"%char :: fold_bytes fuel' s2
                else
                  match s2 with
                  | c2 :: s3 =>
                      if ((nat_of_ascii c0 =? 226) && (nat_of_ascii c1 =? 132)
                          && (nat_of_ascii c2 =? 170))%nat
                      then "K"%char :: fold_bytes fuel' s3
                      else c :: fold_bytes fuel' s1
                  | [] => c :: fold_bytes fuel' s1
                  end
            | _ => c :: fold_bytes fuel' s1
            end
      end
  end.

Definition foldName (key : string) : list ascii :=
  let s := list_ascii_of_string key in fold_bytes (length s) s.

(** The key selects the field named [field] (an ASCII name). *)
Definition key_is (key field : string) : bool :=
  bool_decide (foldName key = foldName field).

(** [strconv.ParseInt(lit, 10, 64)] on a JSON number literal: an integer
    literal in the range of [int64]. *)
Definition digits_value (ds : list ascii) : Z :=
  fold_left (fun acc c => acc * 10 + (Z.of_nat (nat_of_ascii c) - 48)) ds 0.

Definition parse_int (lit : string) : option Z :=
  let s := list_ascii_of_string lit in
  let '(neg, ds) :=
    match s with
    | c :: s' => if Json.byte_is c "-" then (true, s') else (false, s)
    | [] => (false, s)
    end in
  if (0 <? length ds)%nat && forallb Json.is_digit ds then
    let v := if neg then - digits_value ds else digits_value ds in
    if (min_int <=? v) && (v <=? max_int) then Some v else None
  else None.

Definition decode_string (v : json) (old : string) : option string :=
  match v with
  | JString s => Some s
  | JNull => Some old
  | _ => None
  end.

Definition decode_int (v : json) (old : Z) : option Z :=
  match v with
  | JNumber lit => parse_int lit
  | JNull => Some old
  | _ => None
  end.

Definition decode_bool (v : json) (old : bool) : option bool :=
  match v with
  | JBool b => Some b
  | JNull => Some old
  | _ => None
  end.

(** The elements of a JSON array into a slice: the element [i] is decoded
    into the element [i] of the slice as it was, into a zero value beyond
    its length; the slice ends up with the length of the array. *)
Fixpoint decode_elems {T} (dec : json -> T -> option T) (zero : T)
    (elems : list json) (old : list T) : option (list T) :=
  match elems with
  | [] => Some []
  | e :: es =>
      let '(o, os) := match old with o :: os => (o, os) | [] => (zero, []) end in
      match dec e o with
      | Some x =>
          match decode_elems dec zero es os with
          | Some xs => Some (x :: xs)
          | None => None
          end
      | None => None
      end
  end.

Definition decode_slice {T} (dec : json -> T -> option T) (zero : T)
    (v : json) (old : list T) : option (list T) :=
  match v with
  | JArray elems => decode_elems dec zero elems old
  | JNull => Some []
  | _ => None
  end.

(** The members of a JSON object into a struct, in their order: [field]
    decodes one member into the struct. *)
Fixpoint decode_members {T} (field : string -> json -> T -> option T)
    (members : list (string * json)) (old : T) : option T :=
  match members with
  | [] => Some old
  | (key, v) :: rest =>
      match field key v old with
      | Some x => decode_members field rest x
      | None => None
      end
  end.

Definition decode_struct {T} (field : string -> json -> T -> option T)
    (v : json) (old : T) : option T :=
  match v with
  | JObject members => decode_members field members old
  | JNull => Some old
  | _ => None
  end.

Definition OwnerData_field (key : string) (v : json) (o : OwnerData)
    : option OwnerData :=
  if key_is key "display_name" then
    x ← decode_string v (OwnerData.DisplayName o); Some (OwnerData.mk x (OwnerData.Link o))
  else if key_is key "link" then
    x ← decode_string v (OwnerData.Link o); Some (OwnerData.mk (OwnerData.DisplayName o) x)
  else Some o.

Definition decode_OwnerData := decode_struct OwnerData_field.

Definition AnswerData_field (key : string) (v : json) (a : AnswerData)
    : option AnswerData :=
  let '(AnswerData.mk owner acc lad id score body link title) := a in
  if key_is key "owner" then
    x ← decode_OwnerData v owner; Some (AnswerData.mk x acc lad id score body link title)
  else if key_is key "is_accepted" then
    x ← decode_bool v acc; Some (AnswerData.mk owner x lad id score body link title)
  else if key_is key "last_activity_date" then
    x ← decode_int v lad; Some (AnswerData.mk owner acc x id score body link title)
  else if key_is key "answer_id" then
    x ← decode_int v id; Some (AnswerData.mk owner acc lad x score body link title)
  else if key_is key "score" then
    x ← decode_int v score; Some (AnswerData.mk owner acc lad id x body link title)
  else if key_is key "body_markdown" then
    x ← decode_string v body; Some (AnswerData.mk owner acc lad id score x link title)
  else if key_is key "link" then
    x ← decode_string v link; Some (AnswerData.mk owner acc lad id score body x title)
  else if key_is key "title" then
    x ← decode_string v title; Some (AnswerData.mk owner acc lad id score body link x)
  else Some a.

Definition decode_AnswerData := decode_struct AnswerData_field.

Definition QuestionData_field (key : string) (v : json) (q : QuestionData)
    : option QuestionData :=
  let '(QuestionData.mk tags owner ans views acount score accid cdate lad qid
          body link title answers) := q in
  if key_is key "tags" then
    x ← decode_slice decode_string "" v tags;
    Some (QuestionData.mk x owner ans views acount score accid cdate lad qid
            body link title answers)
  else if key_is key "owner" then
    x ← decode_OwnerData v owner;
    Some (QuestionData.mk tags x ans views acount score accid cdate lad qid
            body link title answers)
  else if key_is key "is_answered" then
    x ← decode_bool v ans;
    Some (QuestionData.mk tags owner x views acount score accid cdate lad qid
            body link title answers)
  else if key_is key "view_count" then
    x ← decode_int v views;
    Some (QuestionData.mk tags owner ans x acount score accid cdate lad qid
            body link title answers)
  else if key_is key "answer_count" then
    x ← decode_int v acount;
    Some (QuestionData.mk tags owner ans views x score accid cdate lad qid
            body link title answers)
  else if key_is key "score" then
    x ← decode_int v score;
    Some (QuestionData.mk tags owner ans views acount x accid cdate lad qid
            body link title answers)
  else if key_is key "accepted_answer_id" then
    x ← decode_int v accid;
    Some (QuestionData.mk tags owner ans views acount score x cdate lad qid
            body link title answers)
  else if key_is key "creation_date" then
    x ← decode_int v cdate;
    Some (QuestionData.mk tags owner ans views acount score accid x lad qid
            body link title answers)
  else if key_is key "last_activity_date" then
    x ← decode_int v lad;
    Some (QuestionData.mk tags owner ans views acount score accid cdate x qid
            body link title answers)
  else if key_is key "question_id" then
    x ← decode_int v qid;
    Some (QuestionData.mk tags owner ans views acount score accid cdate lad x
            body link title answers)
  else if key_is key "body_markdown" then
    x ← decode_string v body;
    Some (QuestionData.mk tags owner ans views acount score accid cdate lad qid
            x link title answers)
  else if key_is key "link" then
    x ← decode_string v link;
    Some (QuestionData.mk tags owner ans views acount score accid cdate lad qid
            body x title answers)
  else if key_is key "title" then
    x ← decode_string v title;
    Some (QuestionData.mk tags owner ans views acount score accid cdate lad qid
            body link x answers)
  else if key_is key "answers" then
    x ← decode_slice decode_AnswerData AnswerData.zero v answers;
    Some (QuestionData.mk tags owner ans views acount score accid cdate lad qid
            body link title x)
  else Some q.

Definition decode_QuestionData := decode_struct QuestionData_field.

Definition SOItem_field (key : string) (v : json) (it : SOItem) : option SOItem :=
  let '(SOItem.mk site type id data) := it in
  if key_is key "Site" then x ← decode_string v site; Some (SOItem.mk x type id data)
  else if key_is key "Type" then x ← decode_string v type; Some (SOItem.mk site x id data)
  else if key_is key "Id" then x ← decode_string v id; Some (SOItem.mk site type x data)
  else if key_is key "Data" then
    x ← decode_QuestionData v data; Some (SOItem.mk site type id x)
  else Some it.

Definition decode_SOItem := decode_struct SOItem_field.

Section Any.

(** [strconv.ParseFloat(lit, 64)] reports a range error: the number of
    the literal is too large for a [float64]. *)
Variable float_overflows : string -> bool.

(** A value stored into an [any]: the numbers in it become [float64]s,
    which fails for a number out of range. *)
Fixpoint any_ok (v : json) : bool :=
  match v with
  | JNumber lit => negb (float_overflows lit)
  | JArray elems => forallb any_ok elems
  | JObject members => forallb (fun m => any_ok (snd m)) members
  | _ => true
  end.

(** An element of [Errors []any]; [null] stores a nil interface. *)
Definition decode_any (v : json) (old : json) : option json :=
  if any_ok v then Some v else None.

Definition SOResponse_field (key : string) (v : json) (r : SOResponse)
    : option SOResponse :=
  if key_is key "Items" then
    x ← decode_slice decode_SOItem SOItem.zero v (SOResponse.Items r);
    Some (SOResponse.mk x (SOResponse.Errors r))
  else if key_is key "Errors" then
    x ← decode_slice decode_any JNull v (SOResponse.Errors r);
    Some (SOResponse.mk (SOResponse.Items r) x)
  else Some r.

Definition decode_SOResponse := decode_struct SOResponse_field.

End Any.
End Decode.

(** ** [ParseResponse] *)

(** The errors of [json.Unmarshal], which [ParseResponse] wraps. *)
Inductive ParseError : Type :=
  | SyntaxError
  | UnmarshalTypeError.

Section ParseResponse.
Variable float_overflows : string -> bool.

(** [var resp SOResponse; if err := json.Unmarshal([]byte(text), &resp);
    err != nil { return nil, ... }; return &resp, nil] *)
Definition ParseResponse (text : string) : ParseError + SOResponse :=
  match Json.parse text with
  | Json.POk v _ =>
      match Decode.decode_SOResponse float_overflows v SOResponse.zero with
      | Some resp => inr resp
      | None => inl UnmarshalTypeError
      end
  | Json.PErr => inl SyntaxError
  | Json.PFuel => inl SyntaxError
  end.

End ParseResponse.

(** ** Vocabulary of the specification for [ParseResponse] *)

(** What the specification asks about the top-level fields: a well-formed
    object that lacks [Items] or [Errors] is answered with an error. *)
Definition requires_top_level_fields (float_overflows : string -> bool) : Prop :=
  forall text members,
    Json.parse text = Json.POk (JObject members) [] ->
    (forall v, (("Items" : string), v) ∉ members) \/
    (forall v, (("Errors" : string), v) ∉ members) ->
    exists e, ParseResponse float_overflows text = inl e.

(** Three questions, the last two of the same and best rank, and one item
    of another type. *)
Definition three_questions : SOResponse :=
  SOResponse.mk
    [ sample_question 200 5; sample_question 201 7; sample_question 202 7;
      SOItem.mk "Stack Overflow" "Answer" "" QuestionData.zero ]
    [].

(** A question tagged [Go], with the given id and score. *)
Definition tagged_question (id score : Z) (tag : string) : SOItem :=
  SOItem.mk "Stack Overflow" "" ""
    (QuestionData.mk [tag] OwnerData.zero false 0 0 score 0 0 0 id "" "" "" []).

Definition tagged_questions : SOResponse :=
  SOResponse.mk
    [ tagged_question 300 9 "python"; tagged_question 301 4 "Go";
      tagged_question 302 6 "GO" ]
    [].

(** ** [FormatSearchResults] *)

Section FormatSearchResults.
Variable decodeHTML : string -> string.

(** One round of the loop: the entry of the item at index [i]. *)
Definition result_entry (i : Z) (q : QuestionData) : string :=
  let title := decodeHTML (QuestionData.Title q) in
  let tags :=
    if (0 <? length (QuestionData.Tags q))%nat
    then " — " +:+ Join (map (fun t => "`" +:+ t +:+ "`") (QuestionData.Tags q)) " "
    else "" in
  let accepted := if QuestionData.IsAnswered q then " ✅" else "" in
  Sprintf_d (i + 1) +:+ ". **" +:+ title +:+ "**" +:+ accepted +:+ "  " +:+ nl
  +:+ "   Score: " +:+ Sprintf_d (QuestionData.Score q) +:+ " | Answers: "
  +:+ Sprintf_d (QuestionData.AnswerCount q) +:+ tags +:+ "  " +:+ nl
  +:+ "   " +:+ QuestionData.Link q +:+ nl +:+ nl.

(** [for i := 0; i < shown; i++ { q := resp.Items[i].Data; ... }] *)
Fixpoint results_loop (n : nat) (i : nat) (items : list SOItem) : string :=
  match n with
  | O => ""
  | S n' =>
      match items !! i with
      | Some item =>
          result_entry (Z.of_nat i) (SOItem.Data item) +:+ results_loop n' (S i) items
      | None => ""
      end
  end.

Definition FormatSearchResults (resp : option SOResponse) (maxResults : Z) : string :=
  match resp with
  | None => "No results found."
  | Some resp =>
      if (length (SOResponse.Items resp) =? 0)%nat then "No results found."
      else
        let shown := shown_count maxResults (length (SOResponse.Items resp)) in
        ("# Stack Overflow Search Results" +:+ nl +:+ nl) +:+
        results_loop (Z.to_nat shown) 0 (SOResponse.Items resp)
  end.

(** The entries of the given items in their order, numbered from [i + 1]. *)
Fixpoint result_entries (i : nat) (items : list SOItem) : string :=
  match items with
  | [] => ""
  | item :: rest =>
      result_entry (Z.of_nat i) (SOItem.Data item) +:+ result_entries (S i) rest
  end.

End FormatSearchResults.

(** ** [ExtractText] *)

(** The content items of a tool result: a [TextContent] with its text, or
    an item of another kind (image, resource, ...). *)
Inductive Content : Type :=
  | TextContent (Text : string)
  | OtherContent.

Record CallToolResult := mkCallToolResult {
  Content_ : list Content;
  IsError : bool
}.

(** [for _, content := range result.Content { if tc, ok :=
    content.(TextContent); ok { parts = append(parts, tc.Text) } }] *)
Fixpoint text_parts (contents : list Content) : list string :=
  match contents with
  | [] => []
  | TextContent t :: rest => t :: text_parts rest
  | OtherContent :: rest => text_parts rest
  end.

(** [for i := 1; i < len(parts); i++ { result2 += "\n" + parts[i] }] *)
Fixpoint append_parts (result2 : string) (parts : list string) : string :=
  match parts with
  | [] => result2
  | p :: rest => append_parts (result2 +:+ nl +:+ p) rest
  end.

Definition ExtractText (result : option CallToolResult) : string :=
  match result with
  | None => ""
  | Some result =>
      match text_parts (Content_ result) with
      | [] => ""
      | p0 :: rest => append_parts p0 rest
      end
  end.

(** ** [detectTagHints] *)

(** The keyword table of [detectTagHints]. *)
Definition langMap : gmap string string :=
  list_to_map
    [ ("go", "go"); ("golang", "go");
      ("python", "python"); ("py", "python");
      ("javascript", "javascript"); ("js", "javascript"); ("node", "node.js");
      ("typescript", "typescript"); ("ts", "typescript");
      ("java", "java");
      ("c++", "c++"); ("cpp", "c++");
      ("c#", "c#"); ("csharp", "c#");
      ("ruby", "ruby"); ("rust", "rust"); ("swift", "swift");
      ("kotlin", "kotlin"); ("php", "php");
      ("bash", "bash"); ("shell", "bash");
      ("sql", "sql"); ("mysql", "mysql"); ("postgres", "postgresql");
      ("react", "reactjs"); ("docker", "docker");
      ("kubernetes", "kubernetes"); ("k8s", "kubernetes");
      ("git", "git") ].

Section DetectTagHints.

(** [strings.ToLower] and [strings.Fields]. *)
Variable ToLower : string -> string.
Variable Fields : string -> list string.

(** [for _, w := range words { if tag, ok := langMap[w]; ok && !seen[tag]
    { hints = append(hints, tag); seen[tag] = true } }] *)
Fixpoint hints_loop (words : list string) (seen : gmap string bool)
    (hints : list string) : list string :=
  match words with
  | [] => hints
  | w :: rest =>
      match langMap !! w with
      | Some tag =>
          if negb (default false (seen !! tag))
          then hints_loop rest (<[tag := true]> seen) (hints ++ [tag])
          else hints_loop rest seen hints
      | None => hints_loop rest seen hints
      end
  end.

Definition detectTagHints (query : string) : list string :=
  let words := Fields (ToLower query) in
  hints_loop words ∅ [].

End DetectTagHints.

(** ** [runAsk] and [fetchAndRender]: what is shown for a tool result

    The two functions talk to the server and to the terminal; what they do
    with the result of a tool call is a pure decision, modelled here from
    the line [searchText := mcp.ExtractText(searchResult)] on.  The
    outcome says which of the final actions the code takes. *)

Definition maxAnswersToShow : Z := 3.

Inductive Outcome : Type :=
  | Failed (msg : string)      (* [printError(...); return fmt.Errorf(msg)] *)
  | Rendered (md : string)     (* [renderAndPrint(md); return nil] *)
  | Fetch (qid : Z)            (* [return fetchAndRender(ctx, client, spinner, qid)] *)
  | Raw (text : string).       (* [fmt.Fprint(os.Stdout, searchText); return nil] *)

(** [fmt.Sprintf("SO_Q%d", qid)], the query of [get_content]. *)
Definition content_query (qid : Z) : string := "SO_Q" +:+ Sprintf_d qid.

Section RunAsk.

Variable ToLower : string -> string.
Variable Fields : string -> list string.
Variable decodeHTML : string -> string.
Variable formatDate : Z -> string.
Variable float_overflows : string -> bool.

(** [qid := 0; fmt.Sscanf(questionID, "%d", &qid)]: the value of [qid]
    afterwards. *)
Variable Sscanf_d : string -> Z.

(** Step 5 of [runAsk] and what follows it; [resp] is nil when parsing
    failed. *)
Definition runAsk_fallback (resp : option SOResponse) (searchText : string) : Outcome :=
  let questionID := ExtractQuestionID searchText in
  let listing :=
    match resp with
    | Some r =>
        if (0 <? length (SOResponse.Items r))%nat
        then Rendered (FormatSearchResults decodeHTML resp 10)
        else Raw searchText
    | None => Raw searchText
    end in
  if negb (string_eqb questionID "") then
    let qid := Sscanf_d questionID in
    if qid >? 0 then Fetch qid else listing
  else listing.

(** Steps 3 to 5 of [runAsk]; the result is [None] when
    [FormatQuestionMarkdown] does not return within the fuel. *)
Definition runAsk_display (fuel : nat) (query : string)
    (searchResult : option CallToolResult) : option Outcome :=
  let searchText := ExtractText searchResult in
  if string_eqb searchText "" then Some (Failed "no results found")
  else
    match ParseResponse float_overflows searchText with
    | inr resp =>
        if (0 <? length (SOResponse.Items resp))%nat then
          let tagHints := detectTagHints ToLower Fields query in
          match BestQuestion ToLower (Some resp) tagHints with
          | Some best =>
              if (0 <? length (QuestionData.Answers (deref best)))%nat then
                md ← FormatQuestionMarkdown decodeHTML formatDate fuel
                       (Some (deref best)) maxAnswersToShow;
                Some (Rendered md)
              else if QuestionData.QuestionID (deref best) >? 0 then
                Some (Fetch (QuestionData.QuestionID (deref best)))
              else Some (runAsk_fallback (Some resp) searchText)
          | None => Some (runAsk_fallback (Some resp) searchText)
          end
        else Some (runAsk_fallback (Some resp) searchText)
    | inl _ => Some (runAsk_fallback None searchText)
    end.

(** [fetchAndRender] from [contentText := mcp.ExtractText(contentResult)]
    on. *)
Definition fetchAndRender_display (fuel : nat)
    (contentResult : option CallToolResult) : option Outcome :=
  let contentText := ExtractText contentResult in
  if string_eqb contentText "" then Some (Failed "empty content")
  else
    match ParseResponse float_overflows contentText with
    | inr resp =>
        match SOResponse.Items resp with
        | item :: _ =>
            md ← FormatQuestionMarkdown decodeHTML formatDate fuel
                   (Some (SOItem.Data item)) maxAnswersToShow;
            Some (Rendered md)
        | [] => Some (Rendered contentText)
        end
    | inl _ => Some (Rendered contentText)
    end.

End RunAsk.

(** ** Vocabulary of further properties *)

(** The string without its commas. *)
Fixpoint strip_commas (s : string) : string :=
  match s with
  | EmptyString => EmptyString
  | String c s' =>
      if bool_decide (c = ","%char) then strip_commas s'
      else String c (strip_commas s')
  end.

(** The question with other embedded answers. *)
Definition with_answers (q : QuestionData) (answers : list AnswerData) : QuestionData :=
  QuestionData.mk (QuestionData.Tags q) (QuestionData.Owner q)
    (QuestionData.IsAnswered q) (QuestionData.ViewCount q)
    (QuestionData.AnswerCount q) (QuestionData.Score q)
    (QuestionData.AcceptedAnswerID q) (QuestionData.CreationDate q)
    (QuestionData.LastActivityDate q) (QuestionData.QuestionID q)
    (QuestionData.BodyMarkdown q) (QuestionData.Link q) (QuestionData.Title q)
    answers.

(** No two answers of the list agree on both the accepted flag and the
    score. *)
Definition answer_rank (a : AnswerData) : bool * Z :=
  (AnswerData.IsAccepted a, AnswerData.Score a).

Definition distinct_ranks (answers : list AnswerData) : Prop :=
  NoDup (map answer_rank answers).

(** The hints of both lists are the same once in lower case. *)
Definition same_hints (ToLower : string -> string) (hints1 hints2 : list string) : Prop :=
  forall k,
    (exists h, h ∈ hints1 /\ ToLower h = k) <-> (exists h, h ∈ hints2 /\ ToLower h = k).

(** ** [RenderContent] and [renderAndPrint] *)

Inductive RenderError : Type :=
  | EmptyContent     (* [fmt.Errorf("empty content")] *)
  | GlamourFailed.   (* [fmt.Errorf("glamour render failed: %w", err)] *)

Section Render.

(** [glamour.Render(text, "dark")], [None] for an error, and the [Render]
    methods of the two [lipgloss] styles. *)
Variable glamour_Render : string -> option string.
Variable resultBoxStyle_Render : string -> string.
Variable footerStyle_Render : string -> string.

Definition RenderContent (text : string) : RenderError + string :=
  if string_eqb text "" then inl EmptyContent
  else
    match glamour_Render text with
    | None => inl GlamourFailed
    | Some rendered =>
        let output := resultBoxStyle_Render rendered in
        let footer := footerStyle_Render "  Powered by Stack Overflow via MCP" in
        inr (output +:+ (nl +:+ footer +:+ nl))
    end.

(** What [renderAndPrint] writes to the standard output. *)
Definition renderAndPrint (md : string) : string :=
  match RenderContent md with
  | inl _ => md
  | inr rendered => rendered
  end.

End Render.

(** ** The text of the answers and of the listing, as it is read

    The text of one answer: the heading with the number of the answer,
    the mark of the accepted answer and the score when it is positive;
    the author when there is a name; the body; a rule, unless the answer
    is the last one shown. *)
Definition answer_text (decodeHTML : string -> string) (number : Z) (last : bool)
    (a : AnswerData) : string :=
  ("### Answer " +:+ Sprintf_d number
   +:+ (if AnswerData.IsAccepted a then "  ✅ Accepted" else "")
   +:+ (if AnswerData.Score a >? 0
        then "  (Score: " +:+ Sprintf_d (AnswerData.Score a) +:+ ")" else "")
   +:+ nl +:+ nl) +:+
  (match OwnerData.DisplayName (AnswerData.Owner a) with
   | EmptyString => ""
   | name => "By **" +:+ decodeHTML name +:+ "**" +:+ nl +:+ nl
   end) +:+
  (decodeHTML (AnswerData.BodyMarkdown a) +:+ nl +:+ nl) +:+
  (if last then "" else "---" +:+ nl +:+ nl).

(** The texts of the answers one after the other, numbered from [number]. *)
Fixpoint answers_text (decodeHTML : string -> string) (number : Z)
    (answers : list AnswerData) : string :=
  match answers with
  | [] => ""
  | a :: rest =>
      answer_text decodeHTML number (bool_decide (rest = [])) a
      +:+ answers_text decodeHTML (number + 1) rest
  end.

(** The entry of one result of a listing: the number and the title in
    bold with the mark of an answered question; the score, the number of
    answers and the tags when there are any; the link. *)
Definition entry_text (decodeHTML : string -> string) (number : Z)
    (q : QuestionData) : string :=
  (Sprintf_d number +:+ ". **" +:+ decodeHTML (QuestionData.Title q) +:+ "**"
   +:+ (if QuestionData.IsAnswered q then " ✅" else "") +:+ "  " +:+ nl) +:+
  ("   Score: " +:+ Sprintf_d (QuestionData.Score q)
   +:+ " | Answers: " +:+ Sprintf_d (QuestionData.AnswerCount q)
   +:+ (match QuestionData.Tags q with
        | [] => ""
        | tags => " — " +:+ Join (map (fun t => "`" +:+ t +:+ "`") tags) " "
        end) +:+ "  " +:+ nl) +:+
  ("   " +:+ QuestionData.Link q +:+ nl +:+ nl).

Fixpoint entries_text (decodeHTML : string -> string) (number : Z)
    (items : list SOItem) : string :=
  match items with
  | [] => ""
  | item :: rest =>
      entry_text decodeHTML number (SOItem.Data item)
      +:+ entries_text decodeHTML (number + 1) rest
  end.

(** A listed question with a title, a score, answers, tags and a link. *)
Definition listed_question (title : string) (score answers : Z) (answered : bool)
    (tags : list string) (link : string) : SOItem :=
  SOItem.mk "stackoverflow" "Question" ""
    (QuestionData.mk tags OwnerData.zero answered 0 answers score 0 0 0 0
       "" link title []).

Definition listed_questions : SOResponse :=
  SOResponse.mk
    [ listed_question "Reverse a string" 12 3 true ["go"; "string"] "https://so/q/1";
      listed_question "Sort a slice" 40 0 false [] "https://so/q/2";
      listed_question "Read a file" 7 1 true ["go"] "https://so/q/3" ]
    [].

(** The text made of the given lines, each closed by a newline. *)
Fixpoint lines (ls : list string) : string :=
  match ls with
  | [] => ""
  | l :: rest => l +:+ nl +:+ lines rest
  end.

(** ** Vocabulary of the specification for [ExtractQuestionID]: the phrases

    A phrase is a lead followed by a run of digits.  The leads of the four
    patterns, in the order of the source: the marker [SO_Q], the path
    [/questions/], the short path [stackoverflow.com/q/], and the label
    [question], in any letter case, white space, an optional [id] in any
    letter case, and one or more colons or white space. *)

(** The bytes [a] read as the lower-case letter [c] under [(?i)]: the
    letter, its capital, or the other member of its folding orbit (the
    long s for [s], the Kelvin sign for [k]) in UTF-8. *)
Definition letter_variant (c : ascii) (a : string) : Prop :=
  (exists b, a = String b "" /\ lower_byte b = c) \/
  (c = "s"%char /\ a = String (ascii_of_nat 197) (String (ascii_of_nat 191) "")) \/
  (c = "k"%char /\
   a = String (ascii_of_nat 226) (String (ascii_of_nat 132) (String (ascii_of_nat 170) ""))).

(** [w] reads as the lower-case word [word], letter by letter. *)
Fixpoint reads_as (word : string) (w : string) : Prop :=
  match word with
  | EmptyString => w = ""
  | String c word' =>
      exists a w', w = a +:+ w' /\ letter_variant c a /\ reads_as word' w'
  end.

Definition all_bytes (p : ascii -> bool) (s : string) : Prop :=
  Forall (fun c => p c = true) (list_ascii_of_string s).

Definition lead_marker (l : string) : Prop := l = "SO_Q".
Definition lead_questions_path (l : string) : Prop := l = "/questions/".
Definition lead_short_url (l : string) : Prop := l = "stackoverflow.com/q/".
Definition lead_labelled (l : string) : Prop :=
  exists w sp idw seps,
    l = w +:+ sp +:+ idw +:+ seps /\
    reads_as "question" w /\
    all_bytes Regexp.is_space sp /\
    (idw = "" \/ reads_as "id" idw) /\
    seps <> "" /\ all_bytes Regexp.is_colon_or_space seps.

Definition no_leading_digit (post : string) : Prop :=
  match post with
  | EmptyString => True
  | String c _ => Regexp.is_digit c = false
  end.

(** The text holds, after [pre], a lead and then the digits [ds] ([min]
    of them at least), followed by [post]. *)
Definition phrase_at (lead : string -> Prop) (min : nat)
    (text pre ds post : string) : Prop :=
  exists l, text = pre +:+ l +:+ ds +:+ post /\ lead l /\ digit_run min ds.

(** [ds] is the whole run of digits of the phrase that begins first in
    the text. *)
Definition first_phrase (lead : string -> Prop) (min : nat) (text ds : string) : Prop :=
  exists pre post,
    phrase_at lead min text pre ds post /\
    no_leading_digit post /\
    forall pre' ds' post',
      phrase_at lead min text pre' ds' post' -> (len pre <= len pre')%nat.

Definition no_phrase (lead : string -> Prop) (min : nat) (text : string) : Prop :=
  forall pre ds post, ~ phrase_at lead min text pre ds post.

(** ** The language of a pattern *)

Module RegexpLang.
Import Regexp.

(** The byte strings the pattern matches as a whole. *)
Fixpoint lang (r : regex) (m : list ascii) : Prop :=
  match r with
  | RLit bytes => m = bytes
  | RClass p => exists c, m = [c] /\ p c = true
  | RSeq r1 r2 => exists m1 m2, m = m1 ++ m2 /\ lang r1 m1 /\ lang r2 m2
  | RAlt r1 r2 => lang r1 m \/ lang r2 m
  | ROpt r1 => m = [] \/ lang r1 m
  | RRepeat min p => (min <= length m)%nat /\ Forall (fun c => p c = true) m
  | RGroup r1 => lang r1 m
  end.

(** What a sequence that ends in the group matches before the group. *)
Fixpoint lead_lang (r : regex) (l : list ascii) : Prop :=
  match r with
  | RSeq r1 r2 => exists l1 l2, l = l1 ++ l2 /\ lang r1 l1 /\ lead_lang r2 l2
  | _ => l = []
  end.

(** The class holds no digit. *)
Definition class_avoids_digits (p : ascii -> bool) : bool :=
  forallb (fun n => negb (p (ascii_of_nat n))) (seq 48 10).

(** The pattern matches no digit. *)
Fixpoint avoids_digits (r : regex) : bool :=
  match r with
  | RLit bytes => forallb (fun c => negb (is_digit c)) bytes
  | RClass p => class_avoids_digits p
  | RSeq r1 r2 => avoids_digits r1 && avoids_digits r2
  | RAlt r1 r2 => avoids_digits r1 && avoids_digits r2
  | ROpt r1 => avoids_digits r1
  | RRepeat _ p => class_avoids_digits p
  | RGroup r1 => avoids_digits r1
  end.

Fixpoint lead_avoids_digits (r : regex) : bool :=
  match r with
  | RSeq r1 r2 => avoids_digits r1 && lead_avoids_digits r2
  | _ => true
  end.

End RegexpLang.

(** ** The JSON text of an envelope

    The encoding of the structs as [json.Marshal] writes it (the members
    in the order of the fields, under the names of the tags, no white
    space), for the strings that are written as they are: printable ASCII
    without the quote and the backslash. *)

Module Encode.

(** The double quote. *)
Definition dq : string := String (ascii_of_nat 34) "".

Definition member_text (render : json -> string) (m : string * json) : string :=
  dq +:+ fst m +:+ dq +:+ ":" +:+ render (snd m).

(** The compact text of a value. *)
Fixpoint render (v : json) : string :=
  match v with
  | JNull => "null"
  | JBool true => "true"
  | JBool false => "false"
  | JNumber lit => lit
  | JString s => dq +:+ s +:+ dq
  | JArray elems => "[" +:+ Join (map render elems) "," +:+ "]"
  | JObject members => "{" +:+ Join (map (member_text render) members) "," +:+ "}"
  end.

Definition plain_byte (c : ascii) : bool :=
  let n := nat_of_ascii c in
  ((32 <=? n) && (n <? 128) && negb (n =? 34) && negb (n =? 92))%nat.

Definition plain_string (s : string) : bool :=
  forallb plain_byte (list_ascii_of_string s).

(** A literal of an integer: an optional minus sign, then a zero or a
    digit from 1 to 9 and any digits. *)
Definition int_literal (lit : string) : bool :=
  let digits (ds : list ascii) :=
    match ds with
    | [] => false
    | d :: ds' =>
        if Json.byte_is d "0" then match ds' with [] => true | _ => false end
        else Json.is_digit d && forallb Json.is_digit ds'
    end in
  match list_ascii_of_string lit with
  | c :: ds => if Json.byte_is c "-" then digits ds else digits (c :: ds)
  | [] => false
  end.

(** The value holds plain strings and integer literals only. *)
Fixpoint plain (v : json) : bool :=
  match v with
  | JString s => plain_string s
  | JNumber lit => int_literal lit
  | JArray elems => forallb plain elems
  | JObject members => forallb (fun m => plain_string (fst m) && plain (snd m)) members
  | _ => true
  end.

(** How many arrays and objects are open at the deepest place. *)
Fixpoint nesting (v : json) : N :=
  match v with
  | JArray elems => 1 + fold_right (fun e acc => N.max (nesting e) acc) 0%N elems
  | JObject members =>
      1 + fold_right (fun m acc => N.max (nesting (snd m)) acc) 0%N members
  | _ => 0
  end.

(** What may follow a number: nothing that goes on with it. *)
Definition number_end (rest : list ascii) : Prop :=
  match rest with
  | [] => True
  | c :: _ =>
      Json.is_digit c = false /\ Json.byte_is c "." = false /\
      Json.byte_is c "e" = false /\ Json.byte_is c "E" = false
  end.

Definition value_end (v : json) (rest : list ascii) : Prop :=
  match v with
  | JNumber _ => number_end rest
  | _ => True
  end.

(** The text of the value is read back, whatever follows it: with fuel
    enough, and when the scanner can open the arrays and objects of the
    value on top of the [depth] that are open. *)
Definition reads_back (v : json) : Prop :=
  exists fuel0, forall fuel, (fuel0 <= fuel)%nat ->
    forall depth rest,
      (depth + nesting v <= Json.maxNestingDepth)%N -> value_end v rest ->
      Json.parse_value fuel depth (list_ascii_of_string (render v) ++ rest)
      = Json.POk v rest.

Definition encode_int (n : Z) : json := JNumber (Sprintf_d n).

Definition encode_OwnerData (o : OwnerData) : json :=
  JObject
    [ ("display_name", JString (OwnerData.DisplayName o));
      ("link", JString (OwnerData.Link o)) ].

Definition encode_AnswerData (a : AnswerData) : json :=
  JObject
    [ ("owner", encode_OwnerData (AnswerData.Owner a));
      ("is_accepted", JBool (AnswerData.IsAccepted a));
      ("last_activity_date", encode_int (AnswerData.LastActivityDate a));
      ("answer_id", encode_int (AnswerData.AnswerID a));
      ("score", encode_int (AnswerData.Score a));
      ("body_markdown", JString (AnswerData.BodyMarkdown a));
      ("link", JString (AnswerData.Link a));
      ("title", JString (AnswerData.Title a)) ].

Definition encode_QuestionData (q : QuestionData) : json :=
  JObject
    [ ("tags", JArray (map JString (QuestionData.Tags q)));
      ("owner", encode_OwnerData (QuestionData.Owner q));
      ("is_answered", JBool (QuestionData.IsAnswered q));
      ("view_count", encode_int (QuestionData.ViewCount q));
      ("answer_count", encode_int (QuestionData.AnswerCount q));
      ("score", encode_int (QuestionData.Score q));
      ("accepted_answer_id", encode_int (QuestionData.AcceptedAnswerID q));
      ("creation_date", encode_int (QuestionData.CreationDate q));
      ("last_activity_date", encode_int (QuestionData.LastActivityDate q));
      ("question_id", encode_int (QuestionData.QuestionID q));
      ("body_markdown", JString (QuestionData.BodyMarkdown q));
      ("link", JString (QuestionData.Link q));
      ("title", JString (QuestionData.Title q));
      ("answers", JArray (map encode_AnswerData (QuestionData.Answers q))) ].

Definition encode_SOItem (it : SOItem) : json :=
  JObject
    [ ("Site", JString (SOItem.Site it));
      ("Type", JString (SOItem.Type_ it));
      ("Id", JString (SOItem.ID it));
      ("Data", encode_QuestionData (SOItem.Data it)) ].

Definition encode_SOResponse (r : SOResponse) : json :=
  JObject
    [ ("Items", JArray (map encode_SOItem (SOResponse.Items r)));
      ("Errors", JArray (SOResponse.Errors r)) ].

(** Every number of the struct is an [int]. *)
Definition fits_AnswerData (a : AnswerData) : Prop :=
  in_range (AnswerData.LastActivityDate a) /\ in_range (AnswerData.AnswerID a) /\
  in_range (AnswerData.Score a).

Definition fits_QuestionData (q : QuestionData) : Prop :=
  in_range (QuestionData.ViewCount q) /\ in_range (QuestionData.AnswerCount q) /\
  in_range (QuestionData.Score q) /\ in_range (QuestionData.AcceptedAnswerID q) /\
  in_range (QuestionData.CreationDate q) /\ in_range (QuestionData.LastActivityDate q) /\
  in_range (QuestionData.QuestionID q) /\
  Forall fits_AnswerData (QuestionData.Answers q).

Definition fits_SOResponse (r : SOResponse) : Prop :=
  Forall (fun it => fits_QuestionData (SOItem.Data it)) (SOResponse.Items r).

(** An envelope whose encoding is read back: plain strings, numbers that
    are [int]s, errors that an [any] can hold, and no more nesting than
    the scanner follows. *)
Definition encodable (float_overflows : string -> bool) (r : SOResponse) : Prop :=
  plain (encode_SOResponse r) = true /\
  fits_SOResponse r /\
  forallb (Decode.any_ok float_overflows) (SOResponse.Errors r) = true /\
  (nesting (encode_SOResponse r) <= Json.maxNestingDepth)%N.

End Encode.

(** * Properties *)

(** ** Go's [int] *)

Lemma int_wrap_in_range z : in_range z -> int_wrap z = z.
Proof.
  unfold in_range, int_wrap, min_int, max_int. intros H.
  rewrite Z.mod_small; lia.
Qed.

Lemma int_neg_min_int : int_neg min_int = min_int.
Proof. reflexivity. Qed.

Lemma int_neg_pos n : in_range n -> n <> min_int -> int_neg n = - n.
Proof.
  unfold int_neg, in_range, min_int, max_int. intros H Hn.
  apply int_wrap_in_range. unfold in_range, min_int, max_int. lia.
Qed.


(** ** [sort.Slice]: the result is an ordered rearrangement of the input *)

Module SortFacts.
Import Sort.
Section Facts.
Context {A : Type}.
Variable less : A -> A -> bool.

Local Open Scope nat_scope.

Local Abbreviation Less := (Sort.Less less).
Local Abbreviation sorted_range := (Sort.sorted_range less).
Local Abbreviation sorted_adj := (Sort.sorted_adj less).
Implicit Types d : list A.

(** *** [Swap] and [Less] *)

Lemma Swap_length (d : list A) i j : length (Swap d i j) = length d.
Proof.
  unfold Swap. destruct (d !! i), (d !! j); try done.
  by rewrite !length_insert.
Qed.

Lemma Swap_lookup (d : list A) i j k :
  i < length d -> j < length d ->
  Swap d i j !! k =
    if decide (k = i) then d !! j else if decide (k = j) then d !! i else d !! k.
Proof.
  intros Hi Hj. unfold Swap.
  destruct (lookup_lt_is_Some_2 d i Hi) as [x Hx].
  destruct (lookup_lt_is_Some_2 d j Hj) as [y Hy].
  rewrite Hx, Hy.
  destruct (decide (k = i)) as [->|Hki].
  - rewrite list_lookup_insert_eq; [done|]. by rewrite length_insert.
  - rewrite list_lookup_insert_ne by done.
    destruct (decide (k = j)) as [->|Hkj].
    + by rewrite list_lookup_insert_eq.
    + by rewrite list_lookup_insert_ne.
Qed.

Lemma Swap_lookup_other (d : list A) i j k :
  k <> i -> k <> j -> Swap d i j !! k = d !! k.
Proof.
  intros Hi Hj. unfold Swap.
  destruct (d !! i) eqn:Ei; [|done]. destruct (d !! j) eqn:Ej; [|done].
  by rewrite !list_lookup_insert_ne.
Qed.

Lemma Swap_same (d : list A) i : Swap d i i = d.
Proof.
  unfold Swap. destruct (d !! i) eqn:E; [|done].
  rewrite list_insert_id; [by apply list_insert_id|].
  by rewrite list_insert_id.
Qed.

Lemma Swap_perm (d : list A) i j : Swap d i j ≡ₚ d.
Proof.
  unfold Swap. destruct (d !! i) eqn:Ei; [|done]. destruct (d !! j) eqn:Ej; [|done].
  by apply Permutation_insert_swap.
Qed.

Lemma Less_lookup (d : list A) i j x y :
  d !! i = Some x -> d !! j = Some y -> Less d i j = less x y.
Proof. intros Hx Hy. unfold Sort.Less. by rewrite Hx, Hy. Qed.

(** *** Rearrangements inside a range *)

Lemma within_length a b d d' : within a b d d' -> length d' = length d.
Proof. intros [H _]. by apply Permutation_length. Qed.

Lemma within_refl a b d : within a b d d.
Proof. by split. Qed.

Lemma within_trans a b d1 d2 d3 :
  within a b d1 d2 -> within a b d2 d3 -> within a b d1 d3.
Proof.
  intros [P1 F1] [P2 F2]. split; [by etrans|].
  intros k Hk. rewrite F2, F1; done.
Qed.

Lemma within_weaken a b a' b' d d' :
  a' <= a -> b <= b' -> within a b d d' -> within a' b' d d'.
Proof. intros Ha Hb [P F]. split; [done|]. intros k Hk. apply F. lia. Qed.

Lemma within_Swap a b d i j :
  a <= i < b -> a <= j < b -> within a b d (Swap d i j).
Proof.
  intros Hi Hj. split; [apply Swap_perm|].
  intros k Hk. apply Swap_lookup_other; lia.
Qed.

Lemma split_range (d : list A) a b :
  a <= b -> d = take a d ++ take (b - a) (drop a d) ++ drop b d.
Proof.
  intros Hab.
  rewrite <- (take_drop a d) at 1. f_equal.
  rewrite <- (take_drop (b - a) (drop a d)) at 1. f_equal.
  rewrite drop_drop. f_equal. lia.
Qed.

Lemma within_segment a b d d' :
  a <= b -> within a b d d' ->
  take (b - a) (drop a d') ≡ₚ take (b - a) (drop a d).
Proof.
  intros Hab [P F].
  assert (Hl : length d' = length d) by by apply Permutation_length.
  assert (Ht : take a d' = take a d).
  { apply list_eq. intros k. rewrite !lookup_take.
    case_decide; [|done]. apply F. lia. }
  assert (Hd : drop b d' = drop b d).
  { apply list_eq. intros k. rewrite !lookup_drop. apply F. lia. }
  rewrite (split_range d a b Hab), (split_range d' a b Hab) in P.
  rewrite Ht, Hd in P.
  apply Permutation_app_inv_l in P. by apply Permutation_app_inv_r in P.
Qed.

Lemma lookup_segment (d : list A) a b k :
  take (b - a) (drop a d) !! k = if decide (k < b - a) then d !! (a + k) else None.
Proof. rewrite lookup_take. case_decide; [|done]. by rewrite lookup_drop. Qed.

(** Every element found in the range afterwards was in the range before. *)
Lemma within_elem a b d d' k x :
  within a b d d' -> a <= k < b -> d' !! k = Some x ->
  exists k', a <= k' < b /\ d !! k' = Some x.
Proof.
  intros W Hk Hx.
  assert (Hab : a <= b) by lia.
  pose proof (within_segment a b d d' Hab W) as P.
  assert (Hin : x ∈ take (b - a) (drop a d')).
  { apply list_elem_of_lookup. exists (k - a).
    rewrite lookup_segment. case_decide; [|lia].
    by replace (a + (k - a)) with k by lia. }
  rewrite P in Hin. apply list_elem_of_lookup in Hin as [i Hi].
  rewrite lookup_segment in Hi. case_decide; [|done].
  exists (a + i). split; [lia|done].
Qed.

(** A property of all elements of the range survives a rearrangement. *)
Lemma within_forall a b d d' (P : A -> Prop) :
  within a b d d' ->
  (forall k x, a <= k -> k < b -> d !! k = Some x -> P x) ->
  forall k x, a <= k -> k < b -> d' !! k = Some x -> P x.
Proof.
  intros W H k x Hk1 Hk2 Hx.
  destruct (within_elem a b d d' k x W (conj Hk1 Hk2) Hx) as (k' & [Hk' Hk''] & Hx').
  by eapply H.
Qed.

(** *** Order *)

(** *** [reverseRange_func], [breakPatterns_func], [choosePivot_func] *)

Lemma reverse_loop_within n : forall d a b i j,
  a <= i -> j < b -> Sort.within a b d (reverse_loop n d i j).
Proof.
  induction n as [|n IH]; intros d a b i j Hi Hj; simpl; [apply within_refl|].
  destruct (i <? j) eqn:E; [|apply within_refl].
  apply Nat.ltb_lt in E.
  eapply within_trans; [apply (within_Swap a b d i j); lia|].
  apply IH; lia.
Qed.

Lemma reverseRange_within d a b : Sort.within a b d (reverseRange_func d a b).
Proof.
  unfold reverseRange_func. destruct (decide (b - a = 0)) as [->|Hne].
  - apply within_refl.
  - apply reverse_loop_within; lia.
Qed.

Lemma nextPowerOfTwo_bound (l : nat) (r : N) :
  0 < l -> N.to_nat (N.land r (nextPowerOfTwo l - 1)) < 2 * l.
Proof.
  intros Hl. unfold nextPowerOfTwo, bits_Len.
  destruct (N.of_nat l) as [|p] eqn:Ep; [lia|].
  set (k := N.of_nat (Pos.to_nat (Pos.size p))).
  assert (Hk : k = N.pos (Pos.size p)) by (unfold k; lia).
  rewrite N.shiftl_1_l.
  assert (Hpow : (2 ^ k <= 2 * N.pos p)%N).
  { rewrite Hk. pose proof (Pos.size_le p) as H.
    change (2 ^ N.pos (Pos.size p))%N with (N.pos (2 ^ Pos.size p)). lia. }
  assert (Hm : (2 ^ k mod 2 ^ 64 <= 2 ^ k)%N) by (apply N.Div0.mod_le).
  assert (Hland : (N.land r (2 ^ k mod 2 ^ 64 - 1) <= 2 ^ k mod 2 ^ 64 - 1)%N).
  { destruct (decide (2 ^ k mod 2 ^ 64 = 2 ^ k)%N) as [->|Hne].
    - rewrite <- N.pred_sub, <- N.ones_equiv, N.land_ones.
      rewrite N.ones_equiv.
      assert (r mod 2 ^ k < 2 ^ k)%N; [|lia].
      apply N.mod_lt. apply N.pow_nonzero. lia.
    - assert (2 ^ k mod 2 ^ 64 = 0)%N as ->.
      { destruct (decide (k < 64)%N) as [Hlt|Hge].
        - exfalso. apply Hne. apply N.mod_small.
          apply N.pow_lt_mono_r; lia.
        - replace k with (64 + (k - 64))%N by lia.
          rewrite N.pow_add_r, N.mul_comm. apply N.Div0.mod_mul. }
      simpl. rewrite N.land_0_r. lia. }
  assert (0 < 2 ^ k)%N by (apply N.neq_0_lt_0, N.pow_nonzero; lia).
  lia.
Qed.

Lemma breakPatterns_loop_within n : forall d random modulus a b l idx i,
  (forall r, N.to_nat (N.land r (modulus - 1)) < 2 * l) ->
  a + l = b -> a <= idx - 1 + i -> idx - 1 + i + n <= b ->
  Sort.within a b d (breakPatterns_loop n d random modulus a l idx i).
Proof.
  induction n as [|n IH]; intros d random modulus a b l idx i Hm Hl H1 H2; simpl;
    [apply within_refl|].
  set (other := N.to_nat (N.land (xorshift_Next random) (modulus - 1))).
  assert (other < 2 * l) by apply Hm.
  eapply within_trans; [|apply IH; try done; lia].
  apply within_Swap; [lia|].
  destruct (l <=? other) eqn:E;
    [apply Nat.leb_le in E | apply Nat.leb_gt in E]; lia.
Qed.

Lemma breakPatterns_within d a b : Sort.within a b d (breakPatterns_func d a b).
Proof.
  unfold breakPatterns_func.
  destruct (8 <=? b - a) eqn:E; [|apply within_refl].
  apply Nat.leb_le in E.
  pose proof (Nat.div_mod_eq (b - a) 4) as Hd.
  pose proof (Nat.mod_upper_bound (b - a) 4 ltac:(lia)) as Hr.
  apply breakPatterns_loop_within.
  - intros r. apply nextPowerOfTwo_bound. lia.
  - lia.
  - lia.
  - lia.
Qed.

Lemma order2_cases d a b s :
  exists s', order2_func less d a b s = (a, b, s') \/
             order2_func less d a b s = (b, a, s').
Proof. unfold order2_func. destruct (Less d b a); eauto. Qed.

Lemma median_cases d a b c s :
  let m := fst (median_func less d a b c s) in m = a \/ m = b \/ m = c.
Proof.
  unfold median_func.
  destruct (order2_cases d a b s) as [s1 [-> | ->]];
  [destruct (order2_cases d b c s1) as [s2 [-> | ->]]
  |destruct (order2_cases d a c s1) as [s2 [-> | ->]]].
  - destruct (order2_cases d a b s2) as [s3 [-> | ->]]; simpl; auto.
  - destruct (order2_cases d a c s2) as [s3 [-> | ->]]; simpl; auto.
  - destruct (order2_cases d b a s2) as [s3 [-> | ->]]; simpl; auto.
  - destruct (order2_cases d b c s2) as [s3 [-> | ->]]; simpl; auto.
Qed.

Lemma choosePivot_range d a b :
  8 <= b - a ->
  a <= fst (choosePivot_func less d a b) /\ fst (choosePivot_func less d a b) < b.
Proof.
  intros Hl. unfold choosePivot_func.
  pose proof (Nat.div_mod_eq (b - a) 4) as Hd.
  pose proof (Nat.mod_upper_bound (b - a) 4 ltac:(lia)) as Hr.
  set (q := (b - a) / 4) in *.
  assert (E8 : (8 <=? b - a) = true) by (apply Nat.leb_le; lia).
  rewrite E8.
  assert (Hmed : forall x y z s, a <= x < b -> a <= y < b -> a <= z < b ->
             a <= fst (median_func less d x y z s) < b).
  { intros x y z s Hx Hy Hz. pose proof (median_cases d x y z s) as Hc.
    simpl in Hc. lia. }
  assert (Hadj : forall x s, a < x -> x + 1 < b ->
             a <= fst (medianAdjacent_func less d x s) < b).
  { intros x s H1 H2. unfold medianAdjacent_func. apply Hmed; lia. }
  destruct (50 <=? b - a) eqn:E50.
  - pose proof (Hadj (a + q * 1) 0 ltac:(lia) ltac:(lia)) as Hi.
    destruct (medianAdjacent_func less d (a + q * 1) 0) as [i s1]; simpl in Hi.
    pose proof (Hadj (a + q * 2) s1 ltac:(lia) ltac:(lia)) as Hj.
    destruct (medianAdjacent_func less d (a + q * 2) s1) as [j s2]; simpl in Hj.
    pose proof (Hadj (a + q * 3) s2 ltac:(lia) ltac:(lia)) as Hk.
    destruct (medianAdjacent_func less d (a + q * 3) s2) as [k s3]; simpl in Hk.
    pose proof (Hmed i j k s3 Hi Hj Hk) as Hm.
    destruct (median_func less d i j k s3) as [m s4]; simpl in Hm.
    repeat case_match; simpl; lia.
  - pose proof (Hmed (a + q * 1) (a + q * 2) (a + q * 3) 0
                  ltac:(lia) ltac:(lia) ltac:(lia)) as Hm.
    destruct (median_func less d (a + q * 1) (a + q * 2) (a + q * 3) 0) as [m s4];
      simpl in Hm.
    repeat case_match; simpl; lia.
Qed.

Section Ordered.
Hypothesis SWO : Sort.StrictWeakOrder less.

Lemma less_asym x y : less x y = true -> less y x = false.
Proof.
  intros H. destruct (less y x) eqn:E; [|done].
  pose proof (Sort.less_trans _ SWO _ _ _ H E) as Hxx.
  by rewrite (Sort.less_irrefl _ SWO) in Hxx.
Qed.

Lemma sorted_adj_range d a b : sorted_adj d a b -> sorted_range d a b.
Proof.
  intros H i j. revert i. induction j as [|j IH]; intros i x y Ha Hij Hb Hx Hy; [lia|].
  destruct (decide (i = j)) as [->|Hne].
  - by eapply H.
  - destruct (lookup_lt_is_Some_2 d j) as [z Hz].
    { apply lookup_lt_Some in Hy. lia. }
    apply (Sort.less_negtrans _ SWO y z x).
    + eapply (H j); eauto; lia.
    + eapply (IH i); eauto; lia.
Qed.

(** *** [insertionSort_func] *)

Lemma insertion_inner_spec j : forall d a m,
  a <= j -> j <= m -> m < length d ->
  Sort.sorted_except less d a m j -> Sort.above less d j m ->
  Sort.within a (S m) d (insertion_inner less d a j) /\
  sorted_range (insertion_inner less d a j) a (S m).
Proof.
  induction j as [|j IH]; intros d a m Haj Hjm Hm Hse Hab.
  - simpl. split; [apply within_refl|].
    intros i1 i2 x y H1 H2 H3 Hx Hy.
    destruct (decide (i1 = 0)) as [->|Hne].
    + eapply Hab; eauto; lia.
    + eapply Hse; eauto; lia.
  - simpl.
    destruct (lookup_lt_is_Some_2 d (S j)) as [e He]; [lia|].
    destruct (lookup_lt_is_Some_2 d j) as [p Hp]; [lia|].
    rewrite (Less_lookup d (S j) j e p He Hp).
    destruct (a <? S j) eqn:Ea; simpl.
    + apply Nat.ltb_lt in Ea. destruct (less e p) eqn:Elt.
      * (* the element moves one place down *)
        assert (HS : forall k, Swap d (S j) j !! k =
            if decide (k = S j) then Some p else if decide (k = j) then Some e
            else d !! k).
        { intros k. rewrite Swap_lookup by lia. rewrite Hp, He. done. }
        destruct (IH (Swap d (S j) j) a m) as [W S']; try lia.
        { rewrite Swap_length. lia. }
        { intros i1 i2 x y H1 H2 H3 N1 N2. rewrite !HS.
          repeat case_decide; subst; try lia; intros Hx Hy; simplify_eq.
          - eapply (Hse j i2); eauto; lia.
          - eapply (Hse i1 j); eauto; lia.
          - eapply (Hse i1 i2); eauto; lia. }
        { intros i y e' H1 H2. rewrite !HS.
          repeat case_decide; subst; try lia; intros Hy He'; simplify_eq.
          - by apply less_asym.
          - eapply (Hab i); eauto; lia. }
        split; [|done].
        eapply within_trans; [|exact W].
        apply within_Swap; lia.
      * split; [apply within_refl|].
        intros i1 i2 x y H1 H2 H3 Hx Hy.
        destruct (decide (i2 = S j)) as [->|N2].
        { assert (y = e) as -> by congruence.
          destruct (decide (i1 = j)) as [->|N1].
          { by assert (x = p) as -> by congruence. }
          apply (Sort.less_negtrans _ SWO e p x); [done|].
          eapply (Hse i1 j); eauto; lia. }
        destruct (decide (i1 = S j)) as [->|N1].
        { eapply Hab; eauto; lia. }
        eapply Hse; eauto; lia.
    + apply Nat.ltb_ge in Ea. assert (a = S j) as -> by lia.
      split; [apply within_refl|].
      intros i1 i2 x y H1 H2 H3 Hx Hy.
      destruct (decide (i1 = S j)) as [->|N1].
      { eapply Hab; eauto; lia. }
      eapply Hse; eauto; lia.
Qed.

Lemma insertion_outer_spec n : forall d a i,
  a < i -> i + n <= length d -> sorted_range d a i ->
  Sort.within a (i + n) d (insertion_outer less n d a i) /\
  sorted_range (insertion_outer less n d a i) a (i + n).
Proof.
  induction n as [|n IH]; intros d a i Hai Hlen Hs; simpl.
  - rewrite Nat.add_0_r. split; [apply within_refl|done].
  - destruct (insertion_inner_spec i d a i) as [W S']; try lia.
    { intros i1 i2 x y H1 H2 H3 N1 N2. apply Hs; lia. }
    { intros k y e H1 H2. lia. }
    destruct (IH (insertion_inner less d a i) a (S i)) as [W' S'']; try lia.
    { rewrite (within_length _ _ _ _ W). lia. }
    { done. }
    replace (i + S n) with (S i + n) by lia.
    split; [|done].
    eapply within_trans; [|exact W'].
    eapply within_weaken; [| |exact W]; lia.
Qed.

Lemma insertionSort_spec d a b :
  b <= length d ->
  Sort.within a b d (insertionSort_func less d a b) /\
  sorted_range (insertionSort_func less d a b) a b.
Proof.
  intros Hb. unfold insertionSort_func.
  destruct (decide (a + 1 <= b)) as [Hab|Hab].
  - destruct (insertion_outer_spec (b - (a + 1)) d a (a + 1)) as [W S']; try lia.
    { intros i j x y H1 H2 H3. lia. }
    by replace (a + 1 + (b - (a + 1))) with b in * by lia.
  - replace (b - (a + 1)) with 0 by lia. simpl.
    split; [apply within_refl|]. intros i j x y H1 H2 H3. lia.
Qed.

(** *** [partition_func] *)

Lemma scan_up_spec n : forall d a b i j p,
  d !! a = Some p -> b <= length d -> S j - i <= n ->
  Sort.part_inv (fun x => less x p) d a b i j ->
  let i' := scan_up less n d a i j in
  Sort.part_inv (fun x => less x p) d a b i' j /\ i <= i' /\
  (i' <= j -> Less d i' a = false).
Proof.
  induction n as [|n IH]; intros d a b i j p Hp Hb Hn Inv; simpl.
  - split; [done|]. split; [done|]. lia.
  - destruct (i <=? j) eqn:Eij; simpl.
    + apply Nat.leb_le in Eij. destruct (Less d i a) eqn:El.
      * destruct Inv as (I1 & I2 & I3 & I4 & I5).
        destruct (IH d a b (S i) j p) as (Inv' & Hle & Hst); try done; try lia.
        { repeat split; try lia; [|done].
          intros k x H1 H2 Hx. destruct (decide (k = i)) as [->|Hne].
          - by rewrite (Less_lookup d i a x p) in El.
          - apply (I4 k); [lia|lia|done]. }
        split; [done|]. split; [lia|done].
      * split; [done|]. split; [lia|done].
    + apply Nat.leb_gt in Eij. split; [done|]. split; [lia|]. lia.
Qed.

Lemma scan_down_spec n : forall d a b i j p,
  d !! a = Some p -> b <= length d -> S j - i <= n ->
  Sort.part_inv (fun x => less x p) d a b i j ->
  let j' := scan_down less n d a i j in
  Sort.part_inv (fun x => less x p) d a b i j' /\ j' <= j /\
  (i <= j' -> Less d j' a = true).
Proof.
  induction n as [|n IH]; intros d a b i j p Hp Hb Hn Inv; simpl.
  - split; [done|]. split; [done|]. lia.
  - destruct (i <=? j) eqn:Eij; simpl.
    + apply Nat.leb_le in Eij. destruct (Less d j a) eqn:El; simpl.
      * split; [done|]. split; [lia|done].
      * destruct Inv as (I1 & I2 & I3 & I4 & I5).
        destruct (IH d a b i (j - 1) p) as (Inv' & Hle & Hst); try done; try lia.
        { repeat split; try lia; [done|].
          intros k x H1 H2 Hx. destruct (decide (k = j)) as [->|Hne].
          - by rewrite (Less_lookup d j a x p) in El.
          - apply (I5 k); [lia|lia|done]. }
        split; [done|]. split; [lia|done].
    + apply Nat.leb_gt in Eij. split; [done|]. split; [lia|]. lia.
Qed.

Lemma part_inv_Swap (lo : A -> bool) d a b i j x y :
  Sort.part_inv lo d a b i j -> i < j -> j < length d ->
  d !! i = Some x -> d !! j = Some y -> lo x = false -> lo y = true ->
  Sort.part_inv lo (Swap d i j) a b (S i) (j - 1).
Proof.
  intros (I1 & I2 & I3 & I4 & I5) Hij Hj Hx Hy Lx Ly.
  repeat split; try lia.
  - intros k z H1 H2. rewrite Swap_lookup by lia.
    repeat case_decide; subst; try lia; intros Hz.
    + by simplify_eq.
    + apply (I4 k); [lia|lia|done].
  - intros k z H1 H2. rewrite Swap_lookup by lia.
    repeat case_decide; subst; try lia; intros Hz.
    + by simplify_eq.
    + apply (I5 k); [lia|lia|done].
Qed.

Lemma partition_loop_spec n : forall d a b i j p,
  d !! a = Some p -> b <= length d -> S j - i < n ->
  Sort.part_inv (fun x => less x p) d a b i j ->
  let '(d', j') := partition_loop less n d a i j in
  Sort.within (S a) b d d' /\
  Sort.part_inv (fun x => less x p) d' a b (S j') j'.
Proof.
  induction n as [|n IH]; intros d a b i j p Hp Hb Hn Inv; [lia|].
  simpl.
  destruct (scan_up_spec (S j - i) d a b i j p) as (Inv1 & Hi & Hsi); try done.
  set (i' := scan_up less (S j - i) d a i j) in *.
  destruct (scan_down_spec (S j - i') d a b i' j p) as (Inv2 & Hj & Hsj); try done.
  set (j' := scan_down less (S j - i') d a i' j) in *.
  destruct (j' <? i') eqn:E.
  - apply Nat.ltb_lt in E. split; [apply within_refl|].
    destruct Inv2 as (I1 & I2 & I3 & I4 & I5).
    replace (S j') with i' by lia. done.
  - apply Nat.ltb_ge in E.
    pose proof Inv2 as (I1 & I2 & I3 & I4 & I5).
    destruct (lookup_lt_is_Some_2 d i') as [x Hx]; [lia|].
    destruct (lookup_lt_is_Some_2 d j') as [y Hy]; [lia|].
    specialize (Hsi ltac:(lia)). specialize (Hsj E).
    rewrite (Less_lookup d i' a x p Hx Hp) in Hsi.
    rewrite (Less_lookup d j' a y p Hy Hp) in Hsj.
    assert (i' <> j') by (intros Heq; rewrite Heq in Hx; congruence).
    specialize (IH (Swap d i' j') a b (S i') (j' - 1) p).
    destruct (partition_loop less n (Swap d i' j') a (S i') (j' - 1)) as [d' j''].
    destruct IH as [W Inv3].
    + rewrite Swap_lookup_other by lia. done.
    + by rewrite Swap_length.
    + lia.
    + eapply part_inv_Swap; eauto; lia.
    + split; [|done]. eapply within_trans; [|exact W].
      apply within_Swap; lia.
Qed.

Lemma partition_finish d a b j p :
  d !! a = Some p -> b <= length d ->
  Sort.part_inv (fun x => less x p) d a b (S j) j ->
  Sort.within a b d (Swap d j a) /\ a <= j /\ j < b /\
  Swap d j a !! j = Some p /\
  (forall k x, a <= k -> k < j -> Swap d j a !! k = Some x -> less x p = true) /\
  (forall k x, j < k -> k < b -> Swap d j a !! k = Some x -> less x p = false).
Proof.
  intros Hp Hb (I1 & I2 & I3 & I4 & I5).
  split; [apply within_Swap; lia|].
  split; [lia|]. split; [done|].
  split; [rewrite Swap_lookup by lia; by case_decide|].
  split.
  - intros k x H1 H2. rewrite Swap_lookup by lia.
    repeat case_decide; subst; try lia; intros Hx.
    + apply (I4 j); [lia|lia|done].
    + apply (I4 k); [lia|lia|done].
  - intros k x H1 H2. rewrite Swap_lookup by lia.
    repeat case_decide; subst; try lia; intros Hx.
    apply (I5 k); [lia|lia|done].
Qed.

Lemma partition_spec d a b pivot p :
  a <= pivot -> pivot < b -> b <= length d -> d !! pivot = Some p ->
  let '(d', mid, _) := partition_func less d a b pivot in
  Sort.within a b d d' /\ a <= mid /\ mid < b /\ d' !! mid = Some p /\
  (forall k x, a <= k -> k < mid -> d' !! k = Some x -> less x p = true) /\
  (forall k x, mid < k -> k < b -> d' !! k = Some x -> less x p = false).
Proof.
  intros Ha Hpb Hb Hp. unfold partition_func.
  set (d0 := Swap d a pivot).
  assert (W0 : Sort.within a b d d0) by (apply within_Swap; lia).
  assert (Hl0 : b <= length d0) by (unfold d0; by rewrite Swap_length).
  assert (Hp0 : d0 !! a = Some p).
  { unfold d0. rewrite Swap_lookup by lia. by case_decide. }
  assert (Inv0 : Sort.part_inv (fun x => less x p) d0 a b (a + 1) (b - 1)).
  { repeat split; try lia; intros k x H1 H2; lia. }
  destruct (scan_up_spec (S (b - 1) - (a + 1)) d0 a b (a + 1) (b - 1) p)
    as (Inv1 & Hi & Hsi); try done.
  set (i' := scan_up less (S (b - 1) - (a + 1)) d0 a (a + 1) (b - 1)) in *.
  destruct (scan_down_spec (S (b - 1) - i') d0 a b i' (b - 1) p)
    as (Inv2 & Hj & Hsj); try done.
  set (j' := scan_down less (S (b - 1) - i') d0 a i' (b - 1)) in *.
  pose proof Inv2 as (I1 & I2 & I3 & I4 & I5).
  destruct (j' <? i') eqn:E.
  - apply Nat.ltb_lt in E.
    replace i' with (S j') in Inv2 by lia.
    destruct (partition_finish d0 a b j' p Hp0 Hl0 Inv2) as (W & R).
    split; [by eapply within_trans|done].
  - apply Nat.ltb_ge in E.
    destruct (lookup_lt_is_Some_2 d0 i') as [x Hx]; [lia|].
    destruct (lookup_lt_is_Some_2 d0 j') as [y Hy]; [lia|].
    specialize (Hsi ltac:(lia)). specialize (Hsj E).
    rewrite (Less_lookup d0 i' a x p Hx Hp0) in Hsi.
    rewrite (Less_lookup d0 j' a y p Hy Hp0) in Hsj.
    assert (i' <> j') by (intros Heq; rewrite Heq in Hx; congruence).
    pose proof (partition_loop_spec (b - a) (Swap d0 i' j') a b (S i') (j' - 1) p)
      as HL.
    destruct (partition_loop less (b - a) (Swap d0 i' j') a (S i') (j' - 1))
      as [d2 j2].
    destruct HL as [W2 Inv3].
    + rewrite Swap_lookup_other by lia. done.
    + by rewrite Swap_length.
    + lia.
    + eapply part_inv_Swap; eauto; lia.
    + assert (W02 : Sort.within a b d0 d2).
      { eapply within_trans; [apply (within_Swap a b d0 i' j'); lia|].
        eapply within_weaken; [| |exact W2]; lia. }
      assert (Hp2 : d2 !! a = Some p).
      { destruct W2 as [_ F]. rewrite F by lia.
        rewrite Swap_lookup_other by lia. done. }
      assert (Hl2 : b <= length d2).
      { rewrite (within_length _ _ _ _ W02). done. }
      destruct (partition_finish d2 a b j2 p Hp2 Hl2 Inv3) as (W & R).
      split; [|done].
      eapply within_trans; [exact W0|]. by eapply within_trans.
Qed.

(** *** [partitionEqual_func] *)

Lemma scan_up_eq_spec n : forall d a b i j p,
  d !! a = Some p -> b <= length d -> S j - i <= n ->
  Sort.part_inv (fun x => negb (less p x)) d a b i j ->
  let i' := scan_up_eq less n d a i j in
  Sort.part_inv (fun x => negb (less p x)) d a b i' j /\ i <= i' /\
  (i' <= j -> Less d a i' = true).
Proof.
  induction n as [|n IH]; intros d a b i j p Hp Hb Hn Inv; simpl.
  - split; [done|]. split; [done|]. lia.
  - destruct (i <=? j) eqn:Eij; simpl.
    + apply Nat.leb_le in Eij. destruct (Less d a i) eqn:El; simpl.
      * split; [done|]. split; [lia|done].
      * destruct Inv as (I1 & I2 & I3 & I4 & I5).
        destruct (IH d a b (S i) j p) as (Inv' & Hle & Hst); try done; try lia.
        { repeat split; try lia; [|done].
          intros k x H1 H2 Hx. destruct (decide (k = i)) as [->|Hne].
          - rewrite (Less_lookup d a i p x) in El by done. by rewrite El.
          - apply (I4 k); [lia|lia|done]. }
        split; [done|]. split; [lia|done].
    + apply Nat.leb_gt in Eij. split; [done|]. split; [lia|]. lia.
Qed.

Lemma scan_down_eq_spec n : forall d a b i j p,
  d !! a = Some p -> b <= length d -> S j - i <= n ->
  Sort.part_inv (fun x => negb (less p x)) d a b i j ->
  let j' := scan_down_eq less n d a i j in
  Sort.part_inv (fun x => negb (less p x)) d a b i j' /\ j' <= j /\
  (i <= j' -> Less d a j' = false).
Proof.
  induction n as [|n IH]; intros d a b i j p Hp Hb Hn Inv; simpl.
  - split; [done|]. split; [done|]. lia.
  - destruct (i <=? j) eqn:Eij; simpl.
    + apply Nat.leb_le in Eij. destruct (Less d a j) eqn:El; simpl.
      * destruct Inv as (I1 & I2 & I3 & I4 & I5).
        destruct (IH d a b i (j - 1) p) as (Inv' & Hle & Hst); try done; try lia.
        { repeat split; try lia; [done|].
          intros k x H1 H2 Hx. destruct (decide (k = j)) as [->|Hne].
          - rewrite (Less_lookup d a j p x) in El by done. by rewrite El.
          - apply (I5 k); [lia|lia|done]. }
        split; [done|]. split; [lia|done].
      * split; [done|]. split; [lia|done].
    + apply Nat.leb_gt in Eij. split; [done|]. split; [lia|]. lia.
Qed.

Lemma partitionEqual_loop_spec n : forall d a b i j p,
  d !! a = Some p -> b <= length d -> S j - i < n ->
  Sort.part_inv (fun x => negb (less p x)) d a b i j ->
  let '(d', i') := partitionEqual_loop less n d a i j in
  Sort.within (S a) b d d' /\
  Sort.part_inv (fun x => negb (less p x)) d' a b i' (i' - 1).
Proof.
  induction n as [|n IH]; intros d a b i j p Hp Hb Hn Inv; [lia|].
  simpl.
  destruct (scan_up_eq_spec (S j - i) d a b i j p) as (Inv1 & Hi & Hsi); try done.
  set (i' := scan_up_eq less (S j - i) d a i j) in *.
  destruct (scan_down_eq_spec (S j - i') d a b i' j p) as (Inv2 & Hj & Hsj); try done.
  set (j' := scan_down_eq less (S j - i') d a i' j) in *.
  destruct (j' <? i') eqn:E.
  - apply Nat.ltb_lt in E. split; [apply within_refl|].
    destruct Inv2 as (I1 & I2 & I3 & I4 & I5).
    replace (i' - 1) with j' by lia. done.
  - apply Nat.ltb_ge in E.
    pose proof Inv2 as (I1 & I2 & I3 & I4 & I5).
    destruct (lookup_lt_is_Some_2 d i') as [x Hx]; [lia|].
    destruct (lookup_lt_is_Some_2 d j') as [y Hy]; [lia|].
    specialize (Hsi ltac:(lia)). specialize (Hsj E).
    rewrite (Less_lookup d a i' p x Hp Hx) in Hsi.
    rewrite (Less_lookup d a j' p y Hp Hy) in Hsj.
    assert (i' <> j') by (intros Heq; rewrite Heq in Hx; congruence).
    specialize (IH (Swap d i' j') a b (S i') (j' - 1) p).
    destruct (partitionEqual_loop less n (Swap d i' j') a (S i') (j' - 1)) as [d' i''].
    destruct IH as [W Inv3].
    + rewrite Swap_lookup_other by lia. done.
    + by rewrite Swap_length.
    + lia.
    + eapply part_inv_Swap; eauto; try lia; [by rewrite Hsi | by rewrite Hsj].
    + split; [|done]. eapply within_trans; [|exact W].
      apply within_Swap; lia.
Qed.

Lemma partitionEqual_spec d a b pivot p :
  a <= pivot -> pivot < b -> b <= length d -> d !! pivot = Some p ->
  let '(d', mid) := partitionEqual_func less d a b pivot in
  Sort.within a b d d' /\ a < mid /\ mid <= b /\
  (forall k x, a <= k -> k < mid -> d' !! k = Some x -> less p x = false) /\
  (forall k x, mid <= k -> k < b -> d' !! k = Some x -> less p x = true).
Proof.
  intros Ha Hpb Hb Hp. unfold partitionEqual_func.
  set (d0 := Swap d a pivot).
  assert (W0 : Sort.within a b d d0) by (apply within_Swap; lia).
  assert (Hl0 : b <= length d0) by (unfold d0; by rewrite Swap_length).
  assert (Hp0 : d0 !! a = Some p).
  { unfold d0. rewrite Swap_lookup by lia. by case_decide. }
  pose proof (partitionEqual_loop_spec (S (b - a)) d0 a b (a + 1) (b - 1) p) as HL.
  destruct (partitionEqual_loop less (S (b - a)) d0 a (a + 1) (b - 1)) as [d' mid].
  destruct HL as [W (I1 & I2 & I3 & I4 & I5)]; try done; try lia.
  { repeat split; try lia; intros k x H1 H2; lia. }
  split.
  { eapply within_trans; [exact W0|]. eapply within_weaken; [| |exact W]; lia. }
  split; [lia|]. split; [lia|].
  split.
  - intros k x H1 H2 Hx. destruct (decide (k = a)) as [->|Hne].
    + destruct W as [_ F]. rewrite F in Hx by lia.
      assert (x = p) as -> by congruence. apply (Sort.less_irrefl _ SWO).
    + apply negb_true_iff. apply (I4 k); [lia|lia|done].
  - intros k x H1 H2 Hx. apply negb_false_iff. apply (I5 k); [lia|lia|done].
Qed.

(** *** [partialInsertionSort_func] *)

Lemma lower_bound_within d d' a b :
  Sort.within a b d d' -> Sort.lower_bound less d a b -> Sort.lower_bound less d' a b.
Proof.
  intros W LB k x y Ha H1 H2 Hx Hy.
  destruct (within_elem a b d d' k x W ltac:(lia) Hx) as (k' & Hk' & Hx').
  destruct W as [_ F]. rewrite F in Hy by lia.
  apply (LB k' x y); auto; lia.
Qed.

Lemma sorted_range_frame d d' a i b :
  Sort.within i b d d' -> sorted_range d a i -> sorted_range d' a i.
Proof.
  intros [_ F] Hs i1 i2 x y H1 H2 H3. rewrite !F by lia. by apply Hs.
Qed.

Lemma sorted_range_snoc d a i :
  a < i -> i < length d -> sorted_range d a i -> Less d i (i - 1) = false ->
  sorted_range d a (S i).
Proof.
  intros Hai Hi Hs Hl i1 i2 x y H1 H2 H3 Hx Hy.
  destruct (decide (i2 = i)) as [->|Hne]; [|apply (Hs i1 i2); auto; lia].
  destruct (lookup_lt_is_Some_2 d (i - 1)) as [z Hz]; [lia|].
  rewrite (Less_lookup d i (i - 1) y z Hy Hz) in Hl.
  destruct (decide (i1 = i - 1)) as [->|Hne]; [congruence|].
  apply (Sort.less_negtrans _ SWO y z x); [done|].
  apply (Hs i1 (i - 1)); auto; lia.
Qed.

Lemma sorted_prefix_scan_spec n : forall d a i b,
  a < i -> i <= b -> b <= length d -> b - i <= n -> sorted_range d a i ->
  let i' := sorted_prefix_scan less n d i b in
  i <= i' /\ i' <= b /\ sorted_range d a i' /\
  (i' < b -> Less d i' (i' - 1) = true).
Proof.
  induction n as [|n IH]; intros d a i b Hai Hib Hb Hn Hs; simpl.
  - repeat split; try done. lia.
  - destruct (i <? b) eqn:E; simpl.
    + apply Nat.ltb_lt in E. destruct (Less d i (i - 1)) eqn:El; simpl.
      * repeat split; done.
      * destruct (IH d a (S i) b) as (H1 & H2 & H3 & H4); try lia.
        { apply sorted_range_snoc; auto; lia. }
        repeat split; try done. lia.
    + apply Nat.ltb_ge in E. repeat split; try done. lia.
Qed.

Lemma shift_left_insertion j : forall d a b,
  a <= j -> j < b -> b <= length d -> Sort.lower_bound less d a b ->
  shift_left less d j = insertion_inner less d a j.
Proof.
  induction j as [|j IH]; intros d a b Haj Hjb Hb LB; simpl; [done|].
  destruct (lookup_lt_is_Some_2 d (S j)) as [e He]; [lia|].
  destruct (lookup_lt_is_Some_2 d j) as [q Hq]; [lia|].
  rewrite (Less_lookup d (S j) j e q He Hq).
  destruct (a <? S j) eqn:Ea; simpl.
  - apply Nat.ltb_lt in Ea. destruct (less e q) eqn:El; simpl; [|done].
    apply (IH _ a b); try lia.
    + by rewrite Swap_length.
    + eapply lower_bound_within; [|exact LB]. apply within_Swap; lia.
  - apply Nat.ltb_ge in Ea. assert (a = S j) as -> by lia.
    assert (less e q = false) as ->; [|done].
    apply (LB (S j) e q); auto; try lia.
    by replace (S j - 1) with j by lia.
Qed.

Lemma shift_right_within n : forall d i j b,
  i < j -> j + n <= b -> Sort.within i b d (shift_right less n d j).
Proof.
  induction n as [|n IH]; intros d i j b Hij Hb; simpl; [apply within_refl|].
  destruct (Less d j (j - 1)); simpl; [|apply within_refl].
  eapply within_trans; [apply (within_Swap i b d j (j - 1)); lia|].
  apply IH; lia.
Qed.

Lemma partialInsertionSort_loop_spec steps : forall d a b i,
  a < i -> i <= b -> b <= length d ->
  Sort.lower_bound less d a b -> sorted_range d a i ->
  let '(d', ok) := partialInsertionSort_loop less steps d a b i in
  Sort.within a b d d' /\ (ok = true -> sorted_range d' a b).
Proof.
  induction steps as [|steps IH]; intros d a b i Hai Hib Hb LB Hs;
    cbn [partialInsertionSort_loop].
  { split; [apply within_refl|done]. }
  destruct (sorted_prefix_scan_spec (b - i) d a i b) as (H1 & H2 & H3 & H4);
    try done.
  set (i' := sorted_prefix_scan less (b - i) d i b) in *.
  destruct (i' =? b) eqn:E.
  { apply Nat.eqb_eq in E. rewrite E in H3. split; [apply within_refl|done]. }
  apply Nat.eqb_neq in E.
  destruct (b - a <? 50) eqn:E50.
  { split; [apply within_refl|done]. }
  set (d1 := Swap d i' (i' - 1)).
  assert (W1 : Sort.within a b d d1) by (apply within_Swap; lia).
  assert (Hl1 : length d1 = length d) by apply Swap_length.
  set (d2 := if 2 <=? i' - a then shift_left less d1 (i' - 1) else d1).
  assert (H12 : Sort.within a i' d1 d2 /\ sorted_range d2 a i').
  { unfold d2. destruct (2 <=? i' - a) eqn:E2.
    - apply Nat.leb_le in E2.
      rewrite (shift_left_insertion (i' - 1) d1 a b); try lia.
      2: { eapply lower_bound_within; [exact W1|exact LB]. }
      assert (Hi' : S (i' - 1) = i') by lia.
      pose proof (insertion_inner_spec (i' - 1) d1 a (i' - 1)) as HI.
      rewrite Hi' in HI. apply HI; try lia.
      + intros i1 i2 x y G1 G2 G3 N1 N2. unfold d1.
        rewrite !Swap_lookup_other by lia. apply H3; lia.
      + intros k y e G1 G2. lia.
    - apply Nat.leb_gt in E2. split; [apply within_refl|].
      intros i1 i2 x y G1 G2 G3. lia. }
  destruct H12 as [W2 S2].
  assert (Hl2 : length d2 = length d1) by by eapply within_length.
  set (d3 := if 2 <=? b - i' then shift_right less (b - (i' + 1)) d2 (i' + 1) else d2).
  assert (W3 : Sort.within i' b d2 d3).
  { unfold d3. destruct (2 <=? b - i'); [|apply within_refl].
    apply shift_right_within; lia. }
  assert (W : Sort.within a b d d3).
  { eapply within_trans; [exact W1|].
    eapply within_trans; [eapply within_weaken; [| |exact W2]; lia|].
    eapply within_weaken; [| |exact W3]; lia. }
  specialize (IH d3 a b i').
  destruct (partialInsertionSort_loop less steps d3 a b i') as [d' ok].
  destruct IH as [W' Hok]; try lia.
  - rewrite (within_length _ _ _ _ W). done.
  - eapply lower_bound_within; [exact W|exact LB].
  - eapply sorted_range_frame; [exact W3|exact S2].
  - split; [by eapply within_trans|done].
Qed.

Lemma partialInsertionSort_spec d a b :
  a < b -> b <= length d -> Sort.lower_bound less d a b ->
  let '(d', ok) := partialInsertionSort_func less d a b in
  Sort.within a b d d' /\ (ok = true -> sorted_range d' a b).
Proof.
  intros Hab Hb LB. unfold partialInsertionSort_func.
  apply partialInsertionSort_loop_spec; try done; try lia.
  intros i j x y H1 H2 H3. lia.
Qed.

(** *** [heapSort_func] *)

Lemma siftDown_loop_spec n : forall d lo hi first root,
  first + hi <= length d -> lo <= root -> hi - root <= n ->
  Sort.heap_except less d first lo hi root ->
  Sort.within (first + lo) (first + hi) d (siftDown_loop less n d root hi first) /\
  Sort.heap less (siftDown_loop less n d root hi first) first lo hi.
Proof.
  induction n as [|n IH]; intros d lo hi first root Hlen Hlo Hn [H1 H2].
  { simpl. split; [apply within_refl|].
    intros r c Hr Hc Hch. apply H1; auto. unfold Sort.child_of in Hch. lia. }
  cbn [siftDown_loop].
  destruct (hi <=? 2 * root + 1) eqn:Ehi.
  { apply Nat.leb_le in Ehi. split; [apply within_refl|].
    intros r c Hr Hc Hch. apply H1; auto. unfold Sort.child_of in Hch. lia. }
  apply Nat.leb_gt in Ehi.
  set (left := 2 * root + 1) in *.
  destruct (lookup_lt_is_Some_2 d (first + root)) as [xr Hxr]; [lia|].
  destruct (lookup_lt_is_Some_2 d (first + left)) as [xl Hxl]; [lia|].
  set (cs := if (left + 1 <? hi) && Less d (first + left) (first + left + 1)
             then left + 1 else left).
  assert (Hcs : (cs = left /\
                 (forall y, left + 1 < hi -> d !! (first + (left + 1)) = Some y ->
                            less xl y = false)) \/
                (cs = left + 1 /\ left + 1 < hi /\
                 exists y, d !! (first + (left + 1)) = Some y /\ less xl y = true)).
  { unfold cs. destruct (left + 1 <? hi) eqn:E1; simpl.
    - apply Nat.ltb_lt in E1.
      destruct (lookup_lt_is_Some_2 d (first + (left + 1))) as [y Hy]; [lia|].
      replace (first + left + 1) with (first + (left + 1)) by lia.
      rewrite (Less_lookup d _ _ xl y Hxl Hy).
      destruct (less xl y) eqn:E2.
      + right. eauto.
      + left. split; [done|]. intros y' _ Hy'. congruence.
    - apply Nat.ltb_ge in E1. left. split; [done|]. intros y Hlt. lia. }
  clearbody cs.
  assert (Hrange : root < cs /\ cs < hi /\ Sort.child_of root cs).
  { unfold Sort.child_of. destruct Hcs as [[-> _]|(-> & ? & _)]; lia. }
  destruct Hrange as (Hrc & Hch & Hchild).
  destruct (lookup_lt_is_Some_2 d (first + cs)) as [xc Hxc]; [lia|].
  (* the chosen child dominates both children *)
  assert (Hmax : forall c y, c < hi -> Sort.child_of root c ->
                   d !! (first + c) = Some y -> less xc y = false).
  { intros c y Hc Hcc Hy. destruct Hcs as [[-> Hl]|(-> & Hlt & y' & Hy' & Hl)].
    - destruct Hcc as [-> | ->].
      + assert (y = xc) as -> by (unfold left in *; congruence).
        apply (Sort.less_irrefl _ SWO).
      + assert (xc = xl) as -> by congruence.
        apply Hl; [unfold left; lia|].
        by replace (first + (left + 1)) with (first + (2 * root + 2)) by (unfold left; lia).
    - assert (xc = y') as -> by congruence.
      destruct Hcc as [-> | ->].
      + assert (y = xl) as -> by (unfold left in *; congruence).
        by apply less_asym.
      + replace (first + (2 * root + 2)) with (first + (left + 1)) in Hy
          by (unfold left; lia).
        assert (y = y') as -> by congruence. apply (Sort.less_irrefl _ SWO). }
  rewrite (Less_lookup d _ _ xr xc Hxr Hxc).
  destruct (less xr xc) eqn:Erc; simpl.
  - (* the root goes down to the chosen child *)
    assert (HS : forall k, Swap d (first + root) (first + cs) !! k =
        if decide (k = first + root) then Some xc
        else if decide (k = first + cs) then Some xr else d !! k).
    { intros k. rewrite Swap_lookup by lia. rewrite Hxc, Hxr. done. }
    destruct (IH (Swap d (first + root) (first + cs)) lo hi first cs) as [W Hh];
      try lia.
    { rewrite Swap_length. lia. }
    { split.
      - intros r c Hr Hc Hrc' Hne x y. rewrite !HS.
        repeat case_decide; intros Hx Hy;
          try (injection Hx as <-); try (injection Hy as <-);
          try (exfalso; unfold Sort.child_of in *; lia);
          first [ by apply less_asym
                | apply (Hmax c); solve [done | unfold Sort.child_of in *; lia]
                | apply (H2 r cs); solve [done | unfold Sort.child_of in *; lia]
                | apply (H1 r c); solve [done | unfold Sort.child_of in *; lia] ].
      - intros g c Hg Hc Hgc Hcc x y. rewrite !HS.
        assert (g = root) as -> by (unfold Sort.child_of in *; lia).
        repeat case_decide; intros Hx Hy;
          try (injection Hx as <-); try (injection Hy as <-);
          try (exfalso; unfold Sort.child_of in *; lia).
        apply (H1 cs c); solve [done | unfold Sort.child_of in *; lia]. }
    split; [|done].
    eapply within_trans; [|exact W]. apply within_Swap; lia.
  - split; [apply within_refl|].
    intros r c Hr Hc Hrc' x y Hx Hy.
    destruct (decide (r = root)) as [->|Hne]; [|by apply (H1 r c)].
    assert (x = xr) as -> by congruence.
    apply (Sort.less_negtrans _ SWO xr xc y); [done|].
    by apply (Hmax c).
Qed.

Lemma siftDown_spec d lo hi first :
  first + hi <= length d -> Sort.heap less d first (S lo) hi ->
  Sort.within (first + lo) (first + hi) d (siftDown_func less d lo hi first) /\
  Sort.heap less (siftDown_func less d lo hi first) first lo hi.
Proof.
  intros Hlen Hh. unfold siftDown_func.
  apply siftDown_loop_spec; try lia. split.
  - intros r c Hr Hc Hch Hne. apply Hh; auto. lia.
  - intros g c Hg Hc Hch. unfold Sort.child_of in Hch. lia.
Qed.

Lemma heap_build_spec i : forall d hi first,
  first + hi <= length d -> Sort.heap less d first (S i) hi ->
  Sort.within first (first + hi) d (heap_build less d i hi first) /\
  Sort.heap less (heap_build less d i hi first) first 0 hi.
Proof.
  induction i as [|i IH]; intros d hi first Hlen Hh; cbn [heap_build].
  - destruct (siftDown_spec d 0 hi first Hlen Hh) as [W H'].
    split; [|done]. eapply within_weaken; [| |exact W]; lia.
  - destruct (siftDown_spec d (S i) hi first Hlen Hh) as [W H'].
    destruct (IH (siftDown_func less d (S i) hi first) hi first) as [W' H''].
    { rewrite (within_length _ _ _ _ W). done. }
    { done. }
    split; [|done]. eapply within_trans; [|exact W'].
    eapply within_weaken; [| |exact W]; lia.
Qed.

Lemma heap_root_max d first n :
  first + n <= length d -> Sort.heap less d first 0 n ->
  forall k, k < n -> Sort.not_below less d first (first + k).
Proof.
  intros Hlen Hh k. induction k as [k IH] using lt_wf_ind. intros Hk x y Hx Hy.
  destruct (decide (k = 0)) as [->|Hne].
  - rewrite Nat.add_0_r in Hy. assert (x = y) as -> by congruence.
    apply (Sort.less_irrefl _ SWO).
  - pose proof (Nat.div_mod_eq (k - 1) 2) as Hd.
    pose proof (Nat.mod_upper_bound (k - 1) 2 ltac:(lia)) as Hr.
    set (r := (k - 1) / 2) in *.
    destruct (lookup_lt_is_Some_2 d (first + r)) as [z Hz]; [lia|].
    apply (Sort.less_negtrans _ SWO x z y).
    + apply (IH r); auto; lia.
    + apply (Hh r k); auto; [lia|]. unfold Sort.child_of. lia.
Qed.

Lemma heap_pop_step d first i hi :
  i < hi -> first + hi <= length d ->
  Sort.heap less d first 0 (S i) ->
  sorted_range d (first + S i) (first + hi) ->
  Sort.popped_above less d first (S i) hi ->
  let d2 := siftDown_func less (Swap d first (first + i)) 0 i first in
  Sort.within first (first + hi) d d2 /\
  Sort.heap less d2 first 0 i /\
  sorted_range d2 (first + i) (first + hi) /\
  Sort.popped_above less d2 first i hi.
Proof.
  intros Hi Hlen Hh Hs Hp d2.
  set (d1 := Swap d first (first + i)).
  assert (HS : forall k, d1 !! k =
      if decide (k = first) then d !! (first + i)
      else if decide (k = first + i) then d !! first else d !! k).
  { intros k. unfold d1. by rewrite Swap_lookup by lia. }
  assert (Hl1 : length d1 = length d) by apply Swap_length.
  destruct (siftDown_spec d1 0 i first) as [W2 Hh2]; [lia| |].
  { intros r c Hr Hc Hch x y. rewrite !HS.
    repeat case_decide; try (unfold Sort.child_of in *; lia).
    apply (Hh r c); auto; lia. }
  fold d2 in W2, Hh2. rewrite Nat.add_0_r in W2.
  assert (Hl2 : length d2 = length d1) by by eapply within_length.
  (* the old root sits at [first + i] and dominates the heap *)
  assert (Hroot : forall k x y, k <= i -> d !! (first + k) = Some x ->
            d !! first = Some y -> less y x = false).
  { intros k x y Hk Hx Hy.
    apply (heap_root_max d first (S i) ltac:(lia) Hh k ltac:(lia) y x); auto. }
  assert (Hfr : forall m, i <= m -> d2 !! (first + m) =
            if decide (m = i) then d !! first else d !! (first + m)).
  { intros m Hm. destruct W2 as [_ F]. rewrite F by lia. rewrite HS.
    repeat case_decide; try lia; try done. f_equal. lia. }
  assert (Hheap : forall k x, k < i -> d2 !! (first + k) = Some x ->
            exists k', k' <= i /\ d !! (first + k') = Some x).
  { intros k x Hk Hx.
    destruct (within_elem first (first + i) d1 d2 (first + k) x W2 ltac:(lia) Hx)
      as (k' & Hk' & Hx').
    rewrite HS in Hx'. repeat case_decide; try lia.
    - exists i. split; [lia|done].
    - exists (k' - first). split; [lia|].
      by replace (first + (k' - first)) with k' by lia. }
  split; [|split; [done|split]].
  - eapply within_trans; [apply (within_Swap first (first + hi) d first (first + i)); lia|].
    eapply within_weaken; [| |exact W2]; lia.
  - intros j1 j2 x y G1 G2 G3.
    replace j1 with (first + (j1 - first)) by lia.
    replace j2 with (first + (j2 - first)) by lia.
    rewrite !Hfr by lia. repeat case_decide; try lia; intros Hx Hy.
    + apply (Hp 0 (j2 - first)); auto; try lia. by rewrite Nat.add_0_r.
    + apply (Hs (first + (j1 - first)) (first + (j2 - first))); auto; lia.
  - intros k m x y Hk Hm1 Hm2 Hx. rewrite Hfr by lia.
    destruct (Hheap k x Hk Hx) as (k' & Hk' & Hx').
    case_decide; intros Hy.
    + by apply (Hroot k').
    + apply (Hp k' m); auto; lia.
Qed.

Lemma heap_pop_spec i : forall d first hi,
  i < hi -> first + hi <= length d ->
  Sort.heap less d first 0 (S i) ->
  sorted_range d (first + S i) (first + hi) ->
  Sort.popped_above less d first (S i) hi ->
  Sort.within first (first + hi) d (heap_pop less d i first) /\
  sorted_range (heap_pop less d i first) first (first + hi).
Proof.
  induction i as [|i IH]; intros d first hi Hi Hlen Hh Hs Hp; cbn [heap_pop].
  - destruct (heap_pop_step d first 0 hi Hi Hlen Hh Hs Hp) as (W & _ & S' & _).
    rewrite Nat.add_0_r in *. done.
  - destruct (heap_pop_step d first (S i) hi Hi Hlen Hh Hs Hp) as (W & H' & S' & P').
    set (d2 := siftDown_func less (Swap d first (first + S i)) 0 (S i) first) in *.
    destruct (IH d2 first hi) as [W' S'']; try done; try lia.
    { rewrite (within_length _ _ _ _ W). done. }
    split; [by eapply within_trans|done].
Qed.

Lemma heapSort_spec d a b :
  a < b -> b <= length d ->
  Sort.within a b d (heapSort_func less d a b) /\
  sorted_range (heapSort_func less d a b) a b.
Proof.
  intros Hab Hb. unfold heapSort_func.
  pose proof (Nat.div_mod_eq (b - a - 1) 2) as Hd.
  pose proof (Nat.mod_upper_bound (b - a - 1) 2 ltac:(lia)) as Hr.
  destruct (heap_build_spec ((b - a - 1) / 2) d (b - a) a) as [W Hh]; [lia| |].
  { intros r c Hr' Hc Hch. unfold Sort.child_of in Hch. lia. }
  set (d1 := heap_build less d ((b - a - 1) / 2) (b - a) a) in *.
  replace (a + (b - a)) with b in W by lia.
  destruct (heap_pop_spec (b - a - 1) d1 a (b - a)) as [W' S'].
  - lia.
  - rewrite (within_length _ _ _ _ W). lia.
  - by replace (S (b - a - 1)) with (b - a) by lia.
  - intros i j x y H1 H2 H3. lia.
  - intros k m x y H1 H2 H3. lia.
  - replace (a + (b - a)) with b in * by lia.
    split; [by eapply within_trans|done].
Qed.

(** *** [pdqsort_func] *)

Lemma lower_bound_weaken d a b b' :
  b' <= b -> Sort.lower_bound less d a b -> Sort.lower_bound less d a b'.
Proof. intros Hb LB k x y Ha H1 H2. apply LB; auto; lia. Qed.

Lemma sorted_range_within_frame d d' a b lo hi :
  Sort.within lo hi d d' -> (hi <= a \/ b <= lo) ->
  sorted_range d a b -> sorted_range d' a b.
Proof.
  intros [_ F] Hd Hs i j x y H1 H2 H3. rewrite !F by lia. by apply Hs.
Qed.

(** Two ordered halves around a pivot make an ordered whole. *)
Lemma sorted_combine d a mid b p :
  d !! mid = Some p ->
  sorted_range d a mid -> sorted_range d (S mid) b ->
  (forall k x, a <= k -> k < mid -> d !! k = Some x -> less x p = true) ->
  (forall k x, mid < k -> k < b -> d !! k = Some x -> less x p = false) ->
  sorted_range d a b.
Proof.
  intros Hp Sl Sr Hl Hr i j x y H1 H2 H3 Hx Hy.
  destruct (decide (j < mid)); [apply (Sl i j); auto|].
  destruct (decide (mid < i)); [apply (Sr i j); auto; lia|].
  destruct (decide (i = mid)) as [->|Hi].
  { assert (x = p) as -> by congruence. apply (Hr j); auto; lia. }
  assert (Hxp : less x p = true) by (apply (Hl i); auto; lia).
  destruct (decide (j = mid)) as [->|Hj].
  { assert (y = p) as -> by congruence. by apply less_asym. }
  assert (Hyp : less y p = false) by (apply (Hr j); auto; lia).
  destruct (less y x) eqn:E; [|done].
  by rewrite (Sort.less_trans _ SWO y x p E Hxp) in Hyp.
Qed.

(** A block of elements equivalent to the pivot followed by an ordered
    block of greater ones is ordered. *)
Lemma sorted_equal_then d a mid b p :
  sorted_range d mid b ->
  (forall k x, a <= k -> k < mid -> d !! k = Some x ->
     less p x = false /\ less x p = false) ->
  (forall k x, mid <= k -> k < b -> d !! k = Some x -> less p x = true) ->
  sorted_range d a b.
Proof.
  intros Sr Hl Hr i j x y H1 H2 H3 Hx Hy.
  destruct (decide (mid <= i)); [apply (Sr i j); auto|].
  destruct (Hl i x) as [Hpx Hxp]; auto; [lia|].
  destruct (decide (j < mid)).
  - destruct (Hl j y) as [Hpy Hyp]; auto; [lia|].
    by apply (Sort.less_negtrans _ SWO y p x).
  - assert (Hpy : less p y = true) by (apply (Hr j); auto; lia).
    destruct (less y x) eqn:E; [|done].
    by rewrite (Sort.less_trans _ SWO p y x Hpy E) in Hpx.
Qed.

Lemma pdqsort_spec fuel : forall d a b limit wb wp,
  a <= b -> b <= length d -> b - a < fuel -> Sort.lower_bound less d a b ->
  Sort.within a b d (pdqsort_func less fuel d a b limit wb wp) /\
  sorted_range (pdqsort_func less fuel d a b limit wb wp) a b.
Proof.
  induction fuel as [|fuel IH]; intros d a b limit wb wp Hab Hb Hf LB; [lia|].
  cbn [pdqsort_func].
  destruct (b - a <=? 12) eqn:E12; [by apply insertionSort_spec|].
  apply Nat.leb_gt in E12.
  destruct (limit =? 0) eqn:Elim; [apply heapSort_spec; lia|].
  (* breakPatterns *)
  set (st1 := if negb wb then (breakPatterns_func d a b, limit - 1) else (d, limit)).
  assert (W1 : Sort.within a b d st1.1).
  { unfold st1. destruct (negb wb); simpl;
      [apply breakPatterns_within|apply within_refl]. }
  destruct st1 as [d1 limit1]. simpl in W1.
  assert (Hl1 : b <= length d1) by (rewrite (within_length _ _ _ _ W1); done).
  (* choosePivot, reverseRange *)
  pose proof (choosePivot_range d1 a b ltac:(lia)) as Hpiv.
  destruct (choosePivot_func less d1 a b) as [pivot0 hint0]. simpl in Hpiv.
  set (st2 := match hint0 with
              | decreasingHint =>
                  (reverseRange_func d1 a b, b - 1 - (pivot0 - a), increasingHint)
              | _ => (d1, pivot0, hint0)
              end).
  assert (W2 : Sort.within a b d1 st2.1.1 /\ a <= st2.1.2 /\ st2.1.2 < b).
  { unfold st2. destruct hint0; simpl;
      (split; [first [apply reverseRange_within | apply within_refl]|lia]). }
  destruct st2 as [[d2 pivot] hint]. simpl in W2. destruct W2 as (W2 & Hp1 & Hp2).
  assert (W02 : Sort.within a b d d2) by by eapply within_trans.
  assert (Hl2 : b <= length d2) by (rewrite (within_length _ _ _ _ W02); done).
  assert (LB2 : Sort.lower_bound less d2 a b) by by eapply lower_bound_within.
  (* partialInsertionSort *)
  set (st3 := match wb && wp, hint with
              | true, increasingHint => partialInsertionSort_func less d2 a b
              | _, _ => (d2, false)
              end).
  assert (W3 : Sort.within a b d2 st3.1 /\ (st3.2 = true -> sorted_range st3.1 a b)).
  { unfold st3.
    pose proof (partialInsertionSort_spec d2 a b ltac:(lia) Hl2 LB2) as HP.
    destruct (partialInsertionSort_func less d2 a b) as [d' ok].
    destruct (wb && wp); [destruct hint|]; simpl;
      first [exact HP | split; [apply within_refl|done]]. }
  destruct st3 as [d3 sorted]. simpl in W3. destruct W3 as [W3 Hsorted].
  assert (W03 : Sort.within a b d d3) by by eapply within_trans.
  destruct sorted; [split; [done|by apply Hsorted]|].
  clear Hsorted.
  assert (Hl3 : b <= length d3) by (rewrite (within_length _ _ _ _ W03); done).
  assert (LB3 : Sort.lower_bound less d3 a b) by by eapply lower_bound_within.
  destruct (lookup_lt_is_Some_2 d3 pivot) as [p Hp]; [lia|].
  destruct ((0 <? a) && negb (Less d3 (a - 1) pivot)) eqn:Eeq.
  - (* many elements equal to the pivot *)
    apply andb_true_iff in Eeq as [Ea Eless].
    apply Nat.ltb_lt in Ea. apply negb_true_iff in Eless.
    destruct (lookup_lt_is_Some_2 d3 (a - 1)) as [q Hq]; [lia|].
    rewrite (Less_lookup d3 _ _ q p Hq Hp) in Eless.
    pose proof (partitionEqual_spec d3 a b pivot p Hp1 Hp2 Hl3 Hp) as HPE.
    destruct (partitionEqual_func less d3 a b pivot) as [d4 mid].
    destruct HPE as (W4 & Hm1 & Hm2 & Hleft & Hright).
    assert (Hl4 : b <= length d4) by (rewrite (within_length _ _ _ _ W4); done).
    assert (Hnb : forall k x, a <= k -> k < b -> d4 !! k = Some x -> less x p = false).
    { apply (within_forall a b d3 d4 (fun x => less x p = false) W4).
      intros k x Hk Hk' Hx. apply (Sort.less_negtrans _ SWO x q p); [|done].
      apply (LB3 k x q); auto; lia. }
    destruct (IH d4 mid b limit1 wb wp) as [W5 S5]; try lia.
    { intros k x y Hmid H1 H2 Hx Hy.
      assert (Hpx : less p x = true) by (apply (Hright k); auto).
      assert (Hpy : less p y = false) by (apply (Hleft (mid - 1)); auto; lia).
      destruct (less x y) eqn:E; [|done].
      by rewrite (Sort.less_trans _ SWO p x y Hpx E) in Hpy. }
    set (d5 := pdqsort_func less fuel d4 mid b limit1 wb wp) in *.
    split.
    { eapply within_trans; [exact W03|]. eapply within_trans; [exact W4|].
      eapply within_weaken; [| |exact W5]; lia. }
    apply (sorted_equal_then d5 a mid b p); [done| |].
    + intros k x H1 H2 Hx. destruct W5 as [_ F]. rewrite F in Hx by lia.
      split; [apply (Hleft k); auto|apply (Hnb k); auto; lia].
    + apply (within_forall mid b d4 d5 (fun x => less p x = true) W5).
      intros k x Hk Hk' Hx. apply (Hright k); auto; lia.
  - (* ordinary partition *)
    clear Eeq.
    pose proof (partition_spec d3 a b pivot p Hp1 Hp2 Hl3 Hp) as HPP.
    destruct (partition_func less d3 a b pivot) as [[d4 mid] ap].
    destruct HPP as (W4 & Hm1 & Hm2 & Hmid & Hleft & Hright).
    assert (W04 : Sort.within a b d d4) by by eapply within_trans.
    assert (Hl4 : b <= length d4) by (rewrite (within_length _ _ _ _ W04); done).
    assert (LB4 : Sort.lower_bound less d4 a b) by by eapply lower_bound_within.
    destruct (mid - a <? b - mid).
    + destruct (IH d4 a mid limit1 true true) as [W5 S5]; try lia.
      { by eapply lower_bound_weaken; [|exact LB4]; lia. }
      set (d5 := pdqsort_func less fuel d4 a mid limit1 true true) in *.
      assert (Hl5 : b <= length d5) by (rewrite (within_length _ _ _ _ W5); done).
      assert (Hmid5 : d5 !! mid = Some p).
      { destruct W5 as [_ F]. rewrite F by lia. done. }
      assert (Hright5 : forall k x, mid < k -> k < b -> d5 !! k = Some x ->
                less x p = false).
      { intros k x H1 H2 Hx. destruct W5 as [_ F]. rewrite F in Hx by lia.
        by apply (Hright k). }
      destruct (IH d5 (mid + 1) b limit1 (((b - a) / 8) <=? mid - a) ap)
        as [W6 S6]; try lia.
      { intros k x y _ H1 H2 Hx Hy.
        replace (mid + 1 - 1) with mid in Hy by lia.
        assert (y = p) as -> by congruence. apply (Hright5 k); auto; lia. }
      set (d6 := pdqsort_func less fuel d5 (mid + 1) b limit1 _ ap) in *.
      split.
      { eapply within_trans; [exact W04|].
        eapply within_trans; [eapply within_weaken; [| |exact W5]; lia|].
        eapply within_weaken; [| |exact W6]; lia. }
      apply (sorted_combine d6 a mid b p).
      * destruct W6 as [_ F]. rewrite F by lia. done.
      * eapply sorted_range_within_frame; [exact W6| |exact S5]. lia.
      * by replace (S mid) with (mid + 1) by lia.
      * intros k x H1 H2 Hx. destruct W6 as [_ F]. rewrite F in Hx by lia.
        revert k x H1 H2 Hx.
        assert (G : forall k x, a <= k -> k < mid -> d5 !! k = Some x -> less x p = true).
        { apply (within_forall a mid d4 d5 (fun x => less x p = true) W5).
          intros k x Hk Hk' Hx. apply (Hleft k); auto; lia. }
        intros k x H1 H2 Hx. apply (G k); auto.
      * assert (G : forall k x, mid + 1 <= k -> k < b -> d6 !! k = Some x ->
                  less x p = false).
        { apply (within_forall (mid + 1) b d5 d6 (fun x => less x p = false) W6).
          intros k x Hk Hk' Hx. apply (Hright5 k); auto; lia. }
        intros k x H1 H2 Hx. apply (G k); auto; lia.
    + destruct (IH d4 (mid + 1) b limit1 true true) as [W5 S5]; try lia.
      { intros k x y _ H1 H2 Hx Hy.
        replace (mid + 1 - 1) with mid in Hy by lia.
        assert (y = p) as -> by congruence. apply (Hright k); auto; lia. }
      set (d5 := pdqsort_func less fuel d4 (mid + 1) b limit1 true true) in *.
      assert (Hl5 : b <= length d5) by (rewrite (within_length _ _ _ _ W5); done).
      assert (W45 : Sort.within a b d4 d5).
      { eapply within_weaken; [| |exact W5]; lia. }
      destruct (IH d5 a mid limit1 (((b - a) / 8) <=? b - mid) ap)
        as [W6 S6]; try lia.
      { eapply lower_bound_weaken; [|eapply lower_bound_within; [exact W45|exact LB4]].
        lia. }
      set (d6 := pdqsort_func less fuel d5 a mid limit1 _ ap) in *.
      split.
      { eapply within_trans; [exact W04|].
        eapply within_trans; [exact W45|].
        eapply within_weaken; [| |exact W6]; lia. }
      apply (sorted_combine d6 a mid b p).
      * destruct W6 as [_ F]. rewrite F by lia.
        destruct W5 as [_ F5]. rewrite F5 by lia. done.
      * done.
      * eapply sorted_range_within_frame; [exact W6| |]; [lia|].
        by replace (S mid) with (mid + 1) by lia.
      * assert (G : forall k x, a <= k -> k < mid -> d6 !! k = Some x -> less x p = true).
        { apply (within_forall a mid d5 d6 (fun x => less x p = true) W6).
          intros k x Hk Hk' Hx. destruct W5 as [_ F5]. rewrite F5 in Hx by lia.
          apply (Hleft k); auto; lia. }
        intros k x H1 H2 Hx. apply (G k); auto.
      * intros k x H1 H2 Hx. destruct W6 as [_ F]. rewrite F in Hx by lia.
        revert k x H1 H2 Hx.
        assert (G : forall k x, mid + 1 <= k -> k < b -> d5 !! k = Some x ->
                  less x p = false).
        { apply (within_forall (mid + 1) b d4 d5 (fun x => less x p = false) W5).
          intros k x Hk Hk' Hx. apply (Hright k); auto; lia. }
        intros k x H1 H2 Hx. apply (G k); auto; lia.
Qed.

(** *** [sort.Slice] *)

Theorem Slice_Permutation (x : list A) : Slice less x ≡ₚ x.
Proof.
  unfold Slice.
  destruct (pdqsort_spec (S (length x)) x 0 (length x) (bits_Len (length x)) true true)
    as [[P _] _]; try lia; [|done].
  intros k y z Ha. lia.
Qed.

Theorem Slice_sorted (x : list A) i j u v :
  i < j -> Slice less x !! i = Some u -> Slice less x !! j = Some v ->
  less v u = false.
Proof.
  intros Hij Hu Hv. unfold Slice in *.
  destruct (pdqsort_spec (S (length x)) x 0 (length x) (bits_Len (length x)) true true)
    as [W S']; try lia.
  { intros k y z Ha. lia. }
  apply (S' i j); auto; [lia|].
  apply lookup_lt_Some in Hv. rewrite (within_length _ _ _ _ W) in Hv. done.
Qed.

End Ordered.

End Facts.
End SortFacts.

(** ** [sort.Slice] on short slices keeps ties in place

    Up to twelve elements [pdqsort_func] is the insertion sort, which
    never moves an element past an equivalent one. *)

Module StableFacts.
Import Sort SortFacts.
Section Facts.
Context {A : Type}.
Variable less : A -> A -> bool.
Variable idx : A -> nat.
Hypothesis SWO : Sort.StrictWeakOrder less.

Local Open Scope nat_scope.
Implicit Types d : list A.

Local Abbreviation sless := (Sort.stable_less less idx).

Lemma stable_less_swo : Sort.StrictWeakOrder sless.
Proof.
  pose proof (Sort.less_irrefl _ SWO) as Hi.
  pose proof (Sort.less_trans _ SWO) as Ht.
  pose proof (Sort.less_negtrans _ SWO) as Hn.
  assert (Hc : forall a b c, less a b = true -> less b c = true ->
                 less a c = false -> False).
  { intros a b c H1 H2 H3. by rewrite (Ht _ _ _ H1 H2) in H3. }
  assert (Hc' : forall a b c, less a b = false -> less b c = false ->
                 less a c = true -> False).
  { intros a b c H1 H2 H3. by rewrite (Hn _ _ _ H1 H2) in H3. }
  split; unfold Sort.stable_less.
  - intros x. rewrite Hi. simpl. apply Nat.ltb_irrefl.
  - intros x y z.
    destruct (less x y) eqn:Exy, (less y x) eqn:Eyx, (less y z) eqn:Eyz,
      (less z y) eqn:Ezy, (less x z) eqn:Exz, (less z x) eqn:Ezx; simpl;
      try done; rewrite ?Nat.ltb_lt; try lia;
      exfalso; eauto 2.
  - intros x y z.
    destruct (less x y) eqn:Exy, (less y x) eqn:Eyx, (less y z) eqn:Eyz,
      (less z y) eqn:Ezy, (less x z) eqn:Exz, (less z x) eqn:Ezx; simpl;
      try done; rewrite ?Nat.ltb_ge; try lia;
      exfalso; eauto 2.
Qed.

Lemma insertion_inner_within (lt : A -> A -> bool) j : forall d a,
  Sort.within a (S j) d (insertion_inner lt d a j).
Proof.
  induction j as [|j IH]; intros d a; simpl; [apply within_refl|].
  destruct ((a <? S j) && Sort.Less lt d (S j) j) eqn:E; [|apply within_refl].
  apply andb_true_iff in E as [Ea _]. apply Nat.ltb_lt in Ea.
  eapply within_trans; [apply (within_Swap a (S (S j)) d (S j) j); lia|].
  eapply within_weaken; [| |apply IH]; lia.
Qed.

(** An element that came later in the input than everything before it is
    carried down past exactly the elements it is less than. *)
Lemma insertion_inner_agree j : forall d a,
  j < length d ->
  (forall k x y, a <= k -> k < j -> d !! k = Some x -> d !! j = Some y ->
     idx x < idx y) ->
  insertion_inner less d a j = insertion_inner sless d a j.
Proof.
  induction j as [|j IH]; intros d a Hj Hidx; simpl; [done|].
  destruct (lookup_lt_is_Some_2 d (S j)) as [e He]; [lia|].
  destruct (lookup_lt_is_Some_2 d j) as [q Hq]; [lia|].
  rewrite (Less_lookup less d (S j) j e q He Hq).
  rewrite (Less_lookup sless d (S j) j e q He Hq).
  destruct (a <? S j) eqn:Ea; simpl; [|done].
  apply Nat.ltb_lt in Ea.
  assert (Hlt : idx q < idx e) by (apply (Hidx j); auto; lia).
  assert (Hs : sless e q = less e q).
  { unfold Sort.stable_less.
    replace (idx e <? idx q) with false by (symmetry; apply Nat.ltb_ge; lia).
    by rewrite andb_false_r, orb_false_r. }
  rewrite Hs. destruct (less e q); [|done].
  apply IH.
  - rewrite Swap_length. lia.
  - intros k x y H1 H2. rewrite !Swap_lookup by lia. rewrite He.
    repeat case_decide; try lia. intros Hx Hy.
    assert (y = e) as -> by congruence. apply (Hidx k); auto.
Qed.

Lemma insertion_outer_agree n : forall d a i,
  i + n <= length d ->
  (forall m k x y, i <= m -> k < m -> d !! k = Some x -> d !! m = Some y ->
     idx x < idx y) ->
  insertion_outer less n d a i = insertion_outer sless n d a i.
Proof.
  induction n as [|n IH]; intros d a i Hlen Hidx; simpl; [done|].
  rewrite <- (insertion_inner_agree i d a); [|lia|].
  2: { intros k x y H1 H2. apply (Hidx i k); auto. }
  pose proof (insertion_inner_within less i d a) as W.
  apply IH.
  - rewrite (within_length _ _ _ _ W). lia.
  - intros m k x y H1 H2 Hx Hy.
    pose proof W as [_ F]. rewrite F in Hy by lia.
    destruct (decide (a <= k < S i)) as [Hk|Hk].
    + destruct (within_elem _ _ _ _ k x W Hk Hx) as (k' & Hk' & Hx').
      apply (Hidx m k'); auto; lia.
    + rewrite F in Hx by lia. apply (Hidx m k); auto; lia.
Qed.

Lemma Slice_short (lt : A -> A -> bool) (x : list A) :
  length x <= 12 -> Slice lt x = insertionSort_func lt x 0 (length x).
Proof.
  intros H. unfold Slice. cbn [pdqsort_func].
  rewrite Nat.sub_0_r. by apply Nat.leb_le in H as ->.
Qed.

Lemma Slice_stable_agree (x : list A) :
  length x <= 12 -> Sort.increasing idx x -> Slice less x = Slice sless x.
Proof.
  intros Hlen Hinc. rewrite !Slice_short by done. unfold insertionSort_func.
  destruct (decide (length x = 0)) as [E|E].
  { rewrite E. done. }
  apply insertion_outer_agree; [simpl; lia|].
  intros m k y z H1 H2. by apply Hinc.
Qed.

(** The first element of the sorted short slice: nothing is less than it,
    and whatever is equivalent to it came later in the input. *)
Lemma Slice_stable_head (x : list A) p q :
  length x <= 12 -> Sort.increasing idx x ->
  Slice less x !! 0 = Some p -> q ∈ x ->
  less q p = false /\ (less p q = false -> idx p <= idx q).
Proof.
  intros Hlen Hinc Hp Hq.
  rewrite Slice_stable_agree in Hp by done.
  rewrite <- (Slice_Permutation sless stable_less_swo x) in Hq.
  apply list_elem_of_lookup in Hq as [k Hk].
  destruct k as [|k].
  - assert (q = p) as -> by congruence.
    split; [apply (Sort.less_irrefl _ SWO)|lia].
  - pose proof (Slice_sorted sless stable_less_swo x 0 (S k) p q ltac:(lia) Hp Hk)
      as Hs.
    unfold Sort.stable_less in Hs. apply orb_false_iff in Hs as [H1 H2].
    split; [done|]. intros H3. rewrite H3 in H2. simpl in H2.
    apply Nat.ltb_ge in H2. done.
Qed.

Lemma increasing_cons x (l : list A) :
  Sort.increasing idx (x :: l) <->
  (forall y, y ∈ l -> idx x < idx y) /\ Sort.increasing idx l.
Proof.
  split.
  - intros H. split.
    + intros y [k Hk]%list_elem_of_lookup. apply (H 0 (S k)); auto; lia.
    + intros i j y z Hij Hy Hz. apply (H (S i) (S j)); auto; lia.
  - intros [H1 H2] i j y z Hij Hy Hz.
    destruct j as [|j]; [lia|]. simpl in Hz.
    destruct i as [|i]; simpl in Hy.
    + injection Hy as <-. apply H1. by eapply list_elem_of_lookup_2.
    + apply (H2 i j); auto; lia.
Qed.

Lemma increasing_filter (f : A -> bool) (l : list A) :
  Sort.increasing idx l -> Sort.increasing idx (List.filter f l).
Proof.
  induction l as [|x l IH]; simpl; [done|].
  intros [H1 H2]%increasing_cons. specialize (IH H2).
  destruct (f x); [|done].
  apply increasing_cons. split; [|done].
  intros y Hy. apply H1. apply list_elem_of_In in Hy.
  apply filter_In in Hy as [Hy _]. by apply list_elem_of_In.
Qed.

End Facts.
End StableFacts.

(** ** [BestQuestion] *)

Section BestQuestionFacts.
Variable ToLower : string -> string.

Local Open Scope Z_scope.

Lemma is_question_spec item : is_question item = true <-> question_typed item.
Proof.
  unfold is_question, question_typed, string_eqb.
  repeat case_bool_decide; simpl; intuition congruence.
Qed.

Lemma question_less_swo : Sort.StrictWeakOrder question_less.
Proof.
  split; unfold question_less.
  - intros x. rewrite Z.eqb_refl. simpl.
    destruct (QuestionData.ViewCount (deref x) >? QuestionData.ViewCount (deref x)) eqn:E;
      [|done].
    rewrite Z.gtb_ltb in E. apply Z.ltb_lt in E. lia.
  - intros x y z.
    repeat match goal with
    | |- context [?a =? ?b] => destruct (Z.eqb_spec a b)
    end; simpl; rewrite !Z.gtb_ltb, !Z.ltb_lt; lia.
  - intros x y z.
    repeat match goal with
    | |- context [?a =? ?b] => destruct (Z.eqb_spec a b)
    end; simpl; rewrite !Z.gtb_ltb, !Z.ltb_ge; lia.
Qed.

Lemma question_less_false p' p :
  question_less p' p = false <-> ranks_no_higher (deref p') (deref p).
Proof.
  unfold question_less, ranks_no_higher.
  destruct (Z.eqb_spec (QuestionData.Score (deref p')) (QuestionData.Score (deref p)));
    simpl; rewrite Z.gtb_ltb, Z.ltb_ge; lia.
Qed.

Lemma collect_questions_elem items : forall n p,
  p ∈ collect_questions n items <->
  exists item, (n <= ptr_index p)%nat /\
    items !! (ptr_index p - n)%nat = Some item /\
    is_question item = true /\ deref p = SOItem.Data item.
Proof.
  induction items as [|it items IH]; intros n p; simpl.
  - split; [by intros ?%elem_of_nil|]. by intros (item & _ & ? & _).
  - assert (Hrest : p ∈ collect_questions (S n) items <->
      exists item, (S n <= ptr_index p)%nat /\
        (it :: items) !! (ptr_index p - n)%nat = Some item /\
        is_question item = true /\ deref p = SOItem.Data item).
    { rewrite IH. split; intros (item & H1 & H2 & H3); exists item.
      - split; [done|]. split; [|done].
        replace (ptr_index p - n)%nat with (S (ptr_index p - S n)) by lia. done.
      - split; [done|]. split; [|done].
        replace (ptr_index p - n)%nat with (S (ptr_index p - S n)) in H2 by lia.
        done. }
    destruct (is_question it) eqn:Eq.
    + rewrite elem_of_cons, Hrest. split.
      * intros [-> | (item & H1 & H2)].
        { exists it. simpl. rewrite Nat.sub_diag. done. }
        exists item. split; [lia|done].
      * intros (item & H1 & H2 & H3 & H4).
        destruct (decide (ptr_index p = n)) as [Hn|Hn].
        { left. rewrite Hn, Nat.sub_diag in H2. simpl in H2.
          destruct p as [i q]. simpl in *. congruence. }
        right. exists item. split; [lia|done].
    + rewrite Hrest. split.
      * intros (item & H1 & H2). exists item. split; [lia|done].
      * intros (item & H1 & H2 & H3 & H4). exists item. split; [|done].
        destruct (decide (ptr_index p = n)) as [Hn|Hn]; [|lia].
        rewrite Hn, Nat.sub_diag in H2. simpl in H2. congruence.
Qed.

Lemma hintSet_get_insert (m : gmap string bool) h k :
  hintSet_get (<[h := true]> m) k = true <-> h = k \/ hintSet_get m k = true.
Proof.
  unfold hintSet_get. destruct (decide (h = k)) as [->|Hne].
  - rewrite lookup_insert_eq. simpl. tauto.
  - rewrite lookup_insert_ne by done. tauto.
Qed.

Lemma hintSet_get_fold tagHints : forall (m : gmap string bool) k,
  hintSet_get (foldl (fun m h => <[ToLower h := true]> m) m tagHints) k = true <->
  hintSet_get m k = true \/ exists h, h ∈ tagHints /\ ToLower h = k.
Proof.
  induction tagHints as [|h0 hs IH]; intros m k; simpl.
  - split; [tauto|]. intros [H|(h & Hh & _)]; [done|]. by apply elem_of_nil in Hh.
  - rewrite IH, hintSet_get_insert. split.
    + intros [[H|H]|(h & Hh & He)]; [right|by left|right].
      * exists h0. split; [by left|done].
      * exists h. split; [by right|done].
    + intros [H|(h & Hh & He)]; [by left; right|].
      apply elem_of_cons in Hh as [->|Hh]; [by left; left|].
      right. by exists h.
Qed.

Lemma make_hintSet_get tagHints k :
  hintSet_get (make_hintSet ToLower tagHints) k = true <->
  exists h, h ∈ tagHints /\ ToLower h = k.
Proof.
  unfold make_hintSet. rewrite hintSet_get_fold. unfold hintSet_get.
  rewrite lookup_empty. simpl. split; [intros [?|?]; done|by right].
Qed.

Lemma tags_match_spec tagHints (item : SOItem) :
  tags_match ToLower (make_hintSet ToLower tagHints)
    (QuestionData.Tags (SOItem.Data item)) = true <->
  tags_intersect ToLower tagHints item.
Proof.
  unfold tags_match, tags_intersect. rewrite existsb_exists. split.
  - intros (t & Ht & Hm). apply make_hintSet_get in Hm as (h & Hh & He).
    exists t, h. split; [by apply list_elem_of_In|done].
  - intros (t & h & Ht & Hh & He). exists t.
    split; [by apply list_elem_of_In|]. apply make_hintSet_get. by exists h.
Qed.

Lemma tags_intersect_nil item : ~ tags_intersect ToLower [] item.
Proof. intros (t & h & _ & Hh & _). by apply elem_of_nil in Hh. Qed.

(** The questions are exactly the question-typed items, each with its index. *)
Lemma questions_elem (resp : SOResponse) p :
  p ∈ collect_questions 0 (SOResponse.Items resp) <->
  exists item, SOResponse.Items resp !! ptr_index p = Some item /\
    question_typed item /\ deref p = SOItem.Data item.
Proof.
  rewrite collect_questions_elem. setoid_rewrite Nat.sub_0_r.
  setoid_rewrite is_question_spec.
  split; intros (item & H); exists item; [tauto|]. split; [lia|tauto].
Qed.

Lemma matching_elem (resp : SOResponse) tagHints p :
  p ∈ matching_questions ToLower (make_hintSet ToLower tagHints)
        (collect_questions 0 (SOResponse.Items resp)) <->
  exists item, SOResponse.Items resp !! ptr_index p = Some item /\
    question_typed item /\ deref p = SOItem.Data item /\
    tags_intersect ToLower tagHints item.
Proof.
  unfold matching_questions. rewrite list_elem_of_In, filter_In, <- list_elem_of_In.
  rewrite questions_elem. split.
  - intros [(item & H1 & H2 & H3) Hm]. exists item.
    rewrite H3 in Hm. apply tags_match_spec in Hm. done.
  - intros (item & H1 & H2 & H3 & H4). split; [by exists item|].
    rewrite H3. by apply tags_match_spec.
Qed.

(** The slice that is sorted holds exactly the candidates. *)
Lemma chosen_elem (resp : SOResponse) tagHints p :
  p ∈ chosen_questions ToLower resp tagHints <->
  exists item, SOResponse.Items resp !! ptr_index p = Some item /\
    deref p = SOItem.Data item /\ candidate ToLower resp tagHints item.
Proof.
  unfold chosen_questions, candidate.
  set (qs := collect_questions 0 (SOResponse.Items resp)).
  set (ms := matching_questions ToLower (make_hintSet ToLower tagHints) qs).
  assert (Hms : ms <> [] <->
    exists item', item' ∈ SOResponse.Items resp /\ question_typed item' /\
                  tags_intersect ToLower tagHints item').
  { split.
    - intros Hne. destruct ms as [|p0 ms'] eqn:E; [done|].
      assert (Hp0 : p0 ∈ ms) by (rewrite E; by left).
      apply matching_elem in Hp0 as (item & H1 & H2 & H3 & H4).
      exists item. split; [by eapply list_elem_of_lookup_2|done].
    - intros (item & H1 & H2 & H3) E.
      apply list_elem_of_lookup in H1 as [i Hi].
      assert (Hin : (i, SOItem.Data item) ∈ ms).
      { apply matching_elem. by exists item. }
      rewrite E in Hin. by apply elem_of_nil in Hin. }
  assert (Hnil : tagHints = [] -> ms = []).
  { intros ->. destruct ms as [|p0 ms'] eqn:E; [done|].
    assert (Hp0 : p0 ∈ ms) by (rewrite E; by left).
    apply matching_elem in Hp0 as (item & _ & _ & _ & H4).
    by apply tags_intersect_nil in H4. }
  assert (Hsel : (if (0 <? length tagHints)%nat
                  then if (0 <? length ms)%nat then ms else qs else qs) =
                 if decide (ms = []) then qs else ms).
  { destruct tagHints; simpl.
    - rewrite Hnil by done. done.
    - clear Hms Hnil. clearbody ms. destruct ms; simpl; try case_decide; done. }
  rewrite Hsel. case_decide as Hd.
  - unfold qs. rewrite questions_elem.
    split; intros (item & H1 & H2 & H3); exists item.
    + split; [done|]. split; [done|].
      split; [by eapply list_elem_of_lookup_2|]. split; [done|].
      intros Hex. apply Hms in Hex. done.
    + tauto.
  - unfold ms, qs. rewrite matching_elem.
    split; intros (item & H1 & H2 & H3); exists item.
    + split; [done|]. split; [tauto|].
      split; [by eapply list_elem_of_lookup_2|]. tauto.
    + destruct H3 as (H3 & H4 & H5). split; [done|]. split; [done|].
      split; [done|]. apply H5. by apply Hms.
Qed.

Lemma BestQuestion_unfold (resp : SOResponse) tagHints :
  BestQuestion ToLower (Some resp) tagHints =
  Sort.Slice question_less (chosen_questions ToLower resp tagHints) !! 0%nat.
Proof.
  unfold BestQuestion, chosen_questions.
  destruct (SOResponse.Items resp) as [|it items] eqn:E; simpl.
  { by destruct tagHints. }
  set (qs := collect_questions 0 (it :: items)).
  assert (Hqs : collect_questions 0 (it :: items) = qs) by done.
  simpl in Hqs. rewrite Hqs.
  destruct qs as [|q0 qs']; simpl; [by destruct tagHints|done].
Qed.

Lemma ranks_no_higher_refl q : ranks_no_higher q q.
Proof. right. split; [done|lia]. Qed.

Lemma chosen_nil_hints (resp : SOResponse) tagHints :
  (forall item, item ∈ SOResponse.Items resp -> question_typed item ->
     ~ tags_intersect ToLower tagHints item) ->
  chosen_questions ToLower resp tagHints = chosen_questions ToLower resp [].
Proof.
  intros Hno. unfold chosen_questions. simpl.
  destruct (0 <? length tagHints)%nat; [|done].
  destruct (matching_questions _ _ _) as [|p0 ms] eqn:E; [done|].
  assert (Hp0 : p0 ∈ matching_questions ToLower (make_hintSet ToLower tagHints)
                  (collect_questions 0 (SOResponse.Items resp))).
  { rewrite E. by left. }
  apply matching_elem in Hp0 as (item & H1 & H2 & H3 & H4).
  exfalso. apply (Hno item); [by eapply list_elem_of_lookup_2|done|done].
Qed.

(** The result is a candidate that no candidate outranks; there is a result
    exactly when there is a candidate. *)
Lemma BestQuestion_best (resp : SOResponse) tagHints :
  ((forall item, ~ candidate ToLower resp tagHints item) ->
   BestQuestion ToLower (Some resp) tagHints = None) /\
  ((exists item, candidate ToLower resp tagHints item) ->
   exists i item,
     BestQuestion ToLower (Some resp) tagHints = Some (i, SOItem.Data item) /\
     SOResponse.Items resp !! i = Some item /\
     candidate ToLower resp tagHints item /\
     forall item', candidate ToLower resp tagHints item' ->
       ranks_no_higher (SOItem.Data item') (SOItem.Data item)).
Proof.
  rewrite BestQuestion_unfold.
  set (L := chosen_questions ToLower resp tagHints).
  set (Sd := Sort.Slice question_less L).
  assert (P : Sd ≡ₚ L) by apply (SortFacts.Slice_Permutation _ question_less_swo).
  split.
  - intros Hno. destruct Sd as [|p S'] eqn:E; [done|]. exfalso.
    assert (Hp : p ∈ L) by (rewrite <- P; by left).
    apply chosen_elem in Hp as (item & _ & _ & Hc). by apply (Hno item).
  - intros (item0 & Hc0).
    assert (Hin : forall item', candidate ToLower resp tagHints item' ->
              exists k j, Sd !! k = Some (j, SOItem.Data item')).
    { intros item' Hc'. pose proof Hc' as (Hi & _).
      apply list_elem_of_lookup in Hi as [j Hj].
      assert (Hp' : (j, SOItem.Data item') ∈ Sd).
      { rewrite P. apply chosen_elem. by exists item'. }
      apply list_elem_of_lookup in Hp' as [k Hk]. by exists k, j. }
    destruct Sd as [|p S'] eqn:E.
    { destruct (Hin item0 Hc0) as (k & j & Hk). by rewrite lookup_nil in Hk. }
    assert (Hp : p ∈ L) by (rewrite <- P; by left).
    apply chosen_elem in Hp as (item & H1 & H2 & Hc).
    exists (ptr_index p), item. simpl.
    split; [destruct p as [n q]; unfold deref in H2; simpl in *; by rewrite H2|].
    split; [done|]. split; [done|].
    intros item' Hc'. destruct (Hin item' Hc') as (k & j & Hk).
    destruct k as [|k].
    + simpl in Hk. injection Hk as ->. simpl in H2. rewrite <- H2.
      apply ranks_no_higher_refl.
    + rewrite <- H2.
      change (SOItem.Data item') with (deref (j, SOItem.Data item')).
      apply question_less_false.
      apply (SortFacts.Slice_sorted _ question_less_swo L 0 (S k));
        [lia| |]; unfold Sd in E; by rewrite E.
Qed.

Lemma candidate_no_hints (resp : SOResponse) item :
  candidate ToLower resp [] item <->
  item ∈ SOResponse.Items resp /\ question_typed item.
Proof.
  unfold candidate. split; [tauto|]. intros [H1 H2].
  split; [done|]. split; [done|].
  intros (item' & _ & _ & H). by apply tags_intersect_nil in H.
Qed.

(** C3.  Without tag hints [BestQuestion] looks at exactly the items whose
    type is the empty string or ["Question"].  It answers nil for a nil
    envelope, for an envelope without items and for one without such an
    item; otherwise it answers a pointer to the data of such an item, and
    no such item has a greater score, or the same score and more views. *)
Theorem BestQuestion_no_hints :
  BestQuestion ToLower None [] = None /\
  forall resp : SOResponse,
    (SOResponse.Items resp = [] -> BestQuestion ToLower (Some resp) [] = None) /\
    ((forall item, item ∈ SOResponse.Items resp -> ~ question_typed item) ->
     BestQuestion ToLower (Some resp) [] = None) /\
    ((exists item, item ∈ SOResponse.Items resp /\ question_typed item) ->
     exists i item,
       BestQuestion ToLower (Some resp) [] = Some (i, SOItem.Data item) /\
       SOResponse.Items resp !! i = Some item /\
       question_typed item /\
       forall item', item' ∈ SOResponse.Items resp -> question_typed item' ->
         ranks_no_higher (SOItem.Data item') (SOItem.Data item)).
Proof.
  split; [done|]. intros resp.
  destruct (BestQuestion_best resp []) as [Hnone Hsome].
  split; [|split].
  - intros E. apply Hnone. intros item Hc%candidate_no_hints.
    rewrite E in Hc. destruct Hc as [Hc _]. by apply elem_of_nil in Hc.
  - intros Hno. apply Hnone. intros item Hc%candidate_no_hints.
    destruct Hc as [H1 H2]. by apply (Hno item).
  - intros (item0 & H1 & H2).
    destruct Hsome as (i & item & Hb & Hi & Hc & Hmax).
    { exists item0. by apply candidate_no_hints. }
    exists i, item. split; [done|]. split; [done|].
    apply candidate_no_hints in Hc as [_ Hq]. split; [done|].
    intros item' H1' H2'. apply Hmax. by apply candidate_no_hints.
Qed.

(** C4.  With hints, as soon as a question-typed item has a tag that is,
    up to case, one of the hints, the result is such an item, and the best
    ranked of them; when no question-typed item has such a tag the result
    is the one obtained without hints, so the hints alone never make the
    result nil. *)
Theorem BestQuestion_tag_hints (resp : SOResponse) (tagHints : list string) :
  ((exists item, item ∈ SOResponse.Items resp /\ question_typed item /\
                 tags_intersect ToLower tagHints item) ->
   exists i item,
     BestQuestion ToLower (Some resp) tagHints = Some (i, SOItem.Data item) /\
     SOResponse.Items resp !! i = Some item /\
     question_typed item /\ tags_intersect ToLower tagHints item /\
     forall item', item' ∈ SOResponse.Items resp -> question_typed item' ->
       tags_intersect ToLower tagHints item' ->
       ranks_no_higher (SOItem.Data item') (SOItem.Data item)) /\
  ((forall item, item ∈ SOResponse.Items resp -> question_typed item ->
      ~ tags_intersect ToLower tagHints item) ->
   BestQuestion ToLower (Some resp) tagHints = BestQuestion ToLower (Some resp) []) /\
  BestQuestion ToLower None tagHints = BestQuestion ToLower None [].
Proof.
  split; [|split; [|done]].
  - intros Hex.
    assert (Hcand : forall item, candidate ToLower resp tagHints item <->
              item ∈ SOResponse.Items resp /\ question_typed item /\
              tags_intersect ToLower tagHints item).
    { intros item. unfold candidate. split; [|tauto].
      intros (H1 & H2 & H3). auto. }
    destruct (BestQuestion_best resp tagHints) as [_ Hsome].
    destruct Hsome as (i & item & Hb & Hi & Hc & Hmax).
    { destruct Hex as (item0 & H0). exists item0. by apply Hcand. }
    exists i, item. split; [done|]. split; [done|].
    apply Hcand in Hc as (_ & Hq & Ht). split; [done|]. split; [done|].
    intros item' H1 H2 H3. apply Hmax. by apply Hcand.
  - intros Hno. rewrite !BestQuestion_unfold. by rewrite chosen_nil_hints.
Qed.

Lemma collect_questions_increasing items : forall n,
  Sort.increasing ptr_index (collect_questions n items).
Proof.
  induction items as [|it items IH]; intros n; simpl.
  { intros i j x y _ Hx. by rewrite lookup_nil in Hx. }
  destruct (is_question it); [|apply IH].
  apply StableFacts.increasing_cons. split; [|apply IH].
  intros y Hy. apply collect_questions_elem in Hy as (item & Hle & _).
  simpl. lia.
Qed.

Lemma chosen_questions_increasing (resp : SOResponse) tagHints :
  Sort.increasing ptr_index (chosen_questions ToLower resp tagHints).
Proof.
  unfold chosen_questions.
  pose proof (collect_questions_increasing (SOResponse.Items resp) 0) as H.
  destruct (0 <? length tagHints)%nat; [|done].
  destruct (0 <? length (matching_questions _ _ _))%nat; [|done].
  by apply StableFacts.increasing_filter.
Qed.

(** C1, amended.  The result of [BestQuestion] is a candidate that no
    candidate outranks.  [sort.Slice] is not a stable sort, so among
    candidates of the same score and view count the first of the envelope
    is not promised in general; it is the result when at most twelve
    candidates are ranked. *)
Theorem BestQuestion_ties (resp : SOResponse) (tagHints : list string) p :
  BestQuestion ToLower (Some resp) tagHints = Some p ->
  (exists item, SOResponse.Items resp !! ptr_index p = Some item /\
                deref p = SOItem.Data item /\
                candidate ToLower resp tagHints item) /\
  (forall item', candidate ToLower resp tagHints item' ->
     ranks_no_higher (SOItem.Data item') (deref p)) /\
  ((length (chosen_questions ToLower resp tagHints) <= 12)%nat ->
   forall j item', (j < ptr_index p)%nat ->
     SOResponse.Items resp !! j = Some item' ->
     candidate ToLower resp tagHints item' ->
     ~ same_rank (SOItem.Data item') (deref p)).
Proof.
  intros Hp.
  assert (Hin : p ∈ chosen_questions ToLower resp tagHints).
  { rewrite BestQuestion_unfold in Hp.
    rewrite <- (SortFacts.Slice_Permutation _ question_less_swo).
    by eapply list_elem_of_lookup_2. }
  apply chosen_elem in Hin as (item & H1 & H2 & Hc).
  split; [by exists item|]. split.
  - destruct (BestQuestion_best resp tagHints) as [_ Hsome].
    destruct Hsome as (i & it & Hb & Hi & Hci & Hmax); [by exists item|].
    rewrite Hp in Hb. injection Hb as ->. simpl. done.
  - intros Hlen j item' Hj Hj' Hc' [Hs Hv].
    rewrite BestQuestion_unfold in Hp.
    destruct (StableFacts.Slice_stable_head question_less ptr_index
                question_less_swo _ p (j, SOItem.Data item') Hlen
                (chosen_questions_increasing resp tagHints) Hp) as [_ Hfirst].
    { apply chosen_elem. by exists item'. }
    simpl in Hfirst. cut (ptr_index p <= j)%nat; [lia|].
    apply Hfirst. unfold question_less. simpl.
    rewrite Hs, Hv, Z.eqb_refl. simpl.
    rewrite Z.gtb_ltb. apply Z.ltb_irrefl.
Qed.

End BestQuestionFacts.

(** ** The order of equally ranked candidates *)

(** On the thirteen questions the code answers the item at index 6: the
    slice is longer than twelve, [choosePivot_func] takes the median of the
    elements at 3, 6 and 9, which is the one at 6, [partition_func]
    exchanges it with the element at 0 and leaves it there, ahead of the
    former first element, and the rest is sorted from index 1 on. *)
Lemma BestQuestion_thirteen :
  BestQuestion ToLower_ascii (Some thirteen_questions) [] =
  Some (6%nat, SOItem.Data (sample_question 106 1)).
Proof. vm_compute. reflexivity. Qed.

(** C1, as stated, fails: on the thirteen questions the item at index 0
    has the score and the view count of the result and comes before it in
    the envelope. *)
Lemma BestQuestion_not_stable :
  ~ stable_selection ToLower_ascii thirteen_questions [].
Proof.
  intros H.
  apply (H _ BestQuestion_thirteen 0%nat (sample_question 100 1)).
  - simpl. lia.
  - reflexivity.
  - apply candidate_no_hints. split; [by left|by right].
  - split; reflexivity.
Qed.

(** ** Strings *)

Lemma str_app_cons c s1 s2 : String c s1 +:+ s2 = String c (s1 +:+ s2).
Proof. reflexivity. Qed.

Lemma str_app_nil_l s : "" +:+ s = s.
Proof. reflexivity. Qed.

Lemma str_app_nil_r s : s +:+ "" = s.
Proof. induction s as [|c s IH]; [done|]. by rewrite str_app_cons, IH. Qed.

Lemma str_app_assoc s1 s2 s3 : (s1 +:+ s2) +:+ s3 = s1 +:+ (s2 +:+ s3).
Proof.
  induction s1 as [|c s1 IH]; [done|]. by rewrite !str_app_cons, IH.
Qed.

Lemma len_app s1 s2 : len (s1 +:+ s2) = (len s1 + len s2)%nat.
Proof.
  unfold len. induction s1 as [|c s1 IH]; [done|].
  rewrite str_app_cons. simpl. by rewrite IH.
Qed.

(** ** [formatNumber] *)

Lemma str_take_drop k s : str_take k s +:+ str_drop k s = s.
Proof.
  revert s. induction k as [|k IH]; intros [|c s]; simpl; try done.
  by rewrite str_app_cons, IH.
Qed.

Lemma len_str_drop k s : len (str_drop k s) = (len s - k)%nat.
Proof.
  unfold len. revert s. induction k as [|k IH]; intros [|c s]; simpl; done.
Qed.

Lemma len_str_take k s : (k <= len s)%nat -> len (str_take k s) = k.
Proof.
  unfold len. revert s. induction k as [|k IH]; intros [|c s]; simpl; try done;
    try lia.
  intros H. rewrite IH; [done|lia].
Qed.

Lemma group_loop_spec n : forall s parts,
  (len s <= n)%nat -> (1 <= len s)%nat ->
  exists first chunks,
    group_loop n s parts = first :: chunks ++ parts /\
    groups_of_three s first chunks.
Proof.
  induction n as [|n IH]; intros s parts Hn Hs; [lia|].
  simpl. destruct (3 <? len s)%nat eqn:E.
  - apply Nat.ltb_lt in E.
    destruct (IH (str_take (len s - 3) s) (str_drop (len s - 3) s :: parts))
      as (first & chunks & Hg & Hcat & Hch & Hf).
    { rewrite len_str_take; lia. }
    { rewrite len_str_take; lia. }
    exists first, (chunks ++ [str_drop (len s - 3) s]).
    split; [by rewrite Hg, <- app_assoc|].
    split; [|split; [|done]].
    + unfold str_concat in *. rewrite foldr_app. simpl.
      rewrite str_app_nil_r.
      rewrite <- (str_take_drop (len s - 3) s) at 3. rewrite <- Hcat.
      rewrite str_app_assoc. f_equal.
      generalize (str_drop (len s - 3) s). intros t.
      clear. induction chunks as [|c cs IH]; simpl; [done|].
      by rewrite IH, str_app_assoc.
    + intros c [Hc|Hc]%elem_of_app; [by apply Hch|].
      apply list_elem_of_singleton in Hc as ->. rewrite len_str_drop. lia.
  - apply Nat.ltb_ge in E. exists s, [].
    split; [done|]. split; [apply str_app_nil_r|].
    split; [by intros c ?%elem_of_nil|lia].
Qed.

Lemma Sprintf_d_nonempty n : (1 <= len (Sprintf_d n))%nat.
Proof.
  unfold Sprintf_d, len.
  destruct n as [|p|p]; simpl.
  - lia.
  - destruct (Pos.to_uint p); simpl; lia.
  - lia.
Qed.

(** A number that is not negative: its digits grouped in threes, the
    groups joined by commas. *)
Lemma formatNumber_nonneg fuel n :
  0 <= n ->
  exists first chunks,
    formatNumber (S fuel) n = Some (Join (first :: chunks) ",") /\
    groups_of_three (Sprintf_d n) first chunks.
Proof.
  intros Hn. simpl.
  assert ((n <? 0) = false) as -> by (apply Z.ltb_ge; lia).
  pose proof (Sprintf_d_nonempty n) as Hne.
  destruct (len (Sprintf_d n) <=? 3)%nat eqn:E.
  - apply Nat.leb_le in E. exists (Sprintf_d n), [].
    split; [done|]. split; [apply str_app_nil_r|].
    split; [by intros c ?%elem_of_nil|lia].
  - destruct (group_loop_spec (len (Sprintf_d n)) (Sprintf_d n) [])
      as (first & chunks & Hg & Hspec); [lia|lia|].
    exists first, chunks. rewrite Hg, app_nil_r. done.
Qed.

(** A negative number other than the least one: a minus sign and the
    magnitude grouped in the same way. *)
Lemma formatNumber_neg fuel n :
  in_range n -> n < 0 -> n <> min_int ->
  exists first chunks,
    formatNumber (S (S fuel)) n = Some ("-" +:+ Join (first :: chunks) ",") /\
    groups_of_three (Sprintf_d (- n)) first chunks.
Proof.
  intros Hr Hn Hmin.
  destruct (formatNumber_nonneg fuel (- n)) as (first & chunks & Hf & Hg); [lia|].
  exists first, chunks. split; [|done].
  cbn [formatNumber].
  assert ((n <? 0) = true) as -> by (apply Z.ltb_lt; lia).
  rewrite int_neg_pos by done. cbn [formatNumber] in Hf. by rewrite Hf.
Qed.

Lemma formatNumber_examples :
  formatNumber 2 0 = Some "0" /\
  formatNumber 2 999 = Some "999" /\
  formatNumber 2 1000 = Some "1,000" /\
  formatNumber 2 178410 = Some "178,410" /\
  formatNumber 2 (-42000) = Some "-42,000".
Proof. repeat split; reflexivity. Qed.

(** Two units of fuel are enough for every [int] but the least one. *)
Lemma formatNumber_returns fuel n :
  in_range n -> n <> min_int -> is_Some (formatNumber (S (S fuel)) n).
Proof.
  intros Hr Hn. destruct (decide (0 <= n)) as [Hpos|Hneg].
  - destruct (formatNumber_nonneg (S fuel) n Hpos) as (f & c & -> & _). done.
  - destruct (formatNumber_neg fuel n Hr ltac:(lia) Hn) as (f & c & -> & _). done.
Qed.

(** C8.  The claim holds for every [int] but the least one, where it
    fails: [-n] wraps around to [n] itself, the function calls itself on
    the same argument again and never returns. *)
Theorem formatNumber_min_int_diverges :
  in_range min_int /\ forall fuel, formatNumber fuel min_int = None.
Proof.
  split; [unfold in_range, min_int, max_int; lia|].
  intros fuel. induction fuel as [|fuel IH]; [done|].
  cbn [formatNumber]. change (min_int <? 0) with true. cbv iota.
  rewrite int_neg_min_int. by rewrite IH.
Qed.

(** ** [FormatQuestionMarkdown] *)

Section FormatFacts.
Variable decodeHTML : string -> string.
Variable formatDate : Z -> string.

Local Open Scope Z_scope.

Lemma answer_less_swo : Sort.StrictWeakOrder answer_less.
Proof.
  split; unfold answer_less.
  - intros x. destruct (AnswerData.IsAccepted x); simpl;
      rewrite Z.gtb_ltb; apply Z.ltb_irrefl.
  - intros x y z.
    destruct (AnswerData.IsAccepted x), (AnswerData.IsAccepted y),
      (AnswerData.IsAccepted z); simpl; try done;
      rewrite !Z.gtb_ltb, !Z.ltb_lt; lia.
  - intros x y z.
    destruct (AnswerData.IsAccepted x), (AnswerData.IsAccepted y),
      (AnswerData.IsAccepted z); simpl; try done;
      rewrite !Z.gtb_ltb, !Z.ltb_ge; lia.
Qed.

Lemma answer_less_false a a' :
  answer_less a' a = false <->
  (AnswerData.IsAccepted a' = true -> AnswerData.IsAccepted a = true) /\
  (AnswerData.IsAccepted a = AnswerData.IsAccepted a' ->
   AnswerData.Score a' <= AnswerData.Score a).
Proof.
  unfold answer_less.
  destruct (AnswerData.IsAccepted a), (AnswerData.IsAccepted a'); simpl;
    rewrite ?Z.gtb_ltb, ?Z.ltb_ge; intuition (try done; try lia).
Qed.

(** The sorted copy of the answers is in the order of the specification. *)
Lemma ranked_answers_order (answers : list AnswerData) :
  Sort.Slice answer_less answers ≡ₚ answers /\
  accepted_first_then_score (Sort.Slice answer_less answers).
Proof.
  split; [apply (SortFacts.Slice_Permutation _ answer_less_swo)|].
  intros i j a a' Hij Ha Ha'. apply answer_less_false.
  by apply (SortFacts.Slice_sorted _ answer_less_swo answers i j).
Qed.

Lemma answers_loop_blocks n : forall i shown (answers : list AnswerData),
  (i + n <= length answers)%nat ->
  answers_loop decodeHTML n i shown answers =
  answer_blocks decodeHTML i shown (take n (drop i answers)).
Proof.
  induction n as [|n IH]; intros i shown answers Hlen; simpl; [done|].
  destruct (lookup_lt_is_Some_2 answers i) as [a Ha]; [lia|].
  rewrite Ha. rewrite (drop_S answers a i Ha). simpl.
  rewrite IH by lia. done.
Qed.

Lemma shown_count_range maxAnswers n :
  0 <= shown_count maxAnswers n <= Z.of_nat n.
Proof.
  unfold shown_count.
  destruct (maxAnswers <=? 0) eqn:E1; simpl; [lia|].
  destruct (maxAnswers >? Z.of_nat n) eqn:E2; [lia|].
  apply Z.leb_gt in E1. rewrite Z.gtb_ltb in E2. apply Z.ltb_ge in E2. lia.
Qed.

(** How many answers are shown. *)
Lemma shown_count_spec maxAnswers n :
  (0 < maxAnswers -> shown_count maxAnswers n = Z.min maxAnswers (Z.of_nat n)) /\
  (maxAnswers <= 0 \/ Z.of_nat n < maxAnswers ->
   shown_count maxAnswers n = Z.of_nat n).
Proof.
  unfold shown_count.
  destruct (maxAnswers <=? 0) eqn:E1; simpl;
    [apply Z.leb_le in E1|apply Z.leb_gt in E1];
  (destruct (maxAnswers >? Z.of_nat n) eqn:E2; rewrite Z.gtb_ltb in E2;
    [apply Z.ltb_lt in E2|apply Z.ltb_ge in E2]); lia.
Qed.

(** The answers section: heading, the blocks of the first [shown] answers
    of the sorted copy, and the note when some are left out. *)
Lemma answers_section_eq (answers : list AnswerData) maxAnswers :
  let shown := shown_count maxAnswers (length answers) in
  answers_section decodeHTML answers maxAnswers =
  answers_heading shown +:+
  answer_blocks decodeHTML 0 shown (take (Z.to_nat shown) answers) +:+
  (if Z.of_nat (length answers) >? shown
   then omitted_note (Z.of_nat (length answers) - shown) else "").
Proof.
  intros shown. unfold answers_section. fold shown.
  pose proof (shown_count_range maxAnswers (length answers)) as Hr. fold shown in Hr.
  rewrite answers_loop_blocks by lia. rewrite drop_0.
  unfold answers_heading, omitted_note.
  by rewrite !str_app_assoc.
Qed.

Lemma FormatQuestionMarkdown_with_answers fuel (q : QuestionData) maxAnswers :
  QuestionData.Answers q <> [] ->
  FormatQuestionMarkdown decodeHTML formatDate fuel (Some q) maxAnswers =
  (fun views =>
     question_section decodeHTML formatDate q views +:+
     answers_section decodeHTML
       (Sort.Slice answer_less (QuestionData.Answers q)) maxAnswers)
  <$> formatNumber fuel (QuestionData.ViewCount q).
Proof.
  intros Hne. unfold FormatQuestionMarkdown.
  destruct (formatNumber fuel (QuestionData.ViewCount q)) as [views|]; [|done].
  simpl. destruct (QuestionData.Answers q); [done|]. done.
Qed.

(** The function returns for every payload whose view count is not the
    least [int]. *)
Lemma FormatQuestionMarkdown_returns fuel (q : QuestionData) maxAnswers :
  in_range (QuestionData.ViewCount q) -> QuestionData.ViewCount q <> min_int ->
  is_Some (FormatQuestionMarkdown decodeHTML formatDate (S (S fuel)) (Some q) maxAnswers).
Proof.
  intros Hr Hn. unfold FormatQuestionMarkdown.
  destruct (formatNumber_returns fuel _ Hr Hn) as [views ->].
  destruct (0 <? length (QuestionData.Answers q))%nat; [done|].
  by destruct (_ && _).
Qed.

(** The block the loop writes for an answer is the text of the answer. *)
Lemma answer_block_text i shown a :
  answer_block decodeHTML i shown a =
  answer_text decodeHTML (i + 1) (negb (i <? shown - 1)) a.
Proof.
  unfold answer_block, answer_text, string_eqb.
  destruct (AnswerData.IsAccepted a), (AnswerData.Score a >? 0),
    (OwnerData.DisplayName (AnswerData.Owner a)) as [|c name], (i <? shown - 1);
    try (rewrite bool_decide_eq_true_2 by done);
    try (rewrite bool_decide_eq_false_2 by done);
    cbn [negb]; rewrite ?str_app_assoc, ?str_app_nil_r, ?str_app_nil_l; reflexivity.
Qed.

Lemma answer_blocks_text answers : forall i shown,
  Z.of_nat (i + length answers) = shown ->
  answer_blocks decodeHTML i shown answers =
  answers_text decodeHTML (Z.of_nat i + 1) answers.
Proof.
  induction answers as [|a rest IH]; intros i shown Hs; [done|].
  cbn [answer_blocks answers_text]. rewrite answer_block_text.
  rewrite (IH (S i) shown) by (simpl in Hs; lia).
  replace (Z.of_nat (S i) + 1) with (Z.of_nat i + 1 + 1) by lia.
  f_equal. f_equal. simpl in Hs.
  destruct rest as [|b rest].
  - rewrite bool_decide_eq_true_2 by done. simpl in Hs.
    destruct (Z.ltb_spec (Z.of_nat i) (shown - 1)); [lia|done].
  - rewrite bool_decide_eq_false_2 by done. simpl in Hs.
    destruct (Z.ltb_spec (Z.of_nat i) (shown - 1)); [done|lia].
Qed.

Lemma answers_section_text answers maxAnswers :
  let shown := shown_count maxAnswers (length answers) in
  answers_section decodeHTML answers maxAnswers =
  answers_heading shown +:+
  answers_text decodeHTML 1 (take (Z.to_nat shown) answers) +:+
  (if Z.of_nat (length answers) >? shown
   then omitted_note (Z.of_nat (length answers) - shown) else "").
Proof.
  intros shown. rewrite answers_section_eq. fold shown.
  pose proof (shown_count_range maxAnswers (length answers)) as Hr. fold shown in Hr.
  rewrite (answer_blocks_text _ 0 shown); [done|].
  rewrite length_take. lia.
Qed.

(** C5.  The answers are rendered in the order of the sorted copy, which
    is a rearrangement of the embedded answers with every accepted answer
    before every other one and, among answers of the same acceptance, the
    scores descending; the text is the question section, the heading and
    the texts of the answers shown in that order, each under its heading
    [### Answer k] with the mark of the accepted answer and the score; the
    call returns for every payload whose view count [formatNumber]
    renders, that is for every view count but the least [int].  For the
    answers (false,5), (true,1), (false,9) the text reads: answer 1,
    accepted with score 1; answer 2 with score 9; answer 3 with score 5. *)
Theorem FormatQuestionMarkdown_answer_order :
  (forall fuel (q : QuestionData) maxAnswers,
     QuestionData.Answers q <> [] ->
     exists ranked,
       ranked ≡ₚ QuestionData.Answers q /\
       accepted_first_then_score ranked /\
       let shown := shown_count maxAnswers (length ranked) in
       FormatQuestionMarkdown decodeHTML formatDate fuel (Some q) maxAnswers =
       (fun views =>
          question_section decodeHTML formatDate q views +:+
          answers_heading shown +:+
          answers_text decodeHTML 1 (take (Z.to_nat shown) ranked) +:+
          (if Z.of_nat (length ranked) >? shown
           then omitted_note (Z.of_nat (length ranked) - shown) else ""))
       <$> formatNumber fuel (QuestionData.ViewCount q)) /\
  (forall fuel (q : QuestionData) maxAnswers,
     in_range (QuestionData.ViewCount q) -> QuestionData.ViewCount q <> min_int ->
     is_Some (FormatQuestionMarkdown decodeHTML formatDate (S (S fuel)) (Some q)
                maxAnswers)) /\
  (let q := sample_with_answers
              [sample_answer 1 false 5; sample_answer 2 true 1;
               sample_answer 3 false 9] in
   forall maxAnswers, maxAnswers <= 0 \/ 3 <= maxAnswers ->
     FormatQuestionMarkdown decodeHTML formatDate 1 (Some q) maxAnswers =
     Some (lines
       [ "# " +:+ decodeHTML ""; "";
         "Score: **0**  |  Views: **0**  |  Answers: **3**  |  ✅ Answered"; "";
         "---"; "";
         decodeHTML ""; "";
         "---"; "";
         "## Top 3 Answer(s)"; "";
         "### Answer 1  ✅ Accepted  (Score: 1)"; "";
         decodeHTML ""; "";
         "---"; "";
         "### Answer 2  (Score: 9)"; "";
         decodeHTML ""; "";
         "---"; "";
         "### Answer 3  (Score: 5)"; "";
         decodeHTML ""; "" ])).
Proof.
  split; [|split].
  - intros fuel q maxAnswers Hne.
    exists (Sort.Slice answer_less (QuestionData.Answers q)).
    destruct (ranked_answers_order (QuestionData.Answers q)) as [P O].
    split; [done|]. split; [done|].
    rewrite FormatQuestionMarkdown_with_answers by done.
    destruct (formatNumber fuel (QuestionData.ViewCount q)); [|done].
    simpl. by rewrite answers_section_text.
  - intros fuel q maxAnswers. apply FormatQuestionMarkdown_returns.
  - intros q maxAnswers Hmax. subst q.
    rewrite FormatQuestionMarkdown_with_answers by (simpl; congruence).
    change (formatNumber 1 _) with (Some "0"). simpl fmap. f_equal.
    rewrite answers_section_text.
    change (Sort.Slice answer_less _) with
      [sample_answer 2 true 1; sample_answer 3 false 9; sample_answer 1 false 5].
    assert (shown_count maxAnswers 3 = 3) as Hs.
    { destruct (shown_count_spec maxAnswers 3) as [H1 H2].
      destruct (decide (0 < maxAnswers)); [rewrite H1 by done|rewrite H2]; lia. }
    change (length _) with 3%nat. rewrite Hs.
    cbv -[String.append]. rewrite ?str_app_assoc, ?str_app_nil_r. reflexivity.
Qed.

(** C6.  With embedded answers, the number of answers shown is
    [min(maxAnswers, n)] when [maxAnswers] is positive and [n] when it is
    not positive or exceeds [n]; the text holds the texts of that many
    answers, numbered from 1 under their headings, the heading of the
    section gives that number, and when answers are left out the text
    ends with the note giving the number left out; the call returns for
    every view count but the least [int].  With [maxAnswers = 2] and five
    answers the text reads [Top 2 Answer(s)], answer 1 and answer 2, and
    the note that 3 more exist. *)
Theorem FormatQuestionMarkdown_answers_shown :
  (forall fuel (q : QuestionData) maxAnswers,
     QuestionData.Answers q <> [] ->
     let n := length (QuestionData.Answers q) in
     let shown := shown_count maxAnswers n in
     (0 < maxAnswers -> shown = Z.min maxAnswers (Z.of_nat n)) /\
     (maxAnswers <= 0 \/ Z.of_nat n < maxAnswers -> shown = Z.of_nat n) /\
     exists shown_answers,
       length shown_answers = Z.to_nat shown /\
       shown_answers `sublist_of`
         Sort.Slice answer_less (QuestionData.Answers q) /\
       FormatQuestionMarkdown decodeHTML formatDate fuel (Some q) maxAnswers =
       (fun views =>
          question_section decodeHTML formatDate q views +:+
          answers_heading shown +:+
          answers_text decodeHTML 1 shown_answers +:+
          (if Z.of_nat n >? shown
           then omitted_note (Z.of_nat n - shown) else ""))
       <$> formatNumber fuel (QuestionData.ViewCount q)) /\
  (forall fuel (q : QuestionData) maxAnswers,
     in_range (QuestionData.ViewCount q) -> QuestionData.ViewCount q <> min_int ->
     is_Some (FormatQuestionMarkdown decodeHTML formatDate (S (S fuel)) (Some q)
                maxAnswers)) /\
  (let q := sample_with_answers
              [sample_answer 1 false 5; sample_answer 2 true 1;
               sample_answer 3 false 9; sample_answer 4 false 2;
               sample_answer 5 false 7] in
   FormatQuestionMarkdown decodeHTML formatDate 1 (Some q) 2 =
   Some (lines
     [ "# " +:+ decodeHTML ""; "";
       "Score: **0**  |  Views: **0**  |  Answers: **5**  |  ✅ Answered"; "";
       "---"; "";
       decodeHTML ""; "";
       "---"; "";
       "## Top 2 Answer(s)"; "";
       "### Answer 1  ✅ Accepted  (Score: 1)"; "";
       decodeHTML ""; "";
       "---"; "";
       "### Answer 2  (Score: 9)"; "";
       decodeHTML ""; "";
       "";
       "*(3 more answers on Stack Overflow)*" ])).
Proof.
  split; [|split].
  - intros fuel q maxAnswers Hne n shown.
    destruct (shown_count_spec maxAnswers n) as [H1 H2].
    split; [done|]. split; [done|].
    set (ranked := Sort.Slice answer_less (QuestionData.Answers q)).
    assert (Hlen : length ranked = n).
    { apply Permutation_length, (SortFacts.Slice_Permutation _ answer_less_swo). }
    pose proof (shown_count_range maxAnswers n) as Hr.
    exists (take (Z.to_nat shown) ranked).
    split; [rewrite length_take; fold shown in Hr; lia|].
    split; [apply sublist_take|].
    rewrite FormatQuestionMarkdown_with_answers by done.
    destruct (formatNumber fuel (QuestionData.ViewCount q)); [|done].
    simpl. fold ranked. rewrite answers_section_text. by rewrite Hlen.
  - intros fuel q maxAnswers. apply FormatQuestionMarkdown_returns.
  - intros q. subst q.
    rewrite FormatQuestionMarkdown_with_answers by (simpl; congruence).
    change (formatNumber 1 _) with (Some "0"). simpl fmap. f_equal.
    rewrite answers_section_text.
    change (Sort.Slice answer_less _) with
      [sample_answer 2 true 1; sample_answer 3 false 9; sample_answer 5 false 7;
       sample_answer 1 false 5; sample_answer 4 false 2].
    cbv -[String.append]. rewrite ?str_app_assoc, ?str_app_nil_r. reflexivity.
Qed.

(** C9.  Called with a nil payload the function returns the empty
    string, whatever [maxAnswers] is, and leaves the memory alone. *)
Theorem FormatQuestionMarkdown_nil fuel maxAnswers :
  FormatQuestionMarkdown decodeHTML formatDate fuel None maxAnswers = Some "" /\
  forall st,
    FormatQuestionMarkdown_mem decodeHTML formatDate fuel None maxAnswers st =
    (Some "", st).
Proof. split; reflexivity. Qed.

Lemma load_slice_insert_ne (st : Store) a a' l :
  a <> a' -> load_slice (<[a := l]> st) a' = load_slice st a'.
Proof. intros H. unfold load_slice. by rewrite lookup_insert_ne. Qed.

Lemma load_slice_insert_eq (st : Store) a l : load_slice (<[a := l]> st) a = l.
Proof. unfold load_slice. by rewrite lookup_insert_eq. Qed.

(** What the sorting block does to the memory: the sorted answers sit in
    a fresh array and every array that existed before is as it was. *)
Lemma sort_copy_frame (st : Store) (src : nat) :
  load_slice st src <> [] ->
  (sorted_copy src st).1 = Sort.Slice answer_less (load_slice st src) /\
  forall addr, addr ∈ dom st -> (sorted_copy src st).2 !! addr = st !! addr.
Proof.
  intros Hne. unfold sorted_copy, bind, make, copy, sort_Slice, read_slice.
  set (n := length (load_slice st src)).
  set (a := fresh (dom st)).
  assert (Ha : a ∉ dom st) by apply is_fresh.
  assert (Hsrc : src ∈ dom st).
  { apply elem_of_dom. unfold load_slice in Hne.
    destruct (st !! src); [done|]. by simpl in Hne. }
  assert (Hne' : a <> src) by (intros ->; done).
  simpl.
  rewrite !load_slice_insert_eq.
  rewrite (load_slice_insert_ne st a src) by done.
  assert (Hcopy : take (length (replicate n AnswerData.zero) `min` length (load_slice st src))
                    (load_slice st src) ++
                  drop (length (replicate n AnswerData.zero) `min` length (load_slice st src))
                    (replicate n AnswerData.zero) = load_slice st src).
  { rewrite length_replicate. fold n. rewrite Nat.min_id.
    unfold n. rewrite take_ge, drop_ge by (rewrite ?length_replicate; lia).
    apply app_nil_r. }
  rewrite Hcopy. split; [done|].
  intros addr Haddr. rewrite !lookup_insert_ne; [done|..]; by intros ->.
Qed.

(** C10.  The function does not write to its payload: after the call the
    payload reads as before (in particular its answers, contents and
    order), every array of the memory that existed before is unchanged
    (the sort works on a copy in a fresh array), and the text returned is
    the one determined by the payload. *)
Theorem FormatQuestionMarkdown_frame fuel (r : QuestionRef) maxAnswers (st : Store) :
  let '(out, st') :=
    FormatQuestionMarkdown_mem decodeHTML formatDate fuel (Some r) maxAnswers st in
  load st' r = load st r /\
  (forall addr, addr ∈ dom st -> st' !! addr = st !! addr) /\
  out = FormatQuestionMarkdown decodeHTML formatDate fuel (Some (load st r)) maxAnswers.
Proof.
  unfold FormatQuestionMarkdown_mem, FormatQuestionMarkdown.
  destruct (formatNumber fuel (QuestionData.ViewCount (load st r))) as [views|];
    [|done].
  change (QuestionData.Answers (load st r)) with (load_slice st (answers_at r)).
  destruct (load_slice st (answers_at r)) as [|a0 rest] eqn:E.
  { simpl. by destruct (_ && _). }
  rewrite <- E.
  assert (Hne : load_slice st (answers_at r) <> []) by (rewrite E; done).
  assert (Hpos : (0 <? length (load_slice st (answers_at r)))%nat = true).
  { rewrite E. done. }
  rewrite Hpos.
  destruct (sort_copy_frame st (answers_at r) Hne) as [Hs Hfr].
  unfold bind at 1, ret.
  destruct (sorted_copy (answers_at r) st) as [sorted st'].
  simpl in Hs, Hfr. subst sorted.
  split; [|split; [done|done]].
  unfold load. f_equal. unfold load_slice. rewrite Hfr; [done|].
  apply elem_of_dom. unfold load_slice in E.
  destruct (st !! answers_at r); [done|]. by simpl in E.
Qed.

End FormatFacts.

(** ** [ExtractQuestionID] *)

Module RegexpFacts.
Import Regexp.

(** A repetition that succeeds has run its continuation after a run of
    at least [min - count] bytes of the class. *)
Lemma rep_greedy_sound {T} p min s : forall count (k : list ascii -> option T) res,
  rep_greedy p min count s k = Some res ->
  exists n, (min <= count + n)%nat /\ (n <= length s)%nat /\
    Forall (fun c => p c = true) (take n s) /\ k (drop n s) = Some res.
Proof.
  induction s as [|c s IH]; intros count k res H; simpl in H.
  - destruct (min <=? count)%nat eqn:E; [|done].
    apply Nat.leb_le in E. exists 0%nat. simpl. repeat split; auto; lia.
  - assert (Hstop : (if (min <=? count)%nat then k (c :: s) else None) = Some res ->
      exists n, (min <= count + n)%nat /\ (n <= length (c :: s))%nat /\
        Forall (fun c => p c = true) (take n (c :: s)) /\
        k (drop n (c :: s)) = Some res).
    { intros Hs. destruct (min <=? count)%nat eqn:E; [|done].
      apply Nat.leb_le in E. exists 0%nat. simpl. repeat split; auto; lia. }
    destruct (p c) eqn:Epc; [|by apply Hstop].
    destruct (rep_greedy p min (S count) s k) as [r|] eqn:Er; [|by apply Hstop].
    injection H as ->.
    destruct (IH _ _ _ Er) as (n & H1 & H2 & H3 & H4).
    exists (S n). simpl. repeat split; auto; try lia.
Qed.

(** A match that succeeds has run its continuation. *)
Lemma rmatch_calls {T} r : forall s cap (k : list ascii -> option (list ascii) -> option T) res,
  rmatch r s cap k = Some res -> exists rest cap', k rest cap' = Some res.
Proof.
  induction r as [bytes|p|r1 IH1 r2 IH2|r1 IH1 r2 IH2|r1 IH1|min p|r1 IH1];
    intros s cap k res H; simpl in H.
  - destruct (strip_prefix bytes s); [eauto|done].
  - destruct s as [|c s]; [done|]. destruct (p c); [eauto|done].
  - apply IH1 in H as (rest & cap' & H). by apply IH2 in H.
  - destruct (rmatch r1 s cap k) eqn:E; [injection H as ->; by eapply IH1|].
    by eapply IH2.
  - destruct (rmatch r1 s cap k) eqn:E; [injection H as ->; by eapply IH1|eauto].
  - apply rep_greedy_sound in H as (n & _ & _ & _ & H). eauto.
  - apply IH1 in H as (rest & cap' & H). eauto.
Qed.

Lemma len_string_of_list l : len (string_of_list_ascii l) = length l.
Proof. unfold len. induction l as [|c l IH]; simpl; [done|]. by rewrite IH. Qed.

(** Whatever a pattern that ends in [(\d{min,})] captures is a run of at
    least [min] digits. *)
Lemma ends_with_digits_capture {T} min re :
  ends_with_digits min re ->
  forall s cap (f : list ascii -> T) w c,
    rmatch re s cap (fun rest cap' => Some (f rest, cap')) = Some (w, c) ->
    exists ds, c = Some ds /\ (min <= length ds)%nat /\
               Forall (fun c => is_digit c = true) ds.
Proof.
  induction 1 as [|r1 r2 He IH]; intros s cap f w c H; simpl in H.
  - apply rep_greedy_sound in H as (n & H1 & H2 & H3 & H4).
    injection H4 as _ <-.
    rewrite length_drop. replace (length s - (length s - n))%nat with n by lia.
    exists (take n s). split; [done|]. split; [|done].
    rewrite length_take. lia.
  - apply rmatch_calls in H as (rest & cap' & H). by eapply IH.
Qed.

Lemma find_from_capture min re :
  ends_with_digits min re ->
  forall s w c, find_from re s = Some (w, c) ->
    exists ds, c = Some ds /\ (min <= length ds)%nat /\
               Forall (fun c => is_digit c = true) ds.
Proof.
  intros He s. induction s as [|a s IH]; intros w c H; cbn [find_from] in H.
  - destruct (rmatch re [] None _) as [[w' c']|] eqn:E; [|done].
    injection H as -> ->.
    by eapply (ends_with_digits_capture min re He [] None
                 (fun rest => take (length (@nil ascii) - length rest) [])).
  - destruct (rmatch re (a :: s) None _) as [[w' c']|] eqn:E.
    + injection H as -> ->.
      by eapply (ends_with_digits_capture min re He (a :: s) None
                   (fun rest => take (length (a :: s) - length rest) (a :: s))).
    + by eapply IH.
Qed.

(** [FindStringSubmatch] answers nil or the whole match and a run of digits. *)
Lemma FindStringSubmatch_cases min re text :
  ends_with_digits min re ->
  FindStringSubmatch re text = [] \/
  exists whole ds, FindStringSubmatch re text = [whole; ds] /\ digit_run min ds.
Proof.
  intros He. unfold FindStringSubmatch.
  destruct (find_from re (list_ascii_of_string text)) as [[w c]|] eqn:E; [|by left].
  right. destruct (find_from_capture min re He _ _ _ E) as (ds & -> & H1 & H2).
  exists (string_of_list_ascii w), (string_of_list_ascii ds).
  split; [done|]. split.
  - by rewrite len_string_of_list.
  - by rewrite list_ascii_of_string_of_list_ascii.
Qed.

Lemma rep_greedy_total {T} p min s : forall count (k : list ascii -> option T),
  (forall rest, is_Some (k rest)) -> (min <= count)%nat ->
  is_Some (rep_greedy p min count s k).
Proof.
  induction s as [|c s IH]; intros count k Hk Hmin; simpl.
  - apply Nat.leb_le in Hmin as ->. apply Hk.
  - apply Nat.leb_le in Hmin as Hmin'. rewrite Hmin'.
    destruct (p c); [|apply Hk].
    destruct (rep_greedy p min (S count) s k); [done|apply Hk].
Qed.

Lemma strip_prefix_app bytes t : strip_prefix bytes (bytes ++ t) = Some t.
Proof.
  induction bytes as [|b bytes IH]; simpl; [by destruct t|].
  by rewrite bool_decide_eq_true_2.
Qed.

(** A literal followed by a digit is a match of [literal(\d+)]. *)
Lemma literal_digits_match {T} bytes d post
    (k : list ascii -> option (list ascii) -> option T) :
  is_digit d = true -> (forall rest cap, is_Some (k rest cap)) ->
  is_Some (rmatch (RSeq (RLit bytes) (RGroup (RRepeat 1 is_digit)))
             (bytes ++ d :: post) None k).
Proof.
  intros Hd Hk. simpl. rewrite strip_prefix_app. simpl. rewrite Hd.
  destruct (rep_greedy is_digit 1 1 post _) eqn:E; [done|].
  exfalso. eapply is_Some_None. erewrite <- E.
  apply rep_greedy_total; [|lia]. intros rest. apply Hk.
Qed.

Lemma find_from_complete re pre t :
  (forall (k : list ascii -> option (list ascii) ->
               option (list ascii * option (list ascii))),
     (forall rest cap, is_Some (k rest cap)) -> is_Some (rmatch re t None k)) ->
  is_Some (find_from re (pre ++ t)).
Proof.
  intros Ht. induction pre as [|c pre IH].
  - simpl. destruct t as [|c t]; cbn [find_from].
    + destruct (rmatch re [] None _) eqn:E; [done|].
      specialize (Ht (fun rest cap => Some (take (length (@nil ascii) - length rest) [], cap))).
      rewrite E in Ht. destruct Ht as [x Hx]; [by eauto|done].
    + destruct (rmatch re (c :: t) None _) eqn:E; [done|].
      specialize (Ht (fun rest cap =>
                        Some (take (length (c :: t) - length rest) (c :: t), cap))).
      rewrite E in Ht. destruct Ht as [x Hx]; [by eauto|done].
  - change ((c :: pre) ++ t) with (c :: (pre ++ t)). cbn [find_from].
    destruct (rmatch re (c :: pre ++ t) None _); [done|apply IH].
Qed.

Lemma list_ascii_of_string_app s1 s2 :
  list_ascii_of_string (s1 +:+ s2) = list_ascii_of_string s1 ++ list_ascii_of_string s2.
Proof.
  induction s1 as [|c s1 IH]; [done|]. rewrite str_app_cons. simpl. by rewrite IH.
Qed.

Lemma pattern_marker_ends : ends_with_digits 1 pattern_marker.
Proof. repeat constructor. Qed.
Lemma pattern_questions_path_ends : ends_with_digits 1 pattern_questions_path.
Proof. repeat constructor. Qed.
Lemma pattern_short_url_ends : ends_with_digits 1 pattern_short_url.
Proof. repeat constructor. Qed.
Lemma pattern_labelled_ends : ends_with_digits 5 pattern_labelled.
Proof. repeat constructor. Qed.

Lemma digit_run_weaken min min' ds :
  (min' <= min)%nat -> digit_run min ds -> digit_run min' ds.
Proof. intros H [H1 H2]. split; [lia|done]. Qed.

(** An [SO_Q] token somewhere in the text makes the first pattern match. *)
Lemma marker_found pre d post :
  is_digit d = true ->
  exists whole ds,
    FindStringSubmatch pattern_marker (pre +:+ "SO_Q" +:+ String d post) = [whole; ds] /\
    digit_run 1 ds.
Proof.
  intros Hd.
  destruct (FindStringSubmatch_cases 1 pattern_marker
              (pre +:+ "SO_Q" +:+ String d post) pattern_marker_ends)
    as [Hnil|H]; [|done].
  exfalso. unfold FindStringSubmatch in Hnil.
  rewrite !list_ascii_of_string_app in Hnil.
  destruct (find_from_complete pattern_marker (list_ascii_of_string pre)
              (list_ascii_of_string "SO_Q" ++ list_ascii_of_string (String d post)))
    as [[w c] Hf].
  { intros k Hk. by apply literal_digits_match. }
  by rewrite Hf in Hnil.
Qed.

End RegexpFacts.

(** ** [ExtractQuestionID]: the matcher and the language of a pattern *)

Module LangFacts.
Import Regexp RegexpLang.

Lemma class_avoids_digits_spec p c :
  class_avoids_digits p = true -> p c = true -> is_digit c = false.
Proof.
  unfold class_avoids_digits. intros Hall Hp.
  destruct (is_digit c) eqn:Hd; [|done]. exfalso.
  unfold is_digit in Hd. apply andb_true_iff in Hd as [H1 H2].
  apply Nat.leb_le in H1, H2.
  rewrite forallb_forall in Hall.
  specialize (Hall (nat_of_ascii c)). rewrite ascii_nat_embedding, Hp in Hall.
  assert (negb true = true); [|done].
  apply Hall. apply in_seq. lia.
Qed.

Lemma avoids_digits_lang r : forall m,
  avoids_digits r = true -> lang r m ->
  Forall (fun c => is_digit c = false) m.
Proof.
  induction r as [bytes|p|r1 IH1 r2 IH2|r1 IH1 r2 IH2|r1 IH1|min p|r1 IH1];
    intros m Ha Hm; cbn [avoids_digits lang] in *.
  - subst m. rewrite forallb_forall in Ha. apply List.Forall_forall.
    intros c Hc. apply Ha in Hc. by destruct (is_digit c).
  - destruct Hm as (c & -> & Hp). repeat constructor.
    by eapply class_avoids_digits_spec.
  - apply andb_true_iff in Ha as [Ha1 Ha2].
    destruct Hm as (m1 & m2 & -> & H1 & H2). apply Forall_app. split; auto.
  - apply andb_true_iff in Ha as [Ha1 Ha2]. destruct Hm; auto.
  - destruct Hm as [->|Hm]; [constructor|auto].
  - destruct Hm as [_ Hm]. eapply Forall_impl; [exact Hm|].
    intros c Hc. by eapply class_avoids_digits_spec.
  - auto.
Qed.

Lemma lead_avoids_digits_lang r : forall l,
  lead_avoids_digits r = true -> lead_lang r l ->
  Forall (fun c => is_digit c = false) l.
Proof.
  induction r as [bytes|p|r1 IH1 r2 IH2|r1 IH1 r2 IH2|r1 IH1|min p|r1 IH1];
    intros l Ha Hl; cbn [lead_avoids_digits lead_lang] in *;
    try (subst l; constructor).
  apply andb_true_iff in Ha as [Ha1 Ha2].
  destruct Hl as (l1 & l2 & -> & H1 & H2). apply Forall_app. split.
  - by eapply avoids_digits_lang.
  - by apply IH2.
Qed.

Lemma strip_prefix_split bytes : forall s rest,
  strip_prefix bytes s = Some rest -> s = bytes ++ rest.
Proof.
  induction bytes as [|b bytes IH]; intros s rest H; simpl in H.
  - by injection H as ->.
  - destruct s as [|c s]; [done|]. case_bool_decide; [|done]. subst c.
    simpl. f_equal. by apply IH.
Qed.

(** A match that succeeds has taken a word of the language and run its
    continuation on the rest. *)
Lemma rmatch_sound {T} r : forall s cap
    (k : list ascii -> option (list ascii) -> option T) res,
  rmatch r s cap k = Some res ->
  exists m rest cap', s = m ++ rest /\ lang r m /\ k rest cap' = Some res.
Proof.
  induction r as [bytes|p|r1 IH1 r2 IH2|r1 IH1 r2 IH2|r1 IH1|min p|r1 IH1];
    intros s cap k res H; cbn [rmatch lang] in *.
  - destruct (strip_prefix bytes s) as [rest|] eqn:Es; [|done].
    apply strip_prefix_split in Es. by exists bytes, rest, cap.
  - destruct s as [|c rest]; [done|]. destruct (p c) eqn:Hp; [|done].
    exists [c], rest, cap. split; [done|]. split; [by exists c|done].
  - apply IH1 in H as (m1 & rest1 & cap1 & -> & Hm1 & H).
    apply IH2 in H as (m2 & rest2 & cap2 & -> & Hm2 & H).
    exists (m1 ++ m2), rest2, cap2. split; [by rewrite app_assoc|].
    split; [by exists m1, m2|done].
  - destruct (rmatch r1 s cap k) as [res1|] eqn:E1.
    + injection H as <-. apply IH1 in E1 as (m & rest & cap' & ? & ? & ?).
      exists m, rest, cap'. auto.
    + apply IH2 in H as (m & rest & cap' & ? & ? & ?). exists m, rest, cap'. auto.
  - destruct (rmatch r1 s cap k) as [res1|] eqn:E1.
    + injection H as <-. apply IH1 in E1 as (m & rest & cap' & ? & ? & ?).
      exists m, rest, cap'. auto.
    + exists [], s, cap. auto.
  - apply RegexpFacts.rep_greedy_sound in H as (n & Hn & Hle & Hall & H).
    exists (take n s), (drop n s), cap. split; [by rewrite take_drop|].
    split; [|done]. split; [|done]. rewrite length_take. lia.
  - apply IH1 in H as (m & rest & cap' & ? & ? & ?). by eexists m, rest, _.
Qed.

Lemma rep_greedy_complete {T} p min m rest (k : list ascii -> option T) :
  Forall (fun c => p c = true) m -> is_Some (k rest) ->
  forall count, (min <= count + length m)%nat ->
  is_Some (rep_greedy p min count (m ++ rest) k).
Proof.
  intros Hm Hk. induction Hm as [|c m Hc Hm IH]; intros count Hmin.
  - simpl in *. assert ((min <=? count)%nat = true) as E by (apply Nat.leb_le; lia).
    destruct rest as [|c rest]; simpl; rewrite E; [done|].
    destruct (p c); [|done]. by destruct (rep_greedy p min (S count) rest k).
  - simpl. rewrite Hc.
    destruct (IH (S count)) as [r ->]; [simpl in Hmin; lia|]. done.
Qed.

(** A word of the language whose rest the continuation accepts is
    matched. *)
Lemma rmatch_complete {T} r : forall m rest cap
    (k : list ascii -> option (list ascii) -> option T),
  lang r m -> (forall cap', is_Some (k rest cap')) ->
  is_Some (rmatch r (m ++ rest) cap k).
Proof.
  induction r as [bytes|p|r1 IH1 r2 IH2|r1 IH1 r2 IH2|r1 IH1|min p|r1 IH1];
    intros m rest cap k Hm Hk; cbn [rmatch lang] in *.
  - subst m. by rewrite RegexpFacts.strip_prefix_app.
  - destruct Hm as (c & -> & Hp). simpl. by rewrite Hp.
  - destruct Hm as (m1 & m2 & -> & H1 & H2). rewrite <-app_assoc.
    apply IH1; [done|]. intros cap'. by apply IH2.
  - destruct (rmatch r1 (m ++ rest) cap k) as [res1|] eqn:E1; [done|].
    destruct Hm as [Hm|Hm].
    + destruct (IH1 m rest cap k Hm Hk) as [x Hx]. congruence.
    + by apply IH2.
  - destruct (rmatch r1 (m ++ rest) cap k) as [res1|] eqn:E1; [done|].
    destruct Hm as [->|Hm]; [apply Hk|].
    destruct (IH1 m rest cap k Hm Hk) as [x Hx]. congruence.
  - destruct Hm as [Hlen Hm]. apply rep_greedy_complete; [done|apply Hk|lia].
  - apply IH1; [done|]. intros cap'. apply Hk.
Qed.

(** A repetition whose continuation accepts everything takes the whole
    run. *)
Lemma rep_greedy_max {T} p min s : forall count (k : list ascii -> option T) res,
  (forall rest, is_Some (k rest)) ->
  rep_greedy p min count s k = Some res ->
  exists n, (min <= count + n)%nat /\ (n <= length s)%nat /\
    Forall (fun c => p c = true) (take n s) /\
    match drop n s with [] => True | c :: _ => p c = false end /\
    k (drop n s) = Some res.
Proof.
  induction s as [|c s IH]; intros count k res Hk H; simpl in H.
  - destruct (min <=? count)%nat eqn:E; [|done]. apply Nat.leb_le in E.
    exists 0%nat. simpl. repeat split; auto; lia.
  - destruct (p c) eqn:Hp.
    + destruct (rep_greedy p min (S count) s k) as [r|] eqn:Er.
      * injection H as ->.
        destruct (IH _ _ _ Hk Er) as (n & H1 & H2 & H3 & H4 & H5).
        exists (S n). simpl. repeat split; auto; lia.
      * exfalso.
        destruct (RegexpFacts.rep_greedy_total p min s (S count) k Hk) as [x Hx].
        2: congruence.
        (* the stop branch was taken: [min <= count] *)
        destruct (min <=? count)%nat eqn:E; [|done]. apply Nat.leb_le in E. lia.
    + destruct (min <=? count)%nat eqn:E; [|done]. apply Nat.leb_le in E.
      exists 0%nat. simpl. repeat split; auto; try lia.
Qed.


(** What a pattern that ends in the group of digits captures: the match
    is a lead and the whole run of digits after it. *)
Lemma ends_with_digits_match {T} min re :
  ends_with_digits min re ->
  forall s cap (f : list ascii -> T) w c,
    rmatch re s cap (fun rest cap' => Some (f rest, cap')) = Some (w, c) ->
    exists l ds post,
      s = l ++ ds ++ post /\ lead_lang re l /\
      (min <= length ds)%nat /\ Forall (fun c => is_digit c = true) ds /\
      match post with [] => True | c :: _ => is_digit c = false end /\
      c = Some ds /\ w = f post.
Proof.
  induction 1 as [|r1 r2 He IH]; intros s cap f w c H; cbn [rmatch] in H.
  - apply rep_greedy_max in H as (n & Hn & Hle & Hall & Hpost & H); [|by eauto].
    injection H as <- <-. rewrite length_drop.
    replace (length s - (length s - n))%nat with n by lia.
    exists [], (take n s), (drop n s). rewrite app_nil_l, take_drop.
    repeat split; auto. rewrite length_take. lia.
  - apply rmatch_sound in H as (m1 & rest1 & cap1 & -> & Hm1 & H).
    apply IH in H as (l & ds & post & -> & Hl & Hmin & Hds & Hpost & -> & ->).
    exists (m1 ++ l), ds, post. rewrite <-app_assoc.
    repeat split; auto. cbn [lead_lang]. by exists m1, l.
Qed.

(** A lead and a run of digits make a word of the pattern. *)
Lemma ends_with_digits_lang min re :
  ends_with_digits min re ->
  forall l ds, lead_lang re l -> (min <= length ds)%nat ->
    Forall (fun c => is_digit c = true) ds -> lang re (l ++ ds).
Proof.
  induction 1 as [|r1 r2 He IH]; intros l ds Hl Hmin Hds; cbn [lead_lang lang] in *.
  - subst l. done.
  - destruct Hl as (l1 & l2 & -> & H1 & H2). exists l1, (l2 ++ ds).
    rewrite <-app_assoc. auto.
Qed.

(** The run of digits after a lead without digits is determined by the
    text. *)
Lemma lead_digits_unique (l : list ascii) : forall l' ds ds' post post',
  l ++ ds ++ post = l' ++ ds' ++ post' ->
  Forall (fun c => is_digit c = false) l ->
  Forall (fun c => is_digit c = false) l' ->
  Forall (fun c => is_digit c = true) ds ->
  Forall (fun c => is_digit c = true) ds' ->
  (1 <= length ds)%nat -> (1 <= length ds')%nat ->
  match post with [] => True | c :: _ => is_digit c = false end ->
  match post' with [] => True | c :: _ => is_digit c = false end ->
  l = l' /\ ds = ds' /\ post = post'.
Proof.
  assert (Hrun : forall ds ds' post post',
    ds ++ post = ds' ++ post' ->
    Forall (fun c => is_digit c = true) ds ->
    Forall (fun c => is_digit c = true) ds' ->
    match post with [] => True | c :: _ => is_digit c = false end ->
    match post' with [] => True | c :: _ => is_digit c = false end ->
    ds = ds' /\ post = post').
  { induction ds as [|d ds IH]; intros ds' post post' Heq Hds Hds' Hp Hp'.
    - destruct ds' as [|d' ds']; [done|]. simpl in Heq. subst post.
      apply Forall_cons in Hds' as [Hd' _]. congruence.
    - destruct ds' as [|d' ds'].
      + simpl in Heq. subst post'. apply Forall_cons in Hds as [Hd _]. congruence.
      + injection Heq as -> Heq. apply Forall_cons in Hds as [_ Hds].
        apply Forall_cons in Hds' as [_ Hds'].
        destruct (IH ds' post post' Heq Hds Hds' Hp Hp') as [-> ->]. done. }
  induction l as [|c l IH]; intros l' ds ds' post post' Heq Hl Hl' Hds Hds' Hn Hn' Hp Hp'.
  - destruct l' as [|c' l'].
    + destruct (Hrun ds ds' post post' Heq Hds Hds' Hp Hp') as [-> ->]. done.
    + destruct ds as [|d ds]; [simpl in Hn; lia|]. injection Heq as -> _.
      apply Forall_cons in Hds as [Hd _]. apply Forall_cons in Hl' as [Hc _].
      congruence.
  - destruct l' as [|c' l'].
    + destruct ds' as [|d ds']; [simpl in Hn'; lia|]. injection Heq as -> _.
      apply Forall_cons in Hds' as [Hd _]. apply Forall_cons in Hl as [Hc _].
      congruence.
    + injection Heq as -> Heq. apply Forall_cons in Hl as [_ Hl].
      apply Forall_cons in Hl' as [_ Hl'].
      destruct (IH l' ds ds' post post' Heq Hl Hl' Hds Hds' Hn Hn' Hp Hp')
        as (-> & -> & ->). done.
Qed.

Section FindFrom.

Variable min : nat.
Variable re : regex.
Hypothesis Hends : ends_with_digits min re.
Hypothesis Hlead : lead_avoids_digits re = true.
Hypothesis Hmin : (1 <= min)%nat.

(** No phrase of the pattern in the text: no match. *)
Lemma find_from_none s :
  (forall pre l ds post,
     s = pre ++ l ++ ds ++ post -> lead_lang re l ->
     (min <= length ds)%nat -> Forall (fun c => is_digit c = true) ds -> False) ->
  find_from re s = None.
Proof.
  induction s as [|x s IH]; intros Hno; cbn [find_from].
  - destruct (rmatch re [] None _) as [[w c]|] eqn:Em; [|done].
    apply (ends_with_digits_match min re Hends) in Em
      as (l & ds & post & Hs & Hl & Hm & Hds & _).
    destruct (Hno [] l ds post); auto.
  - destruct (rmatch re (x :: s) None _) as [[w c]|] eqn:Em.
    + apply (ends_with_digits_match min re Hends) in Em
        as (l & ds & post & Hs & Hl & Hm & Hds & _).
      destruct (Hno [] l ds post); auto.
    + apply IH. intros pre l ds post Hs Hl Hm Hds.
      apply (Hno (x :: pre) l ds post); auto. by rewrite Hs.
Qed.

(** A phrase of the pattern in the text: a match. *)
Lemma find_from_some pre l ds post :
  lead_lang re l -> (min <= length ds)%nat ->
  Forall (fun c => is_digit c = true) ds ->
  is_Some (find_from re (pre ++ l ++ ds ++ post)).
Proof.
  intros Hl Hm Hds. apply RegexpFacts.find_from_complete. intros k Hk.
  rewrite app_assoc. apply rmatch_complete; [|by intros; apply Hk].
  by apply (ends_with_digits_lang min).
Qed.

(** The match is the phrase that begins first, and the group holds its
    whole run of digits. *)
Lemma find_from_first l ds post : forall pre,
  lead_lang re l -> (min <= length ds)%nat ->
  Forall (fun c => is_digit c = true) ds ->
  match post with [] => True | c :: _ => is_digit c = false end ->
  (forall pre' l' ds' post',
     pre ++ l ++ ds ++ post = pre' ++ l' ++ ds' ++ post' -> lead_lang re l' ->
     (min <= length ds')%nat -> Forall (fun c => is_digit c = true) ds' ->
     (length pre <= length pre')%nat) ->
  find_from re (pre ++ l ++ ds ++ post) = Some (l ++ ds, Some ds).
Proof.
  intros pre Hl Hm Hds Hpost. induction pre as [|x pre IH]; intros Hfirst.
  - rewrite app_nil_l.
    assert (Hhere : forall k : list ascii -> option (list ascii) ->
                      option (list ascii * option (list ascii)),
              (forall rest cap, is_Some (k rest cap)) ->
              is_Some (rmatch re (l ++ ds ++ post) None k)).
    { intros k Hk. rewrite app_assoc. apply rmatch_complete; [|by intros; apply Hk].
      by apply (ends_with_digits_lang min). }
    assert (Hres : forall w c,
      rmatch re (l ++ ds ++ post) None
        (fun rest cap => Some (take (length (l ++ ds ++ post) - length rest)
                                 (l ++ ds ++ post), cap)) = Some (w, c) ->
      (w, c) = (l ++ ds, Some ds)).
    { intros w c Em.
      apply (ends_with_digits_match min re Hends) in Em
        as (l' & ds' & post' & Hs & Hl' & Hm' & Hds' & Hpost' & -> & ->).
      destruct (lead_digits_unique l l' ds ds' post post' Hs) as (<- & <- & <-);
        auto; try lia; try (by eapply lead_avoids_digits_lang).
      f_equal. rewrite !length_app.
      replace (length l + (length ds + length post) - length post)%nat
        with (length (l ++ ds)) by (rewrite length_app; lia).
      by rewrite app_assoc, take_app_length. }
    destruct (l ++ ds ++ post) as [|c0 s0] eqn:Es; cbn [find_from].
    + apply (f_equal length) in Es. rewrite !length_app in Es. simpl in Es. lia.
    + destruct (Hhere (fun rest cap =>
                  Some (take (length (c0 :: s0) - length rest) (c0 :: s0), cap))
                  ltac:(by eauto)) as [[w c] Em].
      rewrite Em. f_equal. by apply Hres.
  - change ((x :: pre) ++ l ++ ds ++ post) with (x :: (pre ++ l ++ ds ++ post)).
    cbn [find_from].
    destruct (rmatch re (x :: pre ++ l ++ ds ++ post) None _) as [[w c]|] eqn:Em.
    + apply (ends_with_digits_match min re Hends) in Em
        as (l' & ds' & post' & Hs & Hl' & Hm' & Hds' & _).
      specialize (Hfirst [] l' ds' post' Hs Hl' Hm' Hds'). simpl in Hfirst. lia.
    + apply IH. intros pre' l' ds' post' Hs Hl' Hm' Hds'.
      specialize (Hfirst (x :: pre') l' ds' post'). simpl in Hfirst.
      rewrite Hs in Hfirst. specialize (Hfirst eq_refl Hl' Hm' Hds'). lia.
Qed.

End FindFrom.

End LangFacts.

(** ** [ExtractQuestionID]: the phrases of the four patterns *)

Module PhraseFacts.
Import Regexp RegexpLang.

Lemma string_of_list_app a b : string_of_list_ascii (a ++ b) = string_of_list_ascii a +:+ string_of_list_ascii b.
Proof. induction a as [|c a IH]; [done|]. simpl. by rewrite IH. Qed.

Lemma string_of_list_eq a x : string_of_list_ascii a = x <-> a = list_ascii_of_string x.
Proof.
  split; intros H.
  - by rewrite <-H, list_ascii_of_string_of_list_ascii.
  - by rewrite H, string_of_list_ascii_of_string.
Qed.

Lemma length_list_of_string x : length (list_ascii_of_string x) = len x.
Proof. by rewrite <-RegexpFacts.len_string_of_list, string_of_list_ascii_of_string. Qed.

Lemma no_leading_digit_list post :
  no_leading_digit post <->
  match list_ascii_of_string post with [] => True | c :: _ => is_digit c = false end.
Proof. by destruct post. Qed.

Section Phrases.

Variable lead : string -> Prop.
Variable min : nat.
Variable re : regex.
Hypothesis Hends : ends_with_digits min re.
Hypothesis Havoid : lead_avoids_digits re = true.
Hypothesis Hmin : (1 <= min)%nat.
Hypothesis Hbridge : forall l, lead_lang re l <-> lead (string_of_list_ascii l).

Lemma phrase_at_list text pre ds post :
  phrase_at lead min text pre ds post <->
  exists l, list_ascii_of_string text = list_ascii_of_string pre ++ l ++ list_ascii_of_string ds ++ list_ascii_of_string post /\ lead_lang re l /\
            (min <= length (list_ascii_of_string ds))%nat /\
            Forall (fun c => is_digit c = true) (list_ascii_of_string ds).
Proof.
  unfold phrase_at, digit_run. split.
  - intros (l & -> & Hl & Hlen & Hds). exists (list_ascii_of_string l).
    rewrite !RegexpFacts.list_ascii_of_string_app. split; [done|].
    split; [apply Hbridge; by rewrite string_of_list_ascii_of_string|].
    by rewrite length_list_of_string.
  - intros (l & Heq & Hl & Hlen & Hds). exists (string_of_list_ascii l).
    split; [|split; [by apply Hbridge|by rewrite <-length_list_of_string]].
    apply (f_equal string_of_list_ascii) in Heq.
    by rewrite !string_of_list_app, !string_of_list_ascii_of_string in Heq.
Qed.

Lemma FindStringSubmatch_first text ds :
  first_phrase lead min text ds ->
  exists whole, FindStringSubmatch re text = [whole; ds].
Proof.
  intros (pre & post & Hat & Hpost & Hfirst).
  apply phrase_at_list in Hat as (l & Heq & Hl & Hlen & Hds).
  unfold FindStringSubmatch. rewrite Heq.
  rewrite (LangFacts.find_from_first min re Hends Havoid Hmin); auto.
  - eexists. simpl. by rewrite string_of_list_ascii_of_string.
  - by apply no_leading_digit_list.
  - intros pre' l' ds' post' Heq' Hl' Hlen' Hds'.
    rewrite length_list_of_string.
    rewrite <-(RegexpFacts.len_string_of_list pre').
    apply (Hfirst (string_of_list_ascii pre') (string_of_list_ascii ds') (string_of_list_ascii post')).
    apply phrase_at_list. exists l'.
    rewrite !list_ascii_of_string_of_list_ascii. by rewrite <-Heq', <-Heq.
Qed.

Lemma FindStringSubmatch_none text :
  no_phrase lead min text <-> FindStringSubmatch re text = [].
Proof.
  unfold FindStringSubmatch. split.
  - intros Hno. rewrite (LangFacts.find_from_none min re Hends); [done|].
    intros pre l ds post Heq Hl Hlen Hds.
    apply (Hno (string_of_list_ascii pre) (string_of_list_ascii ds) (string_of_list_ascii post)). apply phrase_at_list. exists l.
    by rewrite !list_ascii_of_string_of_list_ascii.
  - intros Hnil pre ds post Hat.
    apply phrase_at_list in Hat as (l & Heq & Hl & Hlen & Hds).
    rewrite Heq in Hnil.
    destruct (LangFacts.find_from_some min re Hends (list_ascii_of_string pre) l (list_ascii_of_string ds) (list_ascii_of_string post))
      as [[w c] Hsome]; auto.
    by rewrite Hsome in Hnil.
Qed.

End Phrases.

Lemma lead_literal (p : string) r l :
  lead_lang (RSeq (lit p) (RGroup r)) l <-> string_of_list_ascii l = p.
Proof.
  cbn [lead_lang lang lit]. rewrite string_of_list_eq. split.
  - intros (l1 & l2 & -> & -> & ->). by rewrite app_nil_r.
  - intros ->. exists (list_ascii_of_string p), []. by rewrite app_nil_r.
Qed.

Lemma letter_variant_lang c a :
  lang (fold_letter c) a <-> letter_variant c (string_of_list_ascii a).
Proof.
  assert (Heither :
    lang (RClass (fun b => bool_decide (lower_byte b = c))) a <->
    exists b, string_of_list_ascii a = String b "" /\ lower_byte b = c).
  { cbn [lang]. split.
    - intros (b & -> & Hb). exists b. split; [done|]. by apply bool_decide_eq_true in Hb.
    - intros (b & Ha & Hb). exists b. apply string_of_list_eq in Ha.
      split; [done|]. by apply bool_decide_eq_true. }
  unfold fold_letter, letter_variant.
  case_bool_decide as Es; [|case_bool_decide as Ek]; cbn [lang] in *.
  - subst c. split.
    + intros [H|Hl]; [left; by apply Heither|]. right. left. by subst a.
    + intros [H|[[_ H]|[H _]]];
        [left; by apply Heither|right; by apply string_of_list_eq in H|discriminate H].
  - subst c. split.
    + intros [H|Hl]; [left; by apply Heither|]. right. right. by subst a.
    + intros [H|[[H _]|[_ H]]];
        [left; by apply Heither|discriminate H|right; by apply string_of_list_eq in H].
  - rewrite Heither. split; [by left|]. intros [H|[[H _]|[H _]]]; [done|by subst|by subst].
Qed.

Lemma fold_word_lang w rest : forall m,
  lang (fold_word w rest) m <->
  exists a b, m = a ++ b /\ reads_as (string_of_list_ascii w) (string_of_list_ascii a) /\ lang rest b.
Proof.
  induction w as [|c w IH]; intros m; cbn [fold_word].
  - split.
    + intros H. by exists [], m.
    + intros (a & b & -> & Ha & Hb). simpl in Ha. apply string_of_list_eq in Ha.
      by subst a.
  - cbn [lang]. split.
    + intros (m1 & m2 & -> & H1 & H2). apply IH in H2 as (a & b & -> & Ha & Hb).
      exists (m1 ++ a), b. rewrite <-app_assoc. split; [done|]. split; [|done].
      simpl. exists (string_of_list_ascii m1), (string_of_list_ascii a). rewrite string_of_list_app.
      split; [done|]. split; [by apply letter_variant_lang|done].
    + intros (a & b & -> & Ha & Hb). simpl in Ha.
      destruct Ha as (x & w' & Heq & Hx & Hw').
      apply string_of_list_eq in Heq. rewrite RegexpFacts.list_ascii_of_string_app in Heq.
      subst a. exists (list_ascii_of_string x), (list_ascii_of_string w' ++ b). rewrite <-app_assoc. split; [done|].
      split; [apply letter_variant_lang; by rewrite string_of_list_ascii_of_string|].
      apply IH. exists (list_ascii_of_string w'), b. by rewrite string_of_list_ascii_of_string.
Qed.

Lemma fold_word_lead w rest : forall l,
  lead_lang (fold_word w rest) l <->
  exists a b, l = a ++ b /\ reads_as (string_of_list_ascii w) (string_of_list_ascii a) /\ lead_lang rest b.
Proof.
  induction w as [|c w IH]; intros m; cbn [fold_word].
  - split.
    + intros H. by exists [], m.
    + intros (a & b & -> & Ha & Hb). simpl in Ha. apply string_of_list_eq in Ha.
      by subst a.
  - cbn [lead_lang]. split.
    + intros (m1 & m2 & -> & H1 & H2). apply IH in H2 as (a & b & -> & Ha & Hb).
      exists (m1 ++ a), b. rewrite <-app_assoc. split; [done|]. split; [|done].
      simpl. exists (string_of_list_ascii m1), (string_of_list_ascii a). rewrite string_of_list_app.
      split; [done|]. split; [by apply letter_variant_lang|done].
    + intros (a & b & -> & Ha & Hb). simpl in Ha.
      destruct Ha as (x & w' & Heq & Hx & Hw').
      apply string_of_list_eq in Heq. rewrite RegexpFacts.list_ascii_of_string_app in Heq.
      subst a. exists (list_ascii_of_string x), (list_ascii_of_string w' ++ b). rewrite <-app_assoc. split; [done|].
      split; [apply letter_variant_lang; by rewrite string_of_list_ascii_of_string|].
      apply IH. exists (list_ascii_of_string w'), b. by rewrite string_of_list_ascii_of_string.
Qed.

Lemma lead_labelled_lang l :
  lead_lang pattern_labelled l <-> lead_labelled (string_of_list_ascii l).
Proof.
  unfold pattern_labelled, lead_labelled, all_bytes. rewrite fold_word_lead.
  cbn [lead_lang lang]. split.
  - intros (w & b & -> & Hw & sp & b2 & -> & [_ Hsp] & i & b3 & -> & Hi &
            seps & e & -> & [Hlen Hseps] & ->).
    exists (string_of_list_ascii w), (string_of_list_ascii sp), (string_of_list_ascii i), (string_of_list_ascii seps).
    rewrite app_nil_r, !string_of_list_app, !list_ascii_of_string_of_list_ascii.
    rewrite string_of_list_ascii_of_string in Hw.
    split; [done|]. split; [done|]. split; [done|]. split.
    { destruct Hi as [->|Hi]; [by left|]. right.
      apply fold_word_lang in Hi as (a & b' & -> & Ha & ->).
      rewrite app_nil_r. by rewrite string_of_list_ascii_of_string in Ha. }
    split; [|done]. intros Hnil. apply string_of_list_eq in Hnil. subst seps.
    simpl in Hlen. lia.
  - intros (w & sp & idw & seps & Heq & Hw & Hsp & Hi & Hne & Hseps).
    apply string_of_list_eq in Heq.
    rewrite !RegexpFacts.list_ascii_of_string_app in Heq. subst l.
    exists (list_ascii_of_string w), (list_ascii_of_string sp ++ list_ascii_of_string idw ++ list_ascii_of_string seps). split; [done|].
    split; [by rewrite !string_of_list_ascii_of_string|].
    exists (list_ascii_of_string sp), (list_ascii_of_string idw ++ list_ascii_of_string seps). split; [done|]. split; [split; [lia|done]|].
    exists (list_ascii_of_string idw), (list_ascii_of_string seps). split; [done|]. split.
    { destruct Hi as [->|Hi]; [by left|]. right. apply fold_word_lang.
      exists (list_ascii_of_string idw), []. rewrite app_nil_r.
      by rewrite !string_of_list_ascii_of_string. }
    exists (list_ascii_of_string seps), []. rewrite app_nil_r. split; [done|]. split; [|done].
    split; [|done]. destruct seps; [done|]. simpl. lia.
Qed.

End PhraseFacts.

Module PriorityFacts.
Import Regexp RegexpLang.

Lemma marker_bridge l :
  lead_lang pattern_marker l <-> lead_marker (string_of_list_ascii l).
Proof. apply PhraseFacts.lead_literal. Qed.

Lemma questions_path_bridge l :
  lead_lang pattern_questions_path l <-> lead_questions_path (string_of_list_ascii l).
Proof. apply PhraseFacts.lead_literal. Qed.

Lemma short_url_bridge l :
  lead_lang pattern_short_url l <-> lead_short_url (string_of_list_ascii l).
Proof. apply PhraseFacts.lead_literal. Qed.

Lemma marker_first text ds :
  first_phrase lead_marker 1 text ds ->
  exists whole, FindStringSubmatch pattern_marker text = [whole; ds].
Proof.
  apply (PhraseFacts.FindStringSubmatch_first lead_marker 1 pattern_marker
           RegexpFacts.pattern_marker_ends eq_refl (le_n 1) marker_bridge).
Qed.

Lemma questions_path_first text ds :
  first_phrase lead_questions_path 1 text ds ->
  exists whole, FindStringSubmatch pattern_questions_path text = [whole; ds].
Proof.
  apply (PhraseFacts.FindStringSubmatch_first lead_questions_path 1
           pattern_questions_path RegexpFacts.pattern_questions_path_ends eq_refl
           (le_n 1) questions_path_bridge).
Qed.

Lemma short_url_first text ds :
  first_phrase lead_short_url 1 text ds ->
  exists whole, FindStringSubmatch pattern_short_url text = [whole; ds].
Proof.
  apply (PhraseFacts.FindStringSubmatch_first lead_short_url 1 pattern_short_url
           RegexpFacts.pattern_short_url_ends eq_refl (le_n 1) short_url_bridge).
Qed.

Lemma labelled_first text ds :
  first_phrase lead_labelled 5 text ds ->
  exists whole, FindStringSubmatch pattern_labelled text = [whole; ds].
Proof.
  apply (PhraseFacts.FindStringSubmatch_first lead_labelled 5 pattern_labelled
           RegexpFacts.pattern_labelled_ends eq_refl ltac:(lia)
           PhraseFacts.lead_labelled_lang).
Qed.

Lemma marker_none text :
  no_phrase lead_marker 1 text <-> FindStringSubmatch pattern_marker text = [].
Proof.
  apply (PhraseFacts.FindStringSubmatch_none lead_marker 1 pattern_marker
           RegexpFacts.pattern_marker_ends marker_bridge).
Qed.

Lemma questions_path_none text :
  no_phrase lead_questions_path 1 text <->
  FindStringSubmatch pattern_questions_path text = [].
Proof.
  apply (PhraseFacts.FindStringSubmatch_none lead_questions_path 1
           pattern_questions_path RegexpFacts.pattern_questions_path_ends
           questions_path_bridge).
Qed.

Lemma short_url_none text :
  no_phrase lead_short_url 1 text <-> FindStringSubmatch pattern_short_url text = [].
Proof.
  apply (PhraseFacts.FindStringSubmatch_none lead_short_url 1 pattern_short_url
           RegexpFacts.pattern_short_url_ends short_url_bridge).
Qed.

Lemma labelled_none text :
  no_phrase lead_labelled 5 text <-> FindStringSubmatch pattern_labelled text = [].
Proof.
  apply (PhraseFacts.FindStringSubmatch_none lead_labelled 5 pattern_labelled
           RegexpFacts.pattern_labelled_ends PhraseFacts.lead_labelled_lang).
Qed.

Lemma digit_run_nonempty min ds : (1 <= min)%nat -> digit_run min ds -> ds <> "".
Proof. intros Hm [Hlen _] ->. simpl in Hlen. lia. Qed.

End PriorityFacts.

(** C7.  [ExtractQuestionID] looks for four phrases, in this order: the
    marker [SO_Q], the path [/questions/], the short path
    [stackoverflow.com/q/], each followed by one digit at least, and the
    label [question] (in any letter case, then optional white space, an
    optional [id], and colons or white space) followed by five digits at
    least.  It returns the whole run of digits of the first phrase of the
    first kind that occurs in the text: of the first marker when there is
    one; else of the first [/questions/] path; else of the first short
    path; else of the first labelled phrase; and the empty string exactly
    when none of the four occurs.  So a text with an [SO_Q] token and a
    [question: 55555] phrase, in either order, gets the digits of the
    token.  The result is a run of digits or empty. *)
Theorem ExtractQuestionID_priority :
  (forall text ds,
     first_phrase lead_marker 1 text ds -> ExtractQuestionID text = ds) /\
  (forall text ds,
     no_phrase lead_marker 1 text ->
     first_phrase lead_questions_path 1 text ds -> ExtractQuestionID text = ds) /\
  (forall text ds,
     no_phrase lead_marker 1 text -> no_phrase lead_questions_path 1 text ->
     first_phrase lead_short_url 1 text ds -> ExtractQuestionID text = ds) /\
  (forall text ds,
     no_phrase lead_marker 1 text -> no_phrase lead_questions_path 1 text ->
     no_phrase lead_short_url 1 text ->
     first_phrase lead_labelled 5 text ds -> ExtractQuestionID text = ds) /\
  (forall text,
     ExtractQuestionID text = "" <->
     no_phrase lead_marker 1 text /\ no_phrase lead_questions_path 1 text /\
     no_phrase lead_short_url 1 text /\ no_phrase lead_labelled 5 text) /\
  (forall text,
     ExtractQuestionID text =
     first_match_of (Regexp.FindStringSubmatch pattern_marker text)
       (Regexp.FindStringSubmatch pattern_questions_path text)
       (Regexp.FindStringSubmatch pattern_short_url text)
       (Regexp.FindStringSubmatch pattern_labelled text)) /\
  (forall text,
     (Regexp.FindStringSubmatch pattern_marker text = [] /\
      Regexp.FindStringSubmatch pattern_questions_path text = [] /\
      Regexp.FindStringSubmatch pattern_short_url text = [] /\
      Regexp.FindStringSubmatch pattern_labelled text = [] /\
      ExtractQuestionID text = "") \/
     digit_run 1 (ExtractQuestionID text)) /\
  (forall pre d post, Regexp.is_digit d = true ->
     exists whole ds,
       Regexp.FindStringSubmatch pattern_marker (pre +:+ "SO_Q" +:+ String d post)
         = [whole; ds] /\
       digit_run 1 ds /\
       ExtractQuestionID (pre +:+ "SO_Q" +:+ String d post) = ds) /\
  ExtractQuestionID "see SO_Q12345678, question: 55555" = "12345678" /\
  ExtractQuestionID "question: 55555 (SO_Q12345678)" = "12345678" /\
  ExtractQuestionID "question: 55555" = "55555" /\
  ExtractQuestionID "no identifier here" = "" /\
  ExtractQuestionID "https://stackoverflow.com/questions/11227809/why" = "11227809" /\
  ExtractQuestionID "at stackoverflow.com/q/927358 (question: 55555)" = "927358" /\
  ExtractQuestionID "Question ID: 1234567." = "1234567" /\
  ExtractQuestionID "question: 1234" = "".
Proof.
  assert (Hunfold : forall text,
     ExtractQuestionID text =
     first_match_of (Regexp.FindStringSubmatch pattern_marker text)
       (Regexp.FindStringSubmatch pattern_questions_path text)
       (Regexp.FindStringSubmatch pattern_short_url text)
       (Regexp.FindStringSubmatch pattern_labelled text)).
  { intros text. unfold ExtractQuestionID, patterns, first_submatch, first_match_of.
    destruct (RegexpFacts.FindStringSubmatch_cases 1 pattern_marker text
                RegexpFacts.pattern_marker_ends) as [->|(w & ds & -> & _)]; [|done].
    destruct (RegexpFacts.FindStringSubmatch_cases 1 pattern_questions_path text
                RegexpFacts.pattern_questions_path_ends) as [->|(w & ds & -> & _)];
      [|done].
    destruct (RegexpFacts.FindStringSubmatch_cases 1 pattern_short_url text
                RegexpFacts.pattern_short_url_ends) as [->|(w & ds & -> & _)];
      [|done].
    destruct (RegexpFacts.FindStringSubmatch_cases 5 pattern_labelled text
                RegexpFacts.pattern_labelled_ends) as [->|(w & ds & -> & _)];
      done. }
  assert (Hcases : forall text,
     (Regexp.FindStringSubmatch pattern_marker text = [] /\
      Regexp.FindStringSubmatch pattern_questions_path text = [] /\
      Regexp.FindStringSubmatch pattern_short_url text = [] /\
      Regexp.FindStringSubmatch pattern_labelled text = [] /\
      ExtractQuestionID text = "") \/
     digit_run 1 (ExtractQuestionID text)).
  { intros text. rewrite Hunfold. unfold first_match_of.
    destruct (RegexpFacts.FindStringSubmatch_cases 1 pattern_marker text
                RegexpFacts.pattern_marker_ends) as [->|(w & ds & -> & Hr)];
      [|by right].
    destruct (RegexpFacts.FindStringSubmatch_cases 1 pattern_questions_path text
                RegexpFacts.pattern_questions_path_ends) as [->|(w & ds & -> & Hr)];
      [|by right].
    destruct (RegexpFacts.FindStringSubmatch_cases 1 pattern_short_url text
                RegexpFacts.pattern_short_url_ends) as [->|(w & ds & -> & Hr)];
      [|by right].
    destruct (RegexpFacts.FindStringSubmatch_cases 5 pattern_labelled text
                RegexpFacts.pattern_labelled_ends) as [->|(w & ds & -> & Hr)].
    + by left.
    + right. eapply RegexpFacts.digit_run_weaken; [|exact Hr]. lia. }
  split; [|split; [|split; [|split; [|split; [|split; [|split; [|split]]]]]]].
  - intros text ds Hf. rewrite Hunfold.
    by destruct (PriorityFacts.marker_first text ds Hf) as [w ->].
  - intros text ds H1 Hf. rewrite Hunfold.
    apply PriorityFacts.marker_none in H1 as ->.
    by destruct (PriorityFacts.questions_path_first text ds Hf) as [w ->].
  - intros text ds H1 H2 Hf. rewrite Hunfold.
    apply PriorityFacts.marker_none in H1 as ->.
    apply PriorityFacts.questions_path_none in H2 as ->.
    by destruct (PriorityFacts.short_url_first text ds Hf) as [w ->].
  - intros text ds H1 H2 H3 Hf. rewrite Hunfold.
    apply PriorityFacts.marker_none in H1 as ->.
    apply PriorityFacts.questions_path_none in H2 as ->.
    apply PriorityFacts.short_url_none in H3 as ->.
    by destruct (PriorityFacts.labelled_first text ds Hf) as [w ->].
  - intros text. rewrite PriorityFacts.marker_none, PriorityFacts.questions_path_none,
      PriorityFacts.short_url_none, PriorityFacts.labelled_none. split.
    + intros He. destruct (Hcases text) as [(H1 & H2 & H3 & H4 & _)|Hr]; [done|].
      rewrite He in Hr. destruct Hr as [Hlen _]. simpl in Hlen. lia.
    + intros (H1 & H2 & H3 & H4). by rewrite Hunfold, H1, H2, H3, H4.
  - done.
  - done.
  - intros pre d post Hd.
    destruct (RegexpFacts.marker_found pre d post Hd) as (w & ds & Hm & Hr).
    exists w, ds. split; [done|]. split; [done|].
    rewrite Hunfold, Hm. done.
  - repeat split; vm_compute; reflexivity.
Qed.

(** ** [ParseResponse] *)

Module JsonFacts.
Import Json.

Local Open Scope nat_scope.

Lemma skip_ws_length s : length (skip_ws s) <= length s.
Proof.
  induction s as [|c s IH]; simpl; [done|]. destruct (is_ws c); simpl; lia.
Qed.

Lemma scan_string_length n : forall s raw rest,
  length s <= n -> scan_string s = Some (raw, rest) -> length rest < length s.
Proof.
  induction n as [|n IH]; intros s raw rest Hn H.
  { destruct s; [done|simpl in Hn; lia]. }
  destruct s as [|c s1]; [done|]. cbn [scan_string] in H. simpl in Hn.
  destruct (is_quote c); [injection H as _ <-; simpl; lia|].
  destruct (is_backslash c).
  - destruct s1 as [|e s2]; [done|].
    destruct (byte_is e "u").
    + destruct s2 as [|h1 [|h2 [|h3 [|h4 s3]]]]; try done.
      destruct (is_hex h1 && is_hex h2 && is_hex h3 && is_hex h4); [|done].
      destruct (scan_string s3) as [[raw' rest']|] eqn:E; [|done].
      injection H as _ <-. apply IH in E; simpl in *; lia.
    + destruct (is_simple_escape e); [|done].
      destruct (scan_string s2) as [[raw' rest']|] eqn:E; [|done].
      injection H as _ <-. apply IH in E; simpl in *; lia.
  - destruct (nat_of_ascii c <? 32); [done|].
    destruct (scan_string s1) as [[raw' rest']|] eqn:E; [|done].
    injection H as _ <-. apply IH in E; simpl in *; lia.
Qed.

Lemma scan_digits_length s ds rest :
  scan_digits s = (ds, rest) -> length rest + length ds = length s.
Proof.
  revert ds rest. induction s as [|c s IH]; intros ds rest H; simpl in H.
  - by injection H as <- <-.
  - destruct (is_digit c).
    + destruct (scan_digits s) as [ds' rest'] eqn:E. injection H as <- <-.
      specialize (IH _ _ eq_refl). simpl. lia.
    + injection H as <- <-. simpl. lia.
Qed.

Lemma scan_number_length s lit rest :
  scan_number s = Some (lit, rest) -> length rest < length s.
Proof.
  unfold scan_number. intros H.
  repeat (case_match; simplify_eq);
    repeat match goal with
    | E : scan_digits _ = _ |- _ => apply scan_digits_length in E
    end; simpl in *; lia.
Qed.

Lemma strip_prefix_length bytes : forall s rest,
  Regexp.strip_prefix bytes s = Some rest -> length rest <= length s.
Proof.
  induction bytes as [|b bytes IH]; intros s rest H; simpl in H.
  - destruct s; injection H as <-; done.
  - destruct s as [|c s]; [done|]. case_bool_decide; [|done].
    apply IH in H. simpl. lia.
Qed.

(** With fuel for twice the length of the input the parser comes to an
    end, and a value read takes a byte at least. *)
Lemma parse_fuel fuel :
  (forall depth s, 2 * length s + 1 <= fuel ->
     parse_value fuel depth s <> PFuel /\
     forall v rest, parse_value fuel depth s = POk v rest -> length rest < length s) /\
  (forall depth first s acc, 2 * length s + 2 <= fuel ->
     parse_elements fuel depth first s acc <> PFuel /\
     forall v rest, parse_elements fuel depth first s acc = POk v rest ->
       length rest < length s) /\
  (forall depth first s acc, 2 * length s + 2 <= fuel ->
     parse_members fuel depth first s acc <> PFuel /\
     forall v rest, parse_members fuel depth first s acc = POk v rest ->
       length rest < length s).
Proof.
  induction fuel as [|fuel (IHv & IHe & IHm)].
  { repeat split; intros; lia. }
  split; [|split].
  - intros depth s Hf. cbn [parse_value].
    pose proof (skip_ws_length s) as Hws.
    destruct (skip_ws s) as [|c rest] eqn:Es; [by split|]. simpl in Hws.
    destruct (byte_is c "{").
    { destruct (depth <? maxNestingDepth)%N; [|by split].
      destruct (IHm (depth + 1)%N true rest []) as [H1 H2]; [lia|].
      split; [done|]. intros v r Hr. apply H2 in Hr. lia. }
    destruct (byte_is c "[").
    { destruct (depth <? maxNestingDepth)%N; [|by split].
      destruct (IHe (depth + 1)%N true rest []) as [H1 H2]; [lia|].
      split; [done|]. intros v r Hr. apply H2 in Hr. lia. }
    destruct (is_quote c).
    { destruct (scan_string rest) as [[raw r']|] eqn:E; [|by split].
      split; [done|]. intros v r [= _ <-].
      apply (scan_string_length (length rest)) in E; [lia|done]. }
    destruct (byte_is c "-" || is_digit c).
    { destruct (scan_number (c :: rest)) as [[lit r']|] eqn:E; [|by split].
      split; [done|]. intros v r [= _ <-].
      apply scan_number_length in E. simpl in E. lia. }
    assert (Hlit : forall word (x : json),
      match literal_rest word rest with
      | Some rest' => POk x rest'
      | None => PErr
      end <> PFuel /\
      forall v r, match literal_rest word rest with
                  | Some rest' => POk x rest'
                  | None => PErr
                  end = POk v r -> length r < length s).
    { intros word x. unfold literal_rest.
      destruct (Regexp.strip_prefix _ rest) as [r'|] eqn:E; [|by split].
      split; [done|]. intros v r [= _ <-].
      apply strip_prefix_length in E. lia. }
    destruct (byte_is c "t"); [apply Hlit|].
    destruct (byte_is c "f"); [apply Hlit|].
    destruct (byte_is c "n"); [apply Hlit|]. by split.
  - intros depth first s acc Hf. cbn [parse_elements].
    pose proof (skip_ws_length s) as Hws.
    destruct (skip_ws s) as [|c rest] eqn:Es; [by split|]. simpl in Hws.
    destruct (first && byte_is c "]").
    { split; [done|]. intros v r [= _ <-]. lia. }
    destruct (IHv depth (c :: rest)) as [H1 H2]; [simpl; lia|].
    destruct (parse_value fuel depth (c :: rest)) as [v rest1| |] eqn:Ev;
      [|by split|done].
    specialize (H2 _ _ eq_refl). simpl in H2.
    pose proof (skip_ws_length rest1) as Hws1.
    destruct (skip_ws rest1) as [|c' rest2]; [by split|]. simpl in Hws1.
    destruct (byte_is c' ",").
    { destruct (IHe depth false rest2 (v :: acc)) as [H3 H4]; [lia|].
      split; [done|]. intros v' r Hr. apply H4 in Hr. lia. }
    destruct (byte_is c' "]"); [|by split].
    split; [done|]. intros v' r [= _ <-]. lia.
  - intros depth first s acc Hf. cbn [parse_members].
    pose proof (skip_ws_length s) as Hws.
    destruct (skip_ws s) as [|c rest] eqn:Es; [by split|]. simpl in Hws.
    destruct (first && byte_is c "}").
    { split; [done|]. intros v r [= _ <-]. lia. }
    destruct (is_quote c); [|by split].
    destruct (scan_string rest) as [[raw rest1]|] eqn:E; [|by split].
    apply (scan_string_length (length rest)) in E; [|done].
    pose proof (skip_ws_length rest1) as Hws1.
    destruct (skip_ws rest1) as [|c1 rest2]; [by split|]. simpl in Hws1.
    destruct (byte_is c1 ":"); [|by split].
    destruct (IHv depth rest2) as [H1 H2]; [lia|].
    destruct (parse_value fuel depth rest2) as [v rest3| |] eqn:Ev;
      [|by split|done].
    specialize (H2 _ _ eq_refl).
    pose proof (skip_ws_length rest3) as Hws3.
    destruct (skip_ws rest3) as [|c' rest4]; [by split|]. simpl in Hws3.
    destruct (byte_is c' ",").
    { destruct (IHm depth false rest4 ((unquote raw, v) :: acc)) as [H3 H4]; [lia|].
      split; [done|]. intros v' r Hr. apply H4 in Hr. lia. }
    destruct (byte_is c' "}"); [|by split].
    split; [done|]. intros v' r [= _ <-]. lia.
Qed.

(** The parser always comes to an end. *)
Lemma parse_total text : parse text <> PFuel.
Proof.
  unfold parse.
  destruct (parse_fuel (2 * length (list_ascii_of_string text) + 2)) as [Hv _].
  destruct (Hv 0%N (list_ascii_of_string text)) as [H _]; [lia|].
  destruct (parse_value _ 0 _) as [v rest| |]; [|done|done].
  by destruct (skip_ws rest).
Qed.

End JsonFacts.

Section ParseResponseFacts.
Variable float_overflows : string -> bool.

Lemma decode_members_no_field (members : list (string * json)) (r : SOResponse) :
  (forall k v, (k, v) ∈ members ->
     Decode.key_is k "Items" = false /\ Decode.key_is k "Errors" = false) ->
  Decode.decode_members (Decode.SOResponse_field float_overflows) members r = Some r.
Proof.
  induction members as [|[k v] members IH]; intros H; simpl; [done|].
  destruct (H k v) as [H1 H2]; [by left|].
  unfold Decode.SOResponse_field at 1. rewrite H1, H2.
  apply IH. intros k' v' Hin. apply (H k' v'). by right.
Qed.

(** On the empty object the code answers the zero envelope. *)
Lemma ParseResponse_empty_object :
  ParseResponse float_overflows "{}" = inr SOResponse.zero.
Proof. reflexivity. Qed.


End ParseResponseFacts.


(** ** The statements at sample inputs *)

Lemma BestQuestion_ties_witness :
  BestQuestion ToLower_ascii (Some three_questions) [] =
    Some (1%nat, SOItem.Data (sample_question 201 7)) /\
  ((length (chosen_questions ToLower_ascii three_questions []) <= 12)%nat ->
   forall j item', (j < 1)%nat ->
     SOResponse.Items three_questions !! j = Some item' ->
     candidate ToLower_ascii three_questions [] item' ->
     ~ same_rank (SOItem.Data item') (SOItem.Data (sample_question 201 7))).
Proof.
  split; [vm_compute; reflexivity|].
  apply (BestQuestion_ties ToLower_ascii three_questions []
           (1%nat, SOItem.Data (sample_question 201 7))).
  vm_compute. reflexivity.
Defined.

Lemma BestQuestion_no_hints_witness :
  exists i item,
    BestQuestion ToLower_ascii (Some three_questions) [] = Some (i, SOItem.Data item) /\
    SOResponse.Items three_questions !! i = Some item /\
    question_typed item /\
    forall item', item' ∈ SOResponse.Items three_questions -> question_typed item' ->
      ranks_no_higher (SOItem.Data item') (SOItem.Data item).
Proof.
  apply (proj2 (BestQuestion_no_hints ToLower_ascii) three_questions).
  exists (sample_question 200 5). split; [left|right]; reflexivity.
Defined.

Lemma BestQuestion_tag_hints_witness :
  (exists i item,
     BestQuestion ToLower_ascii (Some tagged_questions) ["go"] =
       Some (i, SOItem.Data item) /\
     SOResponse.Items tagged_questions !! i = Some item /\
     question_typed item /\ tags_intersect ToLower_ascii ["go"] item /\
     forall item', item' ∈ SOResponse.Items tagged_questions -> question_typed item' ->
       tags_intersect ToLower_ascii ["go"] item' ->
       ranks_no_higher (SOItem.Data item') (SOItem.Data item)) /\
  BestQuestion ToLower_ascii (Some tagged_questions) ["rust"] =
  BestQuestion ToLower_ascii (Some tagged_questions) [].
Proof.
  destruct (BestQuestion_tag_hints ToLower_ascii tagged_questions ["go"])
    as (H1 & _ & _).
  destruct (BestQuestion_tag_hints ToLower_ascii tagged_questions ["rust"])
    as (_ & H2 & _).
  split.
  - apply H1. exists (tagged_question 301 4 "Go").
    split; [right; left; reflexivity|]. split; [left; reflexivity|].
    exists "Go", "go". split; [left|]. split; [left|reflexivity].
  - apply H2. intros item Hin _ (t & h & Ht & Hh & He).
    apply list_elem_of_singleton in Hh as ->.
    repeat (apply elem_of_cons in Hin as [-> | Hin];
            [apply list_elem_of_singleton in Ht as ->; vm_compute in He; discriminate He|]).
    by apply elem_of_nil in Hin.
Defined.

Lemma FormatQuestionMarkdown_answer_order_witness :
  let q := sample_with_answers
             [sample_answer 1 false 5; sample_answer 2 true 1; sample_answer 3 false 9] in
  exists ranked,
    ranked ≡ₚ QuestionData.Answers q /\
    accepted_first_then_score ranked /\
    FormatQuestionMarkdown (fun s => s) (fun _ => "") 1 (Some q) 0 =
    Some (question_section (fun s => s) (fun _ => "") q "0" +:+
          answers_heading 3 +:+
          answers_text (fun s => s) 1 ranked) /\
    FormatQuestionMarkdown (fun s => s) (fun _ => "") 1 (Some q) 0 =
    Some (lines
      [ "# "; "";
        "Score: **0**  |  Views: **0**  |  Answers: **3**  |  ✅ Answered"; "";
        "---"; ""; ""; "";
        "---"; "";
        "## Top 3 Answer(s)"; "";
        "### Answer 1  ✅ Accepted  (Score: 1)"; ""; ""; "";
        "---"; "";
        "### Answer 2  (Score: 9)"; ""; ""; "";
        "---"; "";
        "### Answer 3  (Score: 5)"; ""; ""; "" ]).
Proof.
  intros q.
  destruct (FormatQuestionMarkdown_answer_order (fun s => s) (fun _ => ""))
    as (Hgen & _ & Hex).
  destruct (Hgen 1%nat q 0) as (ranked & HP & Hord & Hout); [discriminate|].
  exists ranked. split; [exact HP|]. split; [exact Hord|]. split.
  - rewrite Hout. apply Permutation_length in HP.
    change (formatNumber 1 (QuestionData.ViewCount q)) with (Some "0").
    cbn [fmap option_fmap option_map]. rewrite HP.
    change (shown_count 0 (length (QuestionData.Answers q))) with 3.
    change (Z.of_nat (length (QuestionData.Answers q)) >? 3) with false. cbv iota.
    rewrite str_app_nil_r.
    rewrite firstn_all2 by (rewrite HP; simpl; lia). reflexivity.
  - apply (Hex 0). lia.
Defined.

Lemma FormatQuestionMarkdown_answers_shown_witness :
  let q := sample_with_answers
             [sample_answer 1 false 5; sample_answer 2 true 1;
              sample_answer 3 false 9; sample_answer 4 false 2;
              sample_answer 5 false 7] in
  shown_count 2 (length (QuestionData.Answers q)) = 2 /\
  (exists shown_answers,
     length shown_answers = 2%nat /\
     FormatQuestionMarkdown (fun s => s) (fun _ => "") 1 (Some q) 2 =
     Some (question_section (fun s => s) (fun _ => "") q "0" +:+
           answers_heading 2 +:+
           answers_text (fun s => s) 1 shown_answers +:+
           omitted_note 3)) /\
  FormatQuestionMarkdown (fun s => s) (fun _ => "") 1 (Some q) 2 =
  Some (lines
    [ "# "; "";
      "Score: **0**  |  Views: **0**  |  Answers: **5**  |  ✅ Answered"; "";
      "---"; ""; ""; "";
      "---"; "";
      "## Top 2 Answer(s)"; "";
      "### Answer 1  ✅ Accepted  (Score: 1)"; ""; ""; "";
      "---"; "";
      "### Answer 2  (Score: 9)"; ""; ""; "";
      "";
      "*(3 more answers on Stack Overflow)*" ]).
Proof.
  intros q.
  destruct (FormatQuestionMarkdown_answers_shown (fun s => s) (fun _ => ""))
    as (Hgen & _ & Hex).
  destruct (Hgen 1%nat q 2) as (H1 & _ & sa & Hlen & _ & Hout); [discriminate|].
  split; [apply H1; lia|]. split; [|exact Hex].
  exists sa. split; [exact Hlen|exact Hout].
Defined.

Lemma ExtractQuestionID_priority_witness :
  ExtractQuestionID ("" +:+ "/questions/" +:+ "11227809" +:+ "/why question: 55555")
  = "11227809".
Proof.
  destruct ExtractQuestionID_priority as (_ & H & _).
  apply H.
  - apply PriorityFacts.marker_none. by vm_compute.
  - exists "", "/why question: 55555". split; [|split].
    + exists "/questions/". split; [reflexivity|]. split; [reflexivity|].
      split; [simpl; lia|]. by repeat constructor.
    + reflexivity.
    + intros. simpl. lia.
Defined.


(** * Further properties of the code *)

(** ** [formatNumber]: grouping and commas *)

Lemma strip_commas_app s1 s2 :
  strip_commas (s1 +:+ s2) = strip_commas s1 +:+ strip_commas s2.
Proof.
  induction s1 as [|c s1 IH]; [done|].
  rewrite str_app_cons. simpl. case_bool_decide; [done|].
  by rewrite str_app_cons, IH.
Qed.

Lemma strip_commas_Join first chunks :
  strip_commas (Join (first :: chunks) ",") =
  strip_commas (first +:+ str_concat chunks).
Proof.
  revert first. induction chunks as [|c chunks IH]; intros first.
  - simpl. by rewrite str_app_nil_r.
  - change (Join (first :: c :: chunks) ",")
      with (first +:+ "," +:+ Join (c :: chunks) ",").
    rewrite !strip_commas_app, IH. simpl. by rewrite strip_commas_app.
Qed.

Lemma len_Join_groups first chunks :
  (forall c, c ∈ chunks -> len c = 3%nat) ->
  len (Join (first :: chunks) ",") = (len first + 4 * length chunks)%nat /\
  len (first +:+ str_concat chunks) = (len first + 3 * length chunks)%nat.
Proof.
  revert first. induction chunks as [|c chunks IH]; intros first Hc.
  - simpl. rewrite str_app_nil_r. lia.
  - change (Join (first :: c :: chunks) ",")
      with (first +:+ "," +:+ Join (c :: chunks) ",").
    destruct (IH c) as [H1 H2].
    { intros c' Hc'. apply Hc. by right. }
    change (str_concat (c :: chunks)) with (c +:+ str_concat chunks).
    rewrite (len_app first), (len_app ","), H1, (len_app first), H2.
    rewrite (Hc c) by (by left). simpl. lia.
Qed.

Lemma uint_digits d :
  Forall (fun c => Regexp.is_digit c = true)
    (list_ascii_of_string (NilEmpty.string_of_uint d)).
Proof. induction d; simpl; constructor; done. Qed.

Lemma Sprintf_d_digits n :
  0 <= n ->
  Forall (fun c => Regexp.is_digit c = true) (list_ascii_of_string (Sprintf_d n)).
Proof.
  intros Hn. unfold Sprintf_d. destruct n as [|p|p]; [by repeat constructor| |lia].
  simpl. destruct (Pos.to_uint p); try apply uint_digits. by repeat constructor.
Qed.

Lemma Sprintf_d_neg n : n < 0 -> Sprintf_d n = "-" +:+ Sprintf_d (- n).
Proof. intros Hn. destruct n as [|p|p]; [lia|lia|]. reflexivity. Qed.

Lemma strip_commas_digits s :
  Forall (fun c => Regexp.is_digit c = true) (list_ascii_of_string s) ->
  strip_commas s = s.
Proof.
  induction s as [|c s IH]; [done|]. simpl. intros H.
  apply Forall_cons in H as [Hc Hs]. case_bool_decide as E; [by subst|].
  by rewrite IH.
Qed.

(** X6.  For every [int] but the least one, [formatNumber] returns: the
    decimal digits of the absolute value cut in groups of three from the
    right and joined with commas, after a minus sign for a negative
    number. *)
Theorem formatNumber_grouping fuel n :
  in_range n -> n <> min_int ->
  exists first chunks,
    formatNumber (S (S fuel)) n =
      Some ((if n <? 0 then "-" else "") +:+ Join (first :: chunks) ",") /\
    groups_of_three (Sprintf_d (Z.abs n)) first chunks.
Proof.
  intros Hr Hmin. destruct (Z.ltb_spec n 0) as [Hneg|Hpos].
  - destruct (formatNumber_neg fuel n Hr Hneg Hmin) as (first & chunks & H1 & H2).
    exists first, chunks. split; [done|]. by rewrite Z.abs_neq by lia.
  - destruct (formatNumber_nonneg (S fuel) n Hpos) as (first & chunks & H1 & H2).
    exists first, chunks. split; [done|]. by rewrite Z.abs_eq by lia.
Qed.

(** X7.  Taking the commas out of what [formatNumber] returns gives back
    [fmt.Sprintf("%d", n)], and the result is longer than it by one comma
    for every three digits after the first. *)
Theorem formatNumber_strip_commas fuel n :
  in_range n -> n <> min_int ->
  exists s,
    formatNumber (S (S fuel)) n = Some s /\
    strip_commas s = Sprintf_d n /\
    len s = (len (Sprintf_d n) + (len (Sprintf_d (Z.abs n)) - 1) / 3)%nat.
Proof.
  intros Hr Hmin.
  assert (Hgroups : forall m first chunks, 0 <= m ->
            groups_of_three (Sprintf_d m) first chunks ->
            strip_commas (Join (first :: chunks) ",") = Sprintf_d m /\
            len (Join (first :: chunks) ",") =
              (len (Sprintf_d m) + (len (Sprintf_d m) - 1) / 3)%nat).
  { intros m first chunks Hm (Hcat & Hthree & Hfirst).
    destruct (len_Join_groups first chunks Hthree) as [HJ Hc].
    rewrite strip_commas_Join, Hcat, strip_commas_digits by by apply Sprintf_d_digits.
    split; [done|]. rewrite HJ, <-Hcat, Hc.
    assert ((len first + 3 * length chunks - 1) / 3 = length chunks)%nat as ->; [|lia].
    symmetry. apply (Nat.div_unique _ 3 _ (len first - 1)); lia. }
  destruct (Z.ltb_spec n 0) as [Hneg|Hpos].
  - destruct (formatNumber_neg fuel n Hr Hneg Hmin) as (first & chunks & H1 & H2).
    destruct (Hgroups (- n) first chunks) as [Hs Hl]; [lia|done|].
    eexists. split; [exact H1|].
    rewrite Z.abs_neq by lia. rewrite (Sprintf_d_neg n Hneg).
    split.
    + rewrite strip_commas_app, Hs. done.
    + rewrite !len_app, Hl. simpl. lia.
  - destruct (formatNumber_nonneg (S fuel) n Hpos) as (first & chunks & H1 & H2).
    destruct (Hgroups n first chunks) as [Hs Hl]; [lia|done|].
    eexists. split; [exact H1|]. rewrite Z.abs_eq by lia. done.
Qed.

(** ** [BestQuestion]: the part of the hints *)

Section BestQuestionHints.

Variable ToLower : string -> string.

Lemma chosen_questions_nil (resp : SOResponse) tagHints :
  chosen_questions ToLower resp tagHints = [] <->
  collect_questions 0 (SOResponse.Items resp) = [].
Proof.
  unfold chosen_questions.
  destruct (0 <? length tagHints)%nat; [|done].
  destruct (0 <? length (matching_questions _ _ _))%nat eqn:E; [|done].
  apply Nat.ltb_lt in E. split; intros Hnil.
  - rewrite Hnil in E. simpl in E. lia.
  - rewrite Hnil in E. simpl in E. lia.
Qed.

Lemma BestQuestion_Some_elem (resp : SOResponse) tagHints p :
  BestQuestion ToLower (Some resp) tagHints = Some p ->
  p ∈ chosen_questions ToLower resp tagHints.
Proof.
  rewrite BestQuestion_unfold. intros Hp.
  rewrite <-(SortFacts.Slice_Permutation question_less question_less_swo).
  by eapply list_elem_of_lookup_2.
Qed.

(** X8.  Whether [BestQuestion] finds a question does not depend on the
    hints: the result is nil exactly when the envelope is nil or holds no
    item of the question type. *)
Theorem BestQuestion_nil_iff resp tagHints :
  BestQuestion ToLower resp tagHints = None <->
  resp = None \/
  exists r, resp = Some r /\
    forall item, item ∈ SOResponse.Items r -> ~ question_typed item.
Proof.
  destruct resp as [r|]; [|split; [by left|done]].
  rewrite BestQuestion_unfold.
  assert (Hnil : Sort.Slice question_less (chosen_questions ToLower r tagHints) !! 0%nat
                 = None <->
                 collect_questions 0 (SOResponse.Items r) = []).
  { rewrite <-(chosen_questions_nil r tagHints).
    pose proof (SortFacts.Slice_Permutation question_less question_less_swo
                  (chosen_questions ToLower r tagHints)) as HP.
    apply Permutation_length in HP.
    destruct (Sort.Slice question_less _) as [|x l] eqn:Es;
      destruct (chosen_questions ToLower r tagHints) as [|y l'] eqn:Ec;
      simpl in *; first [lia | by split]. }
  rewrite Hnil. split.
  - intros Hq. right. exists r. split; [done|]. intros item Hin Ht.
    apply list_elem_of_lookup in Hin as [i Hi].
    assert (Hp : (i, SOItem.Data item) ∈ collect_questions 0 (SOResponse.Items r)).
    { apply questions_elem. by exists item. }
    rewrite Hq in Hp. by apply elem_of_nil in Hp.
  - intros [|(r' & Hr & Hno)]; [done|]. injection Hr as <-.
    destruct (collect_questions 0 (SOResponse.Items r)) as [|p l] eqn:Eq; [done|].
    assert (Hp : p ∈ collect_questions 0 (SOResponse.Items r)) by (rewrite Eq; by left).
    apply questions_elem in Hp as (item & Hi & Ht & _).
    exfalso. apply (Hno item); [|done]. by eapply list_elem_of_lookup_2.
Qed.

(** X9.  Hints never improve the rank of the result: the question picked
    with hints has no higher score, and for the same score no more views,
    than the one picked without hints; both have the same score and views
    when the question picked without hints carries one of the hinted
    tags. *)
Theorem BestQuestion_hints_rank (resp : SOResponse) tagHints p :
  BestQuestion ToLower (Some resp) tagHints = Some p ->
  exists i0 item0,
    BestQuestion ToLower (Some resp) [] = Some (i0, SOItem.Data item0) /\
    SOResponse.Items resp !! i0 = Some item0 /\
    ranks_no_higher (deref p) (SOItem.Data item0) /\
    (tags_intersect ToLower tagHints item0 -> same_rank (deref p) (SOItem.Data item0)).
Proof.
  intros Hp.
  pose proof (BestQuestion_Some_elem _ _ _ Hp) as Hin.
  apply chosen_elem in Hin as (item & Hi & Hd & Hc).
  destruct (BestQuestion_best ToLower resp tagHints) as [_ Hbest].
  destruct Hbest as (i & item' & Hb & Hi' & Hc' & Hmax); [by exists item|].
  rewrite Hp in Hb. injection Hb as ->. simpl in Hi, Hd. simplify_eq.
  destruct (BestQuestion_best ToLower resp []) as [_ Hbest0].
  destruct Hbest0 as (i0 & item0 & Hb0 & Hi0 & Hc0 & Hmax0).
  { exists item. apply candidate_no_hints. destruct Hc as (? & ? & _). done. }
  exists i0, item0. split; [done|]. split; [done|].
  assert (Hle : ranks_no_higher (SOItem.Data item) (SOItem.Data item0)).
  { apply Hmax0. apply candidate_no_hints. destruct Hc as (? & ? & _). done. }
  split; [done|]. intros Hm.
  assert (Hge : ranks_no_higher (SOItem.Data item0) (SOItem.Data item)).
  { apply Hmax. apply candidate_no_hints in Hc0 as [H1 H2]. by repeat split. }
  unfold ranks_no_higher, same_rank in *. simpl. lia.
Qed.

Lemma tags_match_same hints1 hints2 tags :
  same_hints ToLower hints1 hints2 ->
  tags_match ToLower (make_hintSet ToLower hints1) tags =
  tags_match ToLower (make_hintSet ToLower hints2) tags.
Proof.
  intros Hsame. unfold tags_match.
  induction tags as [|t tags IH]; [done|]. simpl. rewrite IH. f_equal.
  apply eq_true_iff_eq. rewrite !make_hintSet_get. apply Hsame.
Qed.

(** X10.  The hints count as a set of lower-cased tags: two lists of
    hints that hold the same tags once in lower case (in another order,
    with repetitions, in other letter case) select the same question. *)
Theorem BestQuestion_hints_as_set resp hints1 hints2 :
  same_hints ToLower hints1 hints2 ->
  BestQuestion ToLower resp hints1 = BestQuestion ToLower resp hints2.
Proof.
  intros Hsame. destruct resp as [r|]; [|done].
  rewrite !BestQuestion_unfold. f_equal. f_equal.
  unfold chosen_questions.
  assert (Hlen : (0 <? length hints1)%nat = (0 <? length hints2)%nat).
  { destruct hints1 as [|h1 l1], hints2 as [|h2 l2]; try done.
    - destruct (proj2 (Hsame (ToLower h2))) as (h & Hh & _); [exists h2; by split; [left|]|].
      by apply elem_of_nil in Hh.
    - destruct (proj1 (Hsame (ToLower h1))) as (h & Hh & _); [exists h1; by split; [left|]|].
      by apply elem_of_nil in Hh. }
  rewrite Hlen. destruct (0 <? length hints2)%nat; [|done].
  assert (Hm : matching_questions ToLower (make_hintSet ToLower hints1)
                 (collect_questions 0 (SOResponse.Items r)) =
               matching_questions ToLower (make_hintSet ToLower hints2)
                 (collect_questions 0 (SOResponse.Items r))).
  { unfold matching_questions. apply List.filter_ext. intros q.
    by apply tags_match_same. }
  by rewrite Hm.
Qed.

End BestQuestionHints.

(** ** Sorted lists of distinct ranks *)

(** Two arrangements of the same elements that are both in order are the
    same list when any two elements at different places are comparable. *)
Lemma sorted_Permutation_unique {A} (less : A -> A -> bool) (l1 : list A) :
  forall l2,
  l1 ≡ₚ l2 ->
  (forall i j u v, (i < j)%nat -> l1 !! i = Some u -> l1 !! j = Some v ->
     less v u = false) ->
  (forall i j u v, (i < j)%nat -> l2 !! i = Some u -> l2 !! j = Some v ->
     less v u = false) ->
  (forall i j u v, l1 !! i = Some u -> l1 !! j = Some v -> i <> j ->
     less u v = true \/ less v u = true) ->
  l1 = l2.
Proof.
  induction l1 as [|x l1 IH]; intros l2 HP H1 H2 Htot.
  - by apply Permutation_nil_l in HP.
  - destruct l2 as [|y l2]; [by apply Permutation_nil_r in HP|].
    assert (Hxy : x = y).
    { assert (Hy : y ∈ x :: l1) by (rewrite HP; by left).
      apply list_elem_of_lookup in Hy as [i Hi].
      destruct i as [|i]; [simpl in Hi; congruence|].
      assert (Hyx : less y x = false) by (apply (H1 0%nat (S i)); [lia|done|done]).
      assert (Hx : x ∈ y :: l2) by (rewrite <-HP; by left).
      apply list_elem_of_lookup in Hx as [j Hj].
      destruct j as [|j]; [simpl in Hj; congruence|].
      assert (Hxy : less x y = false) by (apply (H2 0%nat (S j)); [lia|done|done]).
      destruct (Htot 0%nat (S i) x y) as [E|E]; [done|done|lia|congruence|congruence]. }
    subst y. f_equal. apply IH.
    + by apply Permutation_cons_inv in HP.
    + intros i j u v Hij Hu Hv. apply (H1 (S i) (S j)); [lia|done|done].
    + intros i j u v Hij Hu Hv. apply (H2 (S i) (S j)); [lia|done|done].
    + intros i j u v Hu Hv Hij. apply (Htot (S i) (S j)); [done|done|lia].
Qed.

Lemma answer_less_total a b :
  answer_rank a <> answer_rank b ->
  answer_less a b = true \/ answer_less b a = true.
Proof.
  unfold answer_rank, answer_less. intros Hne.
  destruct (AnswerData.IsAccepted a), (AnswerData.IsAccepted b); simpl; auto.
  - assert (AnswerData.Score a <> AnswerData.Score b) by congruence.
    destruct (Z.gtb_spec (AnswerData.Score a) (AnswerData.Score b)); [by left|].
    destruct (Z.gtb_spec (AnswerData.Score b) (AnswerData.Score a)); [by right|]. lia.
  - assert (AnswerData.Score a <> AnswerData.Score b) by congruence.
    destruct (Z.gtb_spec (AnswerData.Score a) (AnswerData.Score b)); [by left|].
    destruct (Z.gtb_spec (AnswerData.Score b) (AnswerData.Score a)); [by right|]. lia.
Qed.

Lemma Slice_answers_Permutation answers answers' :
  answers ≡ₚ answers' -> distinct_ranks answers ->
  Sort.Slice answer_less answers' = Sort.Slice answer_less answers.
Proof.
  intros HP Hd.
  pose proof (SortFacts.Slice_Permutation answer_less answer_less_swo answers) as P1.
  pose proof (SortFacts.Slice_Permutation answer_less answer_less_swo answers') as P2.
  apply sorted_Permutation_unique with (less := answer_less).
  - by rewrite P2, P1.
  - intros i j u v. apply (SortFacts.Slice_sorted answer_less answer_less_swo).
  - intros i j u v. apply (SortFacts.Slice_sorted answer_less answer_less_swo).
  - intros i j u v Hu Hv Hij. apply answer_less_total. intros Heq.
    assert (Hd' : NoDup (map answer_rank (Sort.Slice answer_less answers'))).
    { unfold distinct_ranks in Hd. by rewrite P2, <-HP. }
    apply Hij. eapply (NoDup_lookup _ i j _ Hd').
    + by rewrite list_lookup_fmap, Hu.
    + rewrite list_lookup_fmap, Hv. simpl. by rewrite Heq.
Qed.

Lemma FormatQuestionMarkdown_begins decodeHTML formatDate fuel qd maxAnswers md :
  FormatQuestionMarkdown decodeHTML formatDate fuel (Some qd) maxAnswers = Some md ->
  exists rest,
    md = "# " +:+ decodeHTML (QuestionData.Title qd) +:+ nl +:+ nl +:+ rest.
Proof.
  unfold FormatQuestionMarkdown.
  destruct (formatNumber fuel (QuestionData.ViewCount qd)) as [views|]; [|done].
  unfold question_section.
  repeat match goal with |- context [if ?b then _ else _] => destruct b end;
    intros [= <-]; rewrite ?str_app_assoc; eexists; reflexivity.
Qed.

Section FormatQuestionMarkdownFacts.

Variable decodeHTML : string -> string.
Variable formatDate : Z -> string.

(** X11.  The Markdown of a question is never empty and begins with the
    heading of its title; the empty string is the answer to a nil payload
    only, so that what [FormatQuestionMarkdown] returns for a question is
    never rejected as empty content. *)
Theorem FormatQuestionMarkdown_heading fuel q maxAnswers :
  (FormatQuestionMarkdown decodeHTML formatDate fuel q maxAnswers = Some "" <->
   q = None) /\
  (forall qd md,
     q = Some qd ->
     FormatQuestionMarkdown decodeHTML formatDate fuel q maxAnswers = Some md ->
     exists rest,
       md = "# " +:+ decodeHTML (QuestionData.Title qd) +:+ nl +:+ nl +:+ rest).
Proof.
  pose proof (FormatQuestionMarkdown_begins decodeHTML formatDate fuel) as Hhead.
  split.
  - destruct q as [qd|]; [|done]. split; [|done].
    intros H. apply Hhead in H as (rest & H). discriminate.
  - intros qd md ->. apply Hhead.
Qed.

(** X12.  The Markdown does not depend on the order in which the payload
    lists its answers, when no two answers agree on both the accepted
    flag and the score. *)
Theorem FormatQuestionMarkdown_answer_permutation fuel q answers' maxAnswers :
  QuestionData.Answers q ≡ₚ answers' ->
  distinct_ranks (QuestionData.Answers q) ->
  FormatQuestionMarkdown decodeHTML formatDate fuel
    (Some (with_answers q answers')) maxAnswers =
  FormatQuestionMarkdown decodeHTML formatDate fuel (Some q) maxAnswers.
Proof.
  intros HP Hd.
  destruct (QuestionData.Answers q) as [|a answers] eqn:Ea.
  - apply Permutation_nil_l in HP. subst answers'.
    destruct q. simpl in Ea. subst. reflexivity.
  - assert (Hne : answers' <> []).
    { intros ->. by apply Permutation_nil_r in HP. }
    rewrite !FormatQuestionMarkdown_with_answers by (simpl; congruence).
    change (QuestionData.Answers (with_answers q answers')) with answers'.
    rewrite Ea, (Slice_answers_Permutation (a :: answers) answers') by done.
    destruct q. reflexivity.
Qed.

End FormatQuestionMarkdownFacts.

Lemma FormatSearchResults_begins decodeHTML (resp : SOResponse) maxResults :
  SOResponse.Items resp <> [] ->
  exists rest,
    FormatSearchResults decodeHTML (Some resp) maxResults =
    "# Stack Overflow Search Results" +:+ rest.
Proof.
  intros Hne. unfold FormatSearchResults.
  destruct (SOResponse.Items resp) as [|item items]; [done|].
  cbn [length Nat.eqb]. rewrite !str_app_assoc. eexists. reflexivity.
Qed.

(** ** [FormatSearchResults] *)

Section FormatSearchResultsFacts.

Variable decodeHTML : string -> string.

Lemma results_loop_entries n i items :
  (i + n <= length items)%nat ->
  results_loop decodeHTML n i items =
  result_entries decodeHTML i (take n (drop i items)).
Proof.
  revert i. induction n as [|n IH]; intros i Hle; simpl.
  - done.
  - destruct (lookup_lt_is_Some_2 items i) as [item Hitem]; [lia|].
    rewrite Hitem, (drop_S _ _ _ Hitem). simpl. by rewrite IH by lia.
Qed.

(** X1.  [FormatSearchResults] answers [No results found.] exactly when
    the envelope is nil or holds no item; every other envelope gets the
    listing, whatever [maxResults] is. *)
Theorem FormatSearchResults_no_results resp maxResults :
  FormatSearchResults decodeHTML resp maxResults = "No results found." <->
  resp = None \/ exists r, resp = Some r /\ SOResponse.Items r = [].
Proof.
  unfold FormatSearchResults. destruct resp as [r|].
  - destruct (SOResponse.Items r) as [|item items] eqn:Hitems; simpl.
    + split; [|done]. intros _. right. by exists r.
    + split; [discriminate|]. intros [|(r' & Hr & Hnil)]; [done|].
      injection Hr as <-. congruence.
  - split; [|done]. by left.
Qed.

Lemma result_entry_text i q :
  result_entry decodeHTML i q = entry_text decodeHTML (i + 1) q.
Proof.
  unfold result_entry, entry_text.
  destruct (QuestionData.Tags q) as [|t tags], (QuestionData.IsAnswered q);
    cbn [length Nat.ltb Nat.leb];
    rewrite ?str_app_assoc, ?str_app_nil_l; reflexivity.
Qed.

Lemma result_entries_text items : forall i,
  result_entries decodeHTML i items = entries_text decodeHTML (Z.of_nat i + 1) items.
Proof.
  induction items as [|item items IH]; intros i; [done|].
  cbn [result_entries entries_text]. rewrite result_entry_text, IH.
  by replace (Z.of_nat (S i) + 1) with (Z.of_nat i + 1 + 1) by lia.
Qed.

(** X2.  For an envelope with items the listing is the heading followed
    by one entry for each of the first [shown] items in the order of the
    envelope, where [shown] is [maxResults] capped at the number of items,
    and all the items when [maxResults] is zero or negative.  An entry
    reads: the number of the entry, counted from 1, and the title in bold,
    with a mark when the question is answered; the score, the number of
    answers and the tags; the link.  Items are listed whatever their
    type. *)
Theorem FormatSearchResults_listing resp maxResults :
  SOResponse.Items resp <> [] ->
  let n := length (SOResponse.Items resp) in
  let shown := shown_count maxResults n in
  FormatSearchResults decodeHTML (Some resp) maxResults =
    lines ["# Stack Overflow Search Results"; ""] +:+
    entries_text decodeHTML 1 (take (Z.to_nat shown) (SOResponse.Items resp)) /\
  length (take (Z.to_nat shown) (SOResponse.Items resp)) = Z.to_nat shown /\
  (0 < maxResults -> shown = Z.min maxResults (Z.of_nat n)) /\
  (maxResults <= 0 -> shown = Z.of_nat n) /\
  FormatSearchResults decodeHTML (Some listed_questions) 2 =
    lines
      [ "# Stack Overflow Search Results"; "";
        "1. **" +:+ decodeHTML "Reverse a string" +:+ "** ✅  ";
        "   Score: 12 | Answers: 3 — `go` `string`  ";
        "   https://so/q/1"; "";
        "2. **" +:+ decodeHTML "Sort a slice" +:+ "**  ";
        "   Score: 40 | Answers: 0  ";
        "   https://so/q/2"; "" ].
Proof.
  intros Hne n shown.
  pose proof (shown_count_range maxResults n) as Hrange.
  pose proof (shown_count_spec maxResults n) as [Hpos Hall].
  assert (Hgen : forall r m,
    SOResponse.Items r <> [] ->
    FormatSearchResults decodeHTML (Some r) m =
    lines ["# Stack Overflow Search Results"; ""] +:+
    entries_text decodeHTML 1
      (take (Z.to_nat (shown_count m (length (SOResponse.Items r))))
         (SOResponse.Items r))).
  { intros r m Hr. unfold FormatSearchResults.
    pose proof (shown_count_range m (length (SOResponse.Items r))) as Hrg.
    destruct (SOResponse.Items r) as [|item items] eqn:Hitems; [done|].
    cbn [Nat.eqb length].
    rewrite results_loop_entries by (simpl in *; lia).
    rewrite drop_0, result_entries_text. reflexivity. }
  split; [by apply Hgen|]. split; [|split; [|split]].
  - rewrite length_take. subst n shown. lia.
  - exact Hpos.
  - intros Hle. apply Hall. by left.
  - rewrite Hgen by discriminate.
    cbv -[String.append]. rewrite ?str_app_assoc, ?str_app_nil_r. reflexivity.
Qed.

End FormatSearchResultsFacts.

(** ** [ExtractText] *)

Lemma Join_cons_cons p q rest sep :
  Join (p :: q :: rest) sep = p +:+ sep +:+ Join (q :: rest) sep.
Proof. done. Qed.

Lemma append_parts_Join p0 rest :
  append_parts p0 rest = Join (p0 :: rest) nl.
Proof.
  revert p0. induction rest as [|p rest IH]; intros p0; [done|].
  cbn [append_parts]. rewrite IH.
  destruct rest as [|p' rest].
  - simpl. by rewrite ?str_app_assoc.
  - rewrite (Join_cons_cons (p0 +:+ nl +:+ p)), (Join_cons_cons p0), (Join_cons_cons p).
    by rewrite !str_app_assoc.
Qed.

(** X3.  [ExtractText] is [strings.Join] of the texts of the text items
    with a newline, in the order of the result; the items of other kinds
    are skipped, and a nil result gives the empty string. *)
Theorem ExtractText_Join :
  ExtractText None = "" /\
  (forall result,
     ExtractText (Some result) = Join (text_parts (Content_ result)) nl) /\
  (forall contents1 contents2,
     text_parts (contents1 ++ OtherContent :: contents2) =
     text_parts (contents1 ++ contents2)) /\
  (forall contents1 t contents2,
     text_parts (contents1 ++ TextContent t :: contents2) =
     text_parts contents1 ++ t :: text_parts contents2).
Proof.
  split; [done|]. split; [|split].
  - intros result. unfold ExtractText.
    destruct (text_parts (Content_ result)) as [|p0 rest]; [done|].
    apply append_parts_Join.
  - intros c1 c2. induction c1 as [|[t|] c1 IH]; simpl; congruence.
  - intros c1 t c2. induction c1 as [|[t'|] c1 IH]; simpl; congruence.
Qed.

(** X4.  [ExtractText] gives the empty string, which the callers report
    as an empty result, exactly when the result is nil, holds no text
    item, or holds one text item whose text is empty. *)
Theorem ExtractText_empty result :
  ExtractText result = "" <->
  result = None \/
  exists r, result = Some r /\
    (text_parts (Content_ r) = [] \/ text_parts (Content_ r) = [""]).
Proof.
  destruct result as [r|]; [|split; [by left|done]].
  assert (HJ : ExtractText (Some r) = Join (text_parts (Content_ r)) nl).
  { unfold ExtractText. destruct (text_parts (Content_ r)) as [|p0 rest]; [done|].
    apply append_parts_Join. }
  rewrite HJ. clear HJ. split.
  - intros HJ. right. exists r. split; [done|].
    destruct (text_parts (Content_ r)) as [|p0 [|p1 rest]]; [by left| |].
    + right. simpl in HJ. by subst.
    + rewrite Join_cons_cons in HJ. destruct p0; discriminate.
  - intros [|(r' & Hr & [Hn|Hn])]; [done| |]; injection Hr as <-; by rewrite Hn.
Qed.

(** ** [ExtractQuestionID]: the first marker *)

Module MarkerFacts.
Import Regexp.

Lemma strip_prefix_sound bytes : forall s rest,
  strip_prefix bytes s = Some rest -> s = bytes ++ rest.
Proof.
  induction bytes as [|b bytes IH]; intros s rest H; simpl in H.
  - by injection H as ->.
  - destruct s as [|c s]; [done|]. case_bool_decide; [|done]. subst c.
    simpl. f_equal. by apply IH.
Qed.

(** A repetition whose continuation accepts takes the whole run. *)
Lemma rep_greedy_longest {T} p min ds post (k : list ascii -> option T) :
  Forall (fun c => p c = true) ds ->
  match post with [] => True | c :: _ => p c = false end ->
  is_Some (k post) ->
  forall count, (min <= count + length ds)%nat ->
  rep_greedy p min count (ds ++ post) k = k post.
Proof.
  intros Hds Hpost Hk. induction Hds as [|d ds Hd Hds IH]; intros count Hmin.
  - simpl in *. assert ((min <=? count)%nat = true) as E by (apply Nat.leb_le; lia).
    destruct post as [|c post]; simpl; rewrite E; [done|]. by rewrite Hpost.
  - simpl. rewrite Hd. rewrite IH by (simpl in Hmin; lia).
    by destruct Hk as [r ->].
Qed.

Lemma literal_digits_exact {T} bytes ds post
    (k : list ascii -> option (list ascii) -> option T) :
  Forall (fun c => is_digit c = true) ds -> (1 <= length ds)%nat ->
  match post with [] => True | c :: _ => is_digit c = false end ->
  is_Some (k post (Some ds)) ->
  rmatch (RSeq (RLit bytes) (RGroup (RRepeat 1 is_digit))) (bytes ++ ds ++ post) None k
  = k post (Some ds).
Proof.
  intros Hds Hlen Hpost Hk. cbn [rmatch]. rewrite RegexpFacts.strip_prefix_app.
  assert (Hcap : take (length (ds ++ post) - length post) (ds ++ post) = ds).
  { rewrite length_app. replace (length ds + length post - length post)%nat
      with (length ds) by lia. by rewrite take_app_length. }
  rewrite rep_greedy_longest; rewrite ?Hcap; auto.
Qed.

Lemma literal_digits_sound {T} bytes s cap
    (k : list ascii -> option (list ascii) -> option T) res :
  rmatch (RSeq (RLit bytes) (RGroup (RRepeat 1 is_digit))) s cap k = Some res ->
  exists d post, s = bytes ++ d :: post /\ is_digit d = true.
Proof.
  cbn [rmatch]. destruct (strip_prefix bytes s) as [rest|] eqn:Es; [|done].
  apply strip_prefix_sound in Es as ->. intros H.
  apply RegexpFacts.rep_greedy_sound in H as (n & Hn & Hle & Hall & _).
  destruct rest as [|d post]; destruct n as [|n]; simpl in *; try lia.
  exists d, post. split; [done|]. by apply Forall_cons in Hall as [? _].
Qed.

(** The leftmost occurrence of the literal followed by a digit is the
    match, and the group holds the whole run of digits after it. *)
Lemma find_from_leftmost bytes ds post : forall pre,
  Forall (fun c => is_digit c = true) ds -> (1 <= length ds)%nat ->
  match post with [] => True | c :: _ => is_digit c = false end ->
  (forall pre' d' post',
     pre ++ bytes ++ ds ++ post = pre' ++ bytes ++ d' :: post' ->
     is_digit d' = true -> (length pre <= length pre')%nat) ->
  find_from (RSeq (RLit bytes) (RGroup (RRepeat 1 is_digit)))
    (pre ++ bytes ++ ds ++ post) = Some (bytes ++ ds, Some ds).
Proof.
  intros pre Hds Hlen Hpost. induction pre as [|c pre IH]; intros Hleft.
  - rewrite app_nil_l.
    destruct (bytes ++ ds ++ post) as [|c0 s0] eqn:Es.
    + destruct bytes, ds; simpl in *; try done; lia.
    + cbn [find_from]. rewrite <-Es.
      rewrite literal_digits_exact by done.
      rewrite !length_app.
      replace (length bytes + (length ds + length post) - length post)%nat
        with (length (bytes ++ ds)) by (rewrite length_app; lia).
      by rewrite app_assoc, take_app_length.
  - change ((c :: pre) ++ bytes ++ ds ++ post) with (c :: (pre ++ bytes ++ ds ++ post)).
    cbn [find_from].
    destruct (rmatch _ (c :: pre ++ bytes ++ ds ++ post) None _) as [m|] eqn:Em.
    + apply literal_digits_sound in Em as (d & post' & Heq & Hd).
      specialize (Hleft [] d post' Heq Hd). simpl in Hleft. lia.
    + apply IH. intros pre' d' post' Heq Hd'.
      specialize (Hleft (c :: pre') d' post'). simpl in Hleft.
      rewrite Heq in Hleft. specialize (Hleft eq_refl Hd'). lia.
Qed.

Lemma FindStringSubmatch_marker pre ds post :
  digit_run 1 ds ->
  match post with EmptyString => True | String c _ => is_digit c = false end ->
  (forall pre' d' post',
     pre +:+ "SO_Q" +:+ ds +:+ post = pre' +:+ "SO_Q" +:+ String d' post' ->
     is_digit d' = true -> (len pre <= len pre')%nat) ->
  FindStringSubmatch pattern_marker (pre +:+ "SO_Q" +:+ ds +:+ post) =
  ["SO_Q" +:+ ds; ds].
Proof.
  intros [Hlen Hds] Hpost Hleft. unfold FindStringSubmatch, pattern_marker, lit.
  rewrite !RegexpFacts.list_ascii_of_string_app.
  rewrite find_from_leftmost.
  - rewrite <-RegexpFacts.list_ascii_of_string_app.
    change (default [] (Some ?x)) with x.
    by rewrite !string_of_list_ascii_of_string.
  - done.
  - by rewrite <-RegexpFacts.len_string_of_list, string_of_list_ascii_of_string.
  - by destruct post.
  - intros pre' d' post' Heq Hd'.
    specialize (Hleft (string_of_list_ascii pre') d' (string_of_list_ascii post')).
    rewrite RegexpFacts.len_string_of_list in Hleft.
    rewrite <-(RegexpFacts.len_string_of_list (list_ascii_of_string pre)),
      string_of_list_ascii_of_string.
    apply Hleft; [|done].
    rewrite <-(string_of_list_ascii_of_string (pre +:+ _)).
    rewrite <-(string_of_list_ascii_of_string (string_of_list_ascii pre' +:+ _)).
    f_equal. rewrite !RegexpFacts.list_ascii_of_string_app. simpl.
    rewrite !list_ascii_of_string_of_list_ascii. exact Heq.
Qed.

End MarkerFacts.

(** X13.  When the text holds an [SO_Q] marker followed by digits and no
    such marker begins earlier, [ExtractQuestionID] returns the whole
    run of digits of this marker, whatever comes before and after it. *)
Theorem ExtractQuestionID_first_marker pre ds post :
  digit_run 1 ds ->
  match post with EmptyString => True | String c _ => Regexp.is_digit c = false end ->
  (forall pre' d' post',
     pre +:+ "SO_Q" +:+ ds +:+ post = pre' +:+ "SO_Q" +:+ String d' post' ->
     Regexp.is_digit d' = true -> (len pre <= len pre')%nat) ->
  ExtractQuestionID (pre +:+ "SO_Q" +:+ ds +:+ post) = ds.
Proof.
  intros Hds Hpost Hleft. unfold ExtractQuestionID, patterns. cbn [first_submatch].
  by rewrite MarkerFacts.FindStringSubmatch_marker.
Qed.

(** X14.  The query [fetchAndRender] sends for a question id reads back
    as this id: [ExtractQuestionID] of [SO_Q<id>] is the decimal text of
    the id, for every id that is not negative. *)
Theorem ExtractQuestionID_content_query qid :
  0 <= qid ->
  ExtractQuestionID (content_query qid) = Sprintf_d qid.
Proof.
  intros Hq. unfold content_query, ExtractQuestionID, patterns. cbn [first_submatch].
  pose proof (MarkerFacts.FindStringSubmatch_marker "" (Sprintf_d qid) "") as H.
  rewrite str_app_nil_r in H. change ("" +:+ ?s) with s in H.
  rewrite H; [done| |done|].
  - split; [apply Sprintf_d_nonempty|by apply Sprintf_d_digits].
  - intros. simpl. lia.
Qed.

Module InfixFacts.
Import Regexp.

Lemma strip_prefix_suffix bytes : forall s rest,
  strip_prefix bytes s = Some rest -> rest `suffix_of` s.
Proof.
  induction bytes as [|b bytes IH]; intros s rest H; simpl in H.
  - by injection H as ->.
  - destruct s as [|c s]; [done|]. case_bool_decide; [|done].
    apply suffix_cons_r. by apply IH.
Qed.

(** The continuation of a match runs on what is left of the input. *)
Lemma rmatch_suffix {T} r : forall s cap
    (k : list ascii -> option (list ascii) -> option T) res,
  rmatch r s cap k = Some res ->
  exists rest cap', rest `suffix_of` s /\ k rest cap' = Some res.
Proof.
  induction r as [bytes|p|r1 IH1 r2 IH2|r1 IH1 r2 IH2|r1 IH1|min p|r1 IH1];
    intros s cap k res H; cbn [rmatch] in H.
  - destruct (strip_prefix bytes s) as [rest|] eqn:Es; [|done].
    exists rest, cap. split; [by eapply strip_prefix_suffix|done].
  - destruct s as [|c rest]; [done|]. destruct (p c); [|done].
    exists rest, cap. split; [by apply suffix_cons_r|done].
  - apply IH1 in H as (rest1 & cap1 & Hs1 & H).
    apply IH2 in H as (rest2 & cap2 & Hs2 & H).
    exists rest2, cap2. split; [by etrans|done].
  - destruct (rmatch r1 s cap k) as [res1|] eqn:E1.
    + injection H as <-. by apply IH1 in E1.
    + by apply IH2 in H.
  - destruct (rmatch r1 s cap k) as [res1|] eqn:E1.
    + injection H as <-. by apply IH1 in E1.
    + by exists s, cap.
  - apply RegexpFacts.rep_greedy_sound in H as (n & _ & _ & _ & H).
    exists (drop n s), cap. split; [apply suffix_drop|done].
  - apply IH1 in H as (rest & cap' & Hs & H). by eexists _, _.
Qed.

(** The group of a pattern that ends in [(\d{min,})] is a piece of the
    input. *)
Lemma ends_with_digits_infix {T} min re :
  ends_with_digits min re ->
  forall s cap (f : list ascii -> T) w c,
    rmatch re s cap (fun rest cap' => Some (f rest, cap')) = Some (w, c) ->
    exists a b, s = a ++ default [] c ++ b.
Proof.
  induction 1 as [|r1 r2 He IH]; intros s cap f w c H; cbn [rmatch] in H.
  - apply RegexpFacts.rep_greedy_sound in H as (n & _ & Hn & _ & H).
    injection H as _ <-. rewrite length_drop.
    replace (length s - (length s - n))%nat with n by lia. simpl.
    exists [], (drop n s). by rewrite app_nil_l, take_drop.
  - apply rmatch_suffix in H as (rest & cap' & [a Hs] & H).
    apply IH in H as (a' & b & Hab).
    exists (a ++ a'), b. rewrite Hs, Hab at 1. by rewrite <-app_assoc.
Qed.

Lemma find_from_infix min re :
  ends_with_digits min re ->
  forall s w c, find_from re s = Some (w, c) ->
  exists a b, s = a ++ default [] c ++ b.
Proof.
  intros He s. induction s as [|x s IH]; intros w c H; cbn [find_from] in H.
  - destruct (rmatch re [] None _) as [m|] eqn:Em; [|done].
    injection H as ->. by apply (ends_with_digits_infix min re He) in Em.
  - destruct (rmatch re (x :: s) None _) as [m|] eqn:Em.
    + injection H as ->. by apply (ends_with_digits_infix min re He) in Em.
    + apply IH in H as (a & b & Hab). exists (x :: a), b. simpl. by rewrite <-Hab.
Qed.

Lemma FindStringSubmatch_infix min re text whole ds :
  ends_with_digits min re ->
  FindStringSubmatch re text = [whole; ds] ->
  exists pre post, text = pre +:+ ds +:+ post.
Proof.
  intros He. unfold FindStringSubmatch.
  destruct (find_from re (list_ascii_of_string text)) as [[w c]|] eqn:Ef; [|done].
  intros [= _ <-].
  apply (find_from_infix min re He) in Ef as (a & b & Hab).
  exists (string_of_list_ascii a), (string_of_list_ascii b).
  rewrite <-(string_of_list_ascii_of_string text), Hab.
  rewrite <-(string_of_list_ascii_of_string (_ +:+ _)).
  f_equal. rewrite !RegexpFacts.list_ascii_of_string_app.
  by rewrite !list_ascii_of_string_of_list_ascii.
Qed.

End InfixFacts.

(** X17.  [ExtractQuestionID] copies its result from the text: what it
    returns stands in the text as it is, and it is empty or made of
    decimal digits only. *)
Theorem ExtractQuestionID_infix text :
  (exists pre post, text = pre +:+ ExtractQuestionID text +:+ post) /\
  Forall (fun c => Regexp.is_digit c = true)
    (list_ascii_of_string (ExtractQuestionID text)).
Proof.
  unfold ExtractQuestionID, patterns. cbn [first_submatch].
  assert (Hcase : forall min re,
    ends_with_digits min re ->
    Regexp.FindStringSubmatch re text = [] \/
    exists whole ds, Regexp.FindStringSubmatch re text = [whole; ds] /\
      (exists pre post, text = pre +:+ ds +:+ post) /\
      Forall (fun c => Regexp.is_digit c = true) (list_ascii_of_string ds)).
  { intros min re He.
    destruct (RegexpFacts.FindStringSubmatch_cases min re text He)
      as [|(whole & ds & Hm & _ & Hd)]; [by left|].
    right. exists whole, ds. split; [done|]. split; [|done].
    by eapply InfixFacts.FindStringSubmatch_infix. }
  destruct (Hcase _ _ RegexpFacts.pattern_marker_ends) as [->|(w & ds & -> & H)];
    [|done].
  destruct (Hcase _ _ RegexpFacts.pattern_questions_path_ends)
    as [->|(w & ds & -> & H)]; [|done].
  destruct (Hcase _ _ RegexpFacts.pattern_short_url_ends) as [->|(w & ds & -> & H)];
    [|done].
  destruct (Hcase _ _ RegexpFacts.pattern_labelled_ends) as [->|(w & ds & -> & H)];
    [|done].
  simpl. split; [|constructor]. exists "", text. by rewrite str_app_nil_l.
Qed.

(** ** [detectTagHints] *)

Section DetectTagHintsFacts.

Variable ToLower : string -> string.
Variable Fields : string -> list string.

Lemma hints_loop_spec words : forall seen hints,
  NoDup hints ->
  (forall t, default false (seen !! t) = true <-> t ∈ hints) ->
  NoDup (hints_loop words seen hints) /\
  (forall h, h ∈ hints_loop words seen hints <->
     h ∈ hints \/ exists w, w ∈ words /\ langMap !! w = Some h) /\
  hints `prefix_of` hints_loop words seen hints.
Proof.
  induction words as [|w words IH]; intros seen hints Hnd Hseen; cbn [hints_loop].
  - split; [done|]. split; [|done]. intros h. split; [by left|].
    intros [|(w & Hw & _)]; [done|]. by apply elem_of_nil in Hw.
  - destruct (langMap !! w) as [tag|] eqn:Htag.
    + destruct (default false (seen !! tag)) eqn:Hs; cbn [negb].
      * destruct (IH seen hints Hnd Hseen) as (H1 & H2 & H3).
        split; [done|]. split; [|done]. intros h. rewrite H2. split.
        -- intros [|(w' & Hw' & Hl)]; [by left|]. right. exists w'.
           split; [by apply elem_of_cons; right|done].
        -- intros [|(w' & Hw' & Hl)]; [by left|].
           apply elem_of_cons in Hw' as [->|Hw'].
           ++ left. apply Hseen. congruence.
           ++ right. by exists w'.
      * assert (Hnin : tag ∉ hints).
        { intros Hin. apply Hseen in Hin. congruence. }
        destruct (IH (<[tag := true]> seen) (hints ++ [tag])) as (H1 & H2 & H3).
        { apply NoDup_app. split; [done|]. split; [|apply NoDup_singleton].
          intros x Hx Hx'. apply list_elem_of_singleton in Hx' as ->. done. }
        { intros t. rewrite elem_of_app, list_elem_of_singleton.
          destruct (decide (t = tag)) as [->|Hne].
          - rewrite lookup_insert_eq. simpl. split; [by right|done].
          - rewrite lookup_insert_ne by done. rewrite Hseen. split; [by left|].
            by intros [|]. }
        split; [done|]. split.
        -- intros h. rewrite H2, elem_of_app, list_elem_of_singleton. split.
           ++ intros [[Hh | ->]|(w' & Hw' & Hl)]; [by left| |].
              ** right. exists w. split; [by apply elem_of_cons; left|done].
              ** right. exists w'. split; [by apply elem_of_cons; right|done].
           ++ intros [|(w' & Hw' & Hl)]; [by left; left|].
              apply elem_of_cons in Hw' as [->|Hw'].
              ** left. right. congruence.
              ** right. by exists w'.
        -- etrans; [|exact H3]. by apply prefix_app_r.
    + destruct (IH seen hints Hnd Hseen) as (H1 & H2 & H3).
      split; [done|]. split; [|done]. intros h. rewrite H2. split.
      * intros [|(w' & Hw' & Hl)]; [by left|]. right. exists w'.
        split; [by apply elem_of_cons; right|done].
      * intros [|(w' & Hw' & Hl)]; [by left|].
        apply elem_of_cons in Hw' as [->|Hw']; [congruence|].
        right. by exists w'.
Qed.

(** X5.  [detectTagHints] returns every tag at most once, and a tag is
    returned exactly when one of the words of the lower-cased query is a
    keyword of the table that stands for this tag; so that no hint is
    returned exactly when no word of the query is a keyword. *)
Theorem detectTagHints_tags query :
  NoDup (detectTagHints ToLower Fields query) /\
  (forall h,
     h ∈ detectTagHints ToLower Fields query <->
     exists w, w ∈ Fields (ToLower query) /\ langMap !! w = Some h) /\
  (detectTagHints ToLower Fields query = [] <->
   forall w, w ∈ Fields (ToLower query) -> langMap !! w = None).
Proof.
  unfold detectTagHints.
  destruct (hints_loop_spec (Fields (ToLower query)) ∅ []) as (H1 & H2 & _).
  { constructor. }
  { intros t. rewrite lookup_empty. simpl. split; [done|].
    intros Hin. by apply elem_of_nil in Hin. }
  assert (Hmem : forall h,
    h ∈ hints_loop (Fields (ToLower query)) ∅ [] <->
    exists w, w ∈ Fields (ToLower query) /\ langMap !! w = Some h).
  { intros h. rewrite H2. split; [|by right].
    intros [Hin|]; [|done]. by apply elem_of_nil in Hin. }
  split; [done|]. split; [done|]. split.
  - intros Hnil w Hw. destruct (langMap !! w) as [h|] eqn:Hl; [|done].
    assert (Hh : h ∈ hints_loop (Fields (ToLower query)) ∅ []).
    { apply Hmem. by exists w. }
    rewrite Hnil in Hh. by apply elem_of_nil in Hh.
  - intros Hno. destruct (hints_loop (Fields (ToLower query)) ∅ []) as [|h l]; [done|].
    destruct (proj1 (Hmem h)) as (w & Hw & Hl); [by left|].
    rewrite (Hno w Hw) in Hl. done.
Qed.

End DetectTagHintsFacts.

(** ** [runAsk] and [fetchAndRender] *)

Lemma formatNumber_least_int fuel : formatNumber fuel min_int = None.
Proof.
  induction fuel as [|fuel IH]; [done|].
  cbn [formatNumber]. change (min_int <? 0) with true. cbv iota.
  rewrite int_neg_min_int. by rewrite IH.
Qed.

Lemma FormatQuestionMarkdown_least_int decodeHTML formatDate fuel q maxAnswers :
  QuestionData.ViewCount q = min_int ->
  FormatQuestionMarkdown decodeHTML formatDate fuel (Some q) maxAnswers = None.
Proof.
  intros Hv. unfold FormatQuestionMarkdown. by rewrite Hv, formatNumber_least_int.
Qed.

Section RunAskFacts.

Variable ToLower : string -> string.
Variable Fields : string -> list string.
Variable decodeHTML : string -> string.
Variable formatDate : Z -> string.
Variable float_overflows : string -> bool.
Variable Sscanf_d : string -> Z.

Lemma runAsk_fallback_outcome resp searchText :
  match runAsk_fallback decodeHTML Sscanf_d resp searchText with
  | Failed _ => False
  | Rendered md =>
      md <> "" /\ md <> "No results found." /\
      exists r, resp = Some r /\ SOResponse.Items r <> []
  | Fetch qid => 0 < qid
  | Raw text =>
      text = searchText /\
      forall r, resp = Some r -> SOResponse.Items r = []
  end.
Proof.
  unfold runAsk_fallback.
  assert (Hlisting :
    match
      match resp with
      | Some r =>
          if (0 <? length (SOResponse.Items r))%nat
          then Rendered (FormatSearchResults decodeHTML resp 10)
          else Raw searchText
      | None => Raw searchText
      end
    with
    | Failed _ => False
    | Rendered md =>
        md <> "" /\ md <> "No results found." /\
        exists r, resp = Some r /\ SOResponse.Items r <> []
    | Fetch qid => 0 < qid
    | Raw text => text = searchText /\ forall r, resp = Some r -> SOResponse.Items r = []
    end).
  { destruct resp as [r|]; [|by split].
    destruct (SOResponse.Items r) as [|item items] eqn:Hitems;
      cbn [length Nat.ltb Nat.leb].
    - split; [done|]. intros r' [= <-]. done.
    - destruct (FormatSearchResults_begins decodeHTML r 10) as [rest ->];
        [by rewrite Hitems|].
      split; [done|]. split; [done|]. exists r. by rewrite Hitems. }
  destruct (negb _); [|done].
  destruct (Z.gtb_spec (Sscanf_d (ExtractQuestionID searchText)) 0); [lia|done].
Qed.

(** X15.  What [runAsk] does with a search result: it reports no results
    exactly when the result holds no text; it never renders an empty page
    nor the [No results found.] message, and renders only when the text
    parsed to an envelope with items; it fetches only ids above zero; and
    it prints the raw text only when no envelope with items was parsed. *)
Theorem runAsk_display_outcome fuel query searchResult out :
  runAsk_display ToLower Fields decodeHTML formatDate float_overflows Sscanf_d
    fuel query searchResult = Some out ->
  match out with
  | Failed msg => msg = "no results found" /\ ExtractText searchResult = ""
  | Rendered md =>
      md <> "" /\ md <> "No results found." /\
      exists r, ParseResponse float_overflows (ExtractText searchResult) = inr r /\
                SOResponse.Items r <> []
  | Fetch qid => 0 < qid /\ ExtractText searchResult <> ""
  | Raw text =>
      text = ExtractText searchResult /\ text <> "" /\
      forall r, ParseResponse float_overflows text = inr r -> SOResponse.Items r = []
  end.
Proof.
  unfold runAsk_display, string_eqb. case_bool_decide as Etext.
  { intros [= <-]. done. }
  assert (Hfall : forall resp,
    (forall r, resp = Some r ->
       ParseResponse float_overflows (ExtractText searchResult) = inr r) ->
    (resp = None ->
       forall r, ParseResponse float_overflows (ExtractText searchResult) <> inr r) ->
    Some (runAsk_fallback decodeHTML Sscanf_d resp (ExtractText searchResult)) = Some out ->
    match out with
    | Failed msg => msg = "no results found" /\ ExtractText searchResult = ""
    | Rendered md =>
        md <> "" /\ md <> "No results found." /\
        exists r, ParseResponse float_overflows (ExtractText searchResult) = inr r /\
                  SOResponse.Items r <> []
    | Fetch qid => 0 < qid /\ ExtractText searchResult <> ""
    | Raw text =>
        text = ExtractText searchResult /\ text <> "" /\
        forall r, ParseResponse float_overflows text = inr r -> SOResponse.Items r = []
    end).
  { intros resp Hsome Hnone [= <-].
    pose proof (runAsk_fallback_outcome resp (ExtractText searchResult)) as H.
    destruct (runAsk_fallback _ _ _ _) as [msg|md|qid|text]; [done| | |].
    - destruct H as (H1 & H2 & r & -> & H3). split; [done|]. split; [done|].
      exists r. split; [by apply Hsome|done].
    - done.
    - destruct H as [-> H]. split; [done|]. split; [done|]. intros r Hr.
      destruct resp as [r'|].
      + rewrite (Hsome r' eq_refl) in Hr. injection Hr as <-. by apply H.
      + by destruct (Hnone eq_refl r). }
  destruct (ParseResponse float_overflows (ExtractText searchResult)) as [e|resp] eqn:Ep.
  { apply Hfall; [done|]. intros _ r. done. }
  destruct (0 <? length (SOResponse.Items resp))%nat eqn:Eitems;
    [|apply Hfall; [by intros r [= <-]|done]].
  destruct (BestQuestion ToLower (Some resp) _) as [best|];
    [|apply Hfall; [by intros r [= <-]|done]].
  destruct (0 <? length (QuestionData.Answers (deref best)))%nat.
  - destruct (FormatQuestionMarkdown _ _ _ _ _) as [md|] eqn:Emd; [|done].
    intros [= <-].
    apply FormatQuestionMarkdown_begins in Emd as [rest ->].
    split; [done|]. split; [done|]. exists resp. split; [done|].
    intros Hnil. rewrite Hnil in Eitems. done.
  - destruct (Z.gtb_spec (QuestionData.QuestionID (deref best)) 0).
    + intros [= <-]. split; [lia|done].
    + apply Hfall; [by intros r [= <-]|done].
Qed.


End RunAskFacts.

(** ** [RenderContent] and [renderAndPrint] *)

Section RenderFacts.

Variable glamour_Render : string -> option string.
Variable resultBoxStyle_Render : string -> string.
Variable footerStyle_Render : string -> string.

(** X18.  [RenderContent] refuses the empty text, and [renderAndPrint]
    then prints the text as it is: whatever the renderer does,
    [renderAndPrint] writes nothing exactly when the Markdown is empty. *)
Theorem renderAndPrint_empty md :
  (RenderContent glamour_Render resultBoxStyle_Render footerStyle_Render md
     = inl EmptyContent <-> md = "") /\
  (renderAndPrint glamour_Render resultBoxStyle_Render footerStyle_Render md = "" <->
   md = "").
Proof.
  unfold renderAndPrint, RenderContent, string_eqb.
  case_bool_decide as E; [by subst|].
  destruct (glamour_Render md) as [rendered|].
  - split; [done|]. split; [|done]. intros H.
    apply (f_equal len) in H. rewrite !len_app in H. simpl in H. lia.
  - done.
Qed.

End RenderFacts.

(** ** Instances of the further properties *)

Lemma formatNumber_grouping_witness :
  exists first chunks,
    formatNumber 2 (-1234567) = Some ("-" +:+ Join (first :: chunks) ",") /\
    groups_of_three "1234567" first chunks.
Proof.
  destruct (formatNumber_grouping 0 (-1234567)) as (first & chunks & H);
    [by vm_compute|discriminate|].
  by exists first, chunks.
Defined.

Lemma formatNumber_strip_commas_witness :
  exists s,
    formatNumber 2 (-1234567) = Some s /\
    strip_commas s = "-1234567" /\
    len s = 10%nat.
Proof.
  destruct (formatNumber_strip_commas 0 (-1234567)) as (s & H);
    [by vm_compute|discriminate|].
  by exists s.
Defined.

Lemma BestQuestion_hints_rank_witness :
  exists p i0 item0,
    BestQuestion ToLower_ascii (Some tagged_questions) ["go"] = Some p /\
    BestQuestion ToLower_ascii (Some tagged_questions) [] = Some (i0, SOItem.Data item0) /\
    SOResponse.Items tagged_questions !! i0 = Some item0 /\
    ranks_no_higher (deref p) (SOItem.Data item0).
Proof.
  destruct (BestQuestion ToLower_ascii (Some tagged_questions) ["go"]) as [p|] eqn:Hp;
    [|by vm_compute in Hp].
  destruct (BestQuestion_hints_rank ToLower_ascii tagged_questions ["go"] p Hp)
    as (i0 & item0 & H1 & H2 & H3 & _).
  by exists p, i0, item0.
Defined.

Lemma BestQuestion_hints_as_set_witness :
  BestQuestion ToLower_ascii (Some tagged_questions) ["go"; "Go"; "GO"] =
  BestQuestion ToLower_ascii (Some tagged_questions) ["go"].
Proof.
  apply BestQuestion_hints_as_set. intros k. split.
  - intros (h & Hh & <-). exists "go". split; [by left|].
    repeat (apply elem_of_cons in Hh as [-> | Hh]; [done|]). by apply elem_of_nil in Hh.
  - intros (h & Hh & <-). exists "go". split; [by left|].
    apply elem_of_cons in Hh as [-> | Hh]; [done|]. by apply elem_of_nil in Hh.
Defined.

Lemma FormatQuestionMarkdown_heading_witness :
  exists rest,
    FormatQuestionMarkdown (fun s => s) (fun _ => "") 1
      (Some (sample_with_answers [])) 3 =
    Some ("# " +:+ nl +:+ nl +:+ rest).
Proof.
  destruct (FormatQuestionMarkdown (fun s => s) (fun _ => "") 1
              (Some (sample_with_answers [])) 3) as [md|] eqn:Hmd;
    [|by vm_compute in Hmd].
  destruct (proj2 (FormatQuestionMarkdown_heading (fun s => s) (fun _ => "") 1
                     (Some (sample_with_answers [])) 3) _ md eq_refl Hmd) as [rest ->].
  by exists rest.
Defined.

Lemma FormatQuestionMarkdown_answer_permutation_witness :
  FormatQuestionMarkdown (fun s => s) (fun _ => "") 1
    (Some (sample_with_answers
             [sample_answer 2 true 1; sample_answer 1 false 5; sample_answer 3 false 9])) 3 =
  FormatQuestionMarkdown (fun s => s) (fun _ => "") 1
    (Some (sample_with_answers
             [sample_answer 1 false 5; sample_answer 2 true 1; sample_answer 3 false 9])) 3.
Proof.
  apply (FormatQuestionMarkdown_answer_permutation (fun s => s) (fun _ => "") 1
           (sample_with_answers
              [sample_answer 1 false 5; sample_answer 2 true 1; sample_answer 3 false 9])
           [sample_answer 2 true 1; sample_answer 1 false 5; sample_answer 3 false 9] 3).
  - apply perm_swap.
  - unfold distinct_ranks. apply (bool_decide_unpack _). by vm_compute.
Defined.

Lemma ExtractQuestionID_first_marker_witness :
  ExtractQuestionID ("" +:+ "SO_Q" +:+ "4711" +:+ ", see also SO_Q12") = "4711".
Proof.
  apply (ExtractQuestionID_first_marker "" "4711" ", see also SO_Q12").
  - split; [simpl; lia|]. by repeat constructor.
  - reflexivity.
  - intros. simpl. lia.
Defined.

Lemma ExtractQuestionID_content_query_witness :
  ExtractQuestionID (content_query 11227809) = "11227809".
Proof. apply (ExtractQuestionID_content_query 11227809). lia. Defined.

Lemma FormatSearchResults_no_results_witness :
  FormatSearchResults (fun s => s) (Some (SOResponse.mk [] [])) 10 = "No results found.".
Proof.
  apply (proj2 (FormatSearchResults_no_results (fun s => s) (Some (SOResponse.mk [] [])) 10)).
  right. by eexists.
Defined.

Lemma FormatSearchResults_listing_witness :
  FormatSearchResults (fun s => s) (Some listed_questions) 1 =
  lines
    [ "# Stack Overflow Search Results"; "";
      "1. **Reverse a string** ✅  ";
      "   Score: 12 | Answers: 3 — `go` `string`  ";
      "   https://so/q/1"; "" ].
Proof.
  destruct (FormatSearchResults_listing (fun s => s) listed_questions 1) as [H _];
    [discriminate|exact H].
Defined.

Lemma ExtractText_empty_witness :
  ExtractText (Some (mkCallToolResult [OtherContent; TextContent ""] false)) = "".
Proof.
  apply (proj2 (ExtractText_empty _)). right. eexists. split; [reflexivity|].
  by right.
Defined.

Lemma detectTagHints_tags_witness :
  "go" ∈ detectTagHints ToLower_ascii (fun s => [s]) "Golang".
Proof.
  destruct (detectTagHints_tags ToLower_ascii (fun s => [s]) "Golang") as (_ & H & _).
  apply H. exists "golang". split; [by left|reflexivity].
Defined.

Lemma BestQuestion_nil_iff_witness :
  BestQuestion ToLower_ascii
    (Some (SOResponse.mk [SOItem.mk "" "Answer" "" QuestionData.zero] [])) ["go"] = None.
Proof.
  apply (proj2 (BestQuestion_nil_iff ToLower_ascii _ ["go"])).
  right. eexists. split; [reflexivity|].
  intros item Hin. apply list_elem_of_singleton in Hin as ->.
  intros [H|H]; discriminate.
Defined.

Lemma runAsk_display_outcome_witness :
  0 < 42 /\
  ExtractText (Some (mkCallToolResult [TextContent "see SO_Q42"] false)) <> "".
Proof.
  apply (runAsk_display_outcome ToLower_ascii (fun s => [s]) (fun s => s) (fun _ => "")
           (fun _ => false)
           (fun s => Decode.digits_value (list_ascii_of_string s))
           2 "go" (Some (mkCallToolResult [TextContent "see SO_Q42"] false))
           (Fetch 42)).
  by vm_compute.
Defined.


Lemma renderAndPrint_empty_witness :
  renderAndPrint (fun s => Some s) (fun s => s) (fun s => s) "" = "".
Proof.
  by apply (proj2 (proj2 (renderAndPrint_empty (fun s => Some s) (fun s => s)
                            (fun s => s) ""))).
Defined.
